(** * simple_db: the in-memory key-value store (fixed-bucket hash table with
    separate chaining), embedded from the C source of the store
    ([src/linked_list.c], the part headed "Simple In-Memory Database in C",
    compiled as [simple_db.c]).

    Conventions of the embedding.
    - A [const char *] argument is an [option string]: [None] is the NULL
      pointer, [Some s] points to the characters of [s] followed by the
      terminating NUL (so [s] itself holds no NUL character).
    - The strings the store owns ([entry->key], [entry->value]) live in a
      heap of string blocks and are held by address, so that the sharing
      between the table and what [db_get] and [db_keys] hand out is visible.
    - A collision chain (an [Entry] and its [next] links) is a list of
      entries; the bucket array is a list of [HASH_TABLE_SIZE] chains.
    - [uint32_t] and [size_t] values are integers with the wrap-around
      written out.
    - A computation that would read or free a block that is not live, or
      index outside an array, has no result ([None]). *)

From Stdlib Require Import ZArith Lia.
From Stdlib Require Ascii String.
From stdpp Require Import gmap strings list fin_maps.

Open Scope Z_scope.

(** ** Platform *)

(** Whether plain [char] is signed is left to the platform by C; the hash
    function reads each character into an [int], so the choice is a
    parameter of the model. *)
Class CharModel := char_is_signed : bool.

Definition char_to_int `{CharModel} (a : Ascii.ascii) : Z :=
  let b := Z.of_N (Ascii.N_of_ascii a) in
  if char_is_signed && (128 <=? b) then b - 256 else b.

Definition wrap32 (z : Z) : Z := z mod 2 ^ 32.
Definition wrap64 (z : Z) : Z := z mod 2 ^ 64.

(** ** Configuration *)

Definition HASH_TABLE_SIZE : Z := 1024.
Definition MAX_KEY_LENGTH : Z := 256.
Definition MAX_VALUE_LENGTH : Z := 4096.

Definition strlen (s : string) : Z := Z.of_nat (String.length s).

(** ** Hash function *)

(** The loop [while ((c = *str++)) hash = ((hash << 5) + hash) + c;] on a
    [uint32_t] accumulator. *)
Fixpoint hash_loop `{CharModel} (str : string) (hash : Z) : Z :=
  match str with
  | EmptyString => hash
  | String c str' =>
      hash_loop str'
        (wrap32 (wrap32 (wrap32 (Z.shiftl hash 5) + hash) + char_to_int c))
  end.

Definition hash_function `{CharModel} (str : string) : Z :=
  hash_loop str 5381 mod HASH_TABLE_SIZE.

(** The reference algorithm as the specification words it: start at 5381,
    then [accumulator * 33 + c] for each byte [c] of the key, taken as its
    value (0 to 255), in unsigned 32-bit arithmetic. *)
Definition byte_value (a : Ascii.ascii) : Z := Z.of_N (Ascii.N_of_ascii a).

Fixpoint djb2_bytes (acc : Z) (str : string) : Z :=
  match str with
  | EmptyString => acc
  | String c str' => djb2_bytes ((acc * 33 + byte_value c) mod 2 ^ 32) str'
  end.

(** What a byte stands for when it is read through a signed [char]: a byte
    above 127 is the negative number 256 below its value. *)
Definition sign_extended (a : Ascii.ascii) : Z :=
  if byte_value a <? 128 then byte_value a else byte_value a - 256.

(** The reference algorithm over the sign-extended bytes. *)
Fixpoint djb2_sign_extended (acc : Z) (str : string) : Z :=
  match str with
  | EmptyString => acc
  | String c str' =>
      djb2_sign_extended ((acc * 33 + sign_extended c) mod 2 ^ 32) str'
  end.

(** The key holds 7-bit characters only. *)
Fixpoint is_ascii (str : string) : bool :=
  match str with
  | EmptyString => true
  | String c str' => (byte_value c <? 128) && is_ascii str'
  end.

(** ** Data structures *)

Definition addr := Z.

(** [struct Entry]: [key] and [value] are the addresses of the two owned
    strings; [next] is the rest of the list the entry heads. *)
Record Entry := mkEntry { key : addr; value : addr }.

#[global] Instance Entry_eq_dec : EqDecision Entry.
Proof. solve_decision. Defined.

(** [struct Database]: the bucket array and the entry counter. *)
Record Database := mkDatabase { table : list (list Entry); count : Z }.

Record DBStats := mkDBStats {
  total_entries : Z;
  total_collisions : Z;
  max_chain_length : Z;
  used_buckets : Z }.

Definition SIZEOF_Entry : Z := 24.
Definition SIZEOF_Database : Z := 8 * HASH_TABLE_SIZE + 8.
Definition SIZEOF_ptr : Z := 8.

(** ** Memory and the allocator *)

(** [blocks] are the live string blocks. Structs and arrays are held by value
    in the model; [used] counts the bytes they occupy, which the allocator
    cannot let reach the size of the address space. [future] lists the
    allocator's coming answers: refuse ([None]) or grant at an address. *)
Record Mem := mkMem {
  blocks : gmap Z string;
  used : Z;
  future : list (option addr) }.

Definition M (A : Type) : Type := Mem → option (A * Mem).

Definition ret {A} (a : A) : M A := λ m, Some (a, m).

Definition bind {A B} (c : M A) (k : A → M B) : M B :=
  λ m, match c m with
       | Some (a, m') => k a m'
       | None => None
       end.

Definition undefined {A} : M A := λ _, None.

Notation "'let!' x ':=' c 'in' k" := (bind c (λ x, k))
  (at level 10, x pattern, c at level 100, k at level 200).
Notation "c1 ';;;' c2" := (bind c1 (λ _, c2))
  (at level 100, c2 at level 200, right associativity).

Definition valid_addr (p : addr) : bool := (0 <? p) && (p <? 2 ^ 64).

Definition next_decision : M (option addr) :=
  λ m, match future m with
       | [] => Some (None, m)
       | d :: rest => Some (d, mkMem (blocks m) (used m) rest)
       end.

(** [malloc(size)] and [calloc(1, size)] for a struct or an array. *)
Definition malloc (size : Z) : M bool :=
  let! d := next_decision in
  λ m, match d with
       | Some _ =>
           if used m + size <? 2 ^ 64
           then Some (true, mkMem (blocks m) (used m + size) (future m))
           else Some (false, m)
       | None => Some (false, m)
       end.

(** The allocator grants the next request, for a struct or an array of
    [size] bytes: its next answer is a grant and the bytes fit. *)
Definition grants_block (m : Mem) (size : Z) : Prop :=
  match future m with
  | Some _ :: _ => used m + size < 2 ^ 64
  | _ => False
  end.

#[global] Instance grants_block_dec m size : Decision (grants_block m size).
Proof. unfold grants_block. destruct (future m) as [|[?|] ?]; apply _. Defined.

(** [free] of a struct or an array of [size] bytes. *)
Definition free_struct (size : Z) : M unit :=
  λ m, Some (tt, mkMem (blocks m) (used m - size) (future m)).

(** [strdup(s)]: a fresh block holding a copy of [s], or NULL. *)
Definition strdup (s : string) : M (option addr) :=
  let! d := next_decision in
  λ m, match d with
       | Some p =>
           if valid_addr p && bool_decide (blocks m !! p = None)
           then Some (Some p, mkMem (<[p := s]> (blocks m)) (used m) (future m))
           else Some (None, m)
       | None => Some (None, m)
       end.

(** [free] of a string pointer; [free(NULL)] does nothing. *)
Definition free (p : option addr) : M unit :=
  λ m, match p with
       | None => Some (tt, m)
       | Some a =>
           match blocks m !! a with
           | Some _ => Some (tt, mkMem (delete a (blocks m)) (used m) (future m))
           | None => None
           end
       end.

(** Reading the string a pointer refers to. *)
Definition load (p : addr) : M string :=
  λ m, match blocks m !! p with
       | Some s => Some (s, m)
       | None => None
       end.

(** [strcmp(a, b) == 0]. *)
Definition streq (a b : string) : bool := bool_decide (a = b).

(** ** Internal helpers *)

Definition create_entry (k v : string) : M (option Entry) :=
  let! entry := malloc SIZEOF_Entry in
  if negb entry then ret None else
  let! kp := strdup k in
  let! vp := strdup v in
  match kp, vp with
  | Some ka, Some va => ret (Some (mkEntry ka va))
  | _, _ => free kp ;;; free vp ;;; free_struct SIZEOF_Entry ;;; ret None
  end.

Definition free_entry (entry : Entry) : M unit :=
  free (Some (key entry)) ;;; free (Some (value entry)) ;;;
  free_struct SIZEOF_Entry.

(** The inner loop of [db_destroy] and [db_clear]. *)
Fixpoint free_chain (entry : list Entry) : M unit :=
  match entry with
  | [] => ret tt
  | e :: next => free_entry e ;;; free_chain next
  end.

(** [db->table[index]]. *)
Definition bucket (d : Database) (index : Z) : M (list Entry) :=
  match table d !! Z.to_nat index with
  | Some entry => ret entry
  | None => undefined
  end.

(** ** Public API *)

Definition empty_table : list (list Entry) :=
  replicate (Z.to_nat HASH_TABLE_SIZE) [].

Definition db_create : M (option Database) :=
  let! db := malloc SIZEOF_Database in
  if negb db then ret None else ret (Some (mkDatabase empty_table 0)).

(** The loop over the buckets of [db_destroy]. *)
Fixpoint destroy_buckets (t : list (list Entry)) : M unit :=
  match t with
  | [] => ret tt
  | entry :: t' => free_chain entry ;;; destroy_buckets t'
  end.

Definition db_destroy (db : option Database) : M unit :=
  match db with
  | None => ret tt
  | Some d => destroy_buckets (table d) ;;; free_struct SIZEOF_Database
  end.

(** Outcome of the update loop of [db_set]. *)
Inductive update_result :=
  | NotFound
  | UpdateFailed
  | Updated (chain : list Entry).

(** [while (entry) { if (strcmp(entry->key, key) == 0) { ... } entry =
    entry->next; }] of [db_set]; [Updated] carries the chain with the
    matching entry's [value] field overwritten. *)
Fixpoint set_walk (k v : string) (entry : list Entry) : M update_result :=
  match entry with
  | [] => ret NotFound
  | e :: next =>
      let! ek := load (key e) in
      if streq ek k then
        let! new_value := strdup v in
        match new_value with
        | None => ret UpdateFailed
        | Some nv =>
            free (Some (value e)) ;;; ret (Updated (mkEntry (key e) nv :: next))
        end
      else
        let! r := set_walk k v next in
        ret (match r with
             | Updated next' => Updated (e :: next')
             | other => other
             end)
  end.

Definition db_set `{CharModel} (db : option Database) (k v : option string)
  : M (bool * option Database) :=
  match db, k, v with
  | Some d, Some k, Some v =>
      if (MAX_KEY_LENGTH <=? strlen k) || (MAX_VALUE_LENGTH <=? strlen v)
      then ret (false, db)
      else
        let index := hash_function k in
        let! entry := bucket d index in
        let! r := set_walk k v entry in
        match r with
        | Updated entry' =>
            ret (true, Some (mkDatabase (<[Z.to_nat index := entry']> (table d))
                                        (count d)))
        | UpdateFailed => ret (false, db)
        | NotFound =>
            let! new_entry := create_entry k v in
            match new_entry with
            | None => ret (false, db)
            | Some e =>
                ret (true,
                     Some (mkDatabase
                             (<[Z.to_nat index := e :: entry]> (table d))
                             (wrap64 (count d + 1))))
            end
        end
  | _, _, _ => ret (false, db)
  end.

(** The loop of [db_get]: the [value] pointer of the first entry whose key
    compares equal, or NULL. *)
Fixpoint get_walk (k : string) (entry : list Entry) : M (option addr) :=
  match entry with
  | [] => ret None
  | e :: next =>
      let! ek := load (key e) in
      if streq ek k then ret (Some (value e)) else get_walk k next
  end.

Definition db_get `{CharModel} (db : option Database) (k : option string) : M (option addr) :=
  match db, k with
  | Some d, Some k =>
      let index := hash_function k in
      let! entry := bucket d index in
      get_walk k entry
  | _, _ => ret None
  end.

(** The loop of [db_delete]: [None] when no key matches, else the chain with
    the first matching entry unlinked ([prev->next = entry->next], or the
    new head when there is no [prev]). *)
Fixpoint delete_walk (k : string) (entry : list Entry) : M (option (list Entry)) :=
  match entry with
  | [] => ret None
  | e :: next =>
      let! ek := load (key e) in
      if streq ek k then free_entry e ;;; ret (Some next)
      else
        let! r := delete_walk k next in
        ret (match r with
             | Some next' => Some (e :: next')
             | None => None
             end)
  end.

Definition db_delete `{CharModel} (db : option Database) (k : option string)
  : M (bool * option Database) :=
  match db, k with
  | Some d, Some k =>
      let index := hash_function k in
      let! entry := bucket d index in
      let! r := delete_walk k entry in
      match r with
      | Some entry' =>
          ret (true, Some (mkDatabase (<[Z.to_nat index := entry']> (table d))
                                      (wrap64 (count d - 1))))
      | None => ret (false, db)
      end
  | _, _ => ret (false, db)
  end.

Definition db_exists `{CharModel} (db : option Database) (k : option string) : M bool :=
  let! r := db_get db k in
  ret (match r with Some _ => true | None => false end).

Definition db_count (db : option Database) : Z :=
  match db with
  | Some d => count d
  | None => 0
  end.

(** The loop over the buckets of [db_clear]: every chain is freed and its
    head reset to NULL. *)
Fixpoint clear_buckets (t : list (list Entry)) : M (list (list Entry)) :=
  match t with
  | [] => ret []
  | entry :: t' =>
      free_chain entry ;;;
      let! r := clear_buckets t' in
      ret ([] :: r)
  end.

Definition db_clear (db : option Database) : M (option Database) :=
  match db with
  | None => ret None
  | Some d =>
      let! t := clear_buckets (table d) in
      ret (Some (mkDatabase t 0))
  end.

(** [keys[idx++] = entry->key] along one chain. The array is a list of
    slots, [None] while uninitialised; a store past its end has no result. *)
Fixpoint keys_chain (entry : list Entry) (keys : list (option addr)) (idx : Z)
  : option (list (option addr) * Z) :=
  match entry with
  | [] => Some (keys, idx)
  | e :: next =>
      if bool_decide (Z.to_nat idx < length keys)%nat
      then keys_chain next (<[Z.to_nat idx := Some (key e)]> keys) (wrap64 (idx + 1))
      else None
  end.

Fixpoint keys_buckets (t : list (list Entry)) (keys : list (option addr)) (idx : Z)
  : option (list (option addr) * Z) :=
  match t with
  | [] => Some (keys, idx)
  | entry :: t' =>
      match keys_chain entry keys idx with
      | Some (keys', idx') => keys_buckets t' keys' idx'
      | None => None
      end
  end.

(** [db_keys(db, count)]: [count_p] is what [count] points to ([None] for a
    NULL pointer); the result is the returned array (or NULL) and what
    [count] points to afterwards. *)
Definition db_keys (db : option Database) (count_p : option Z)
  : M (option (list (option addr)) * option Z) :=
  match db, count_p with
  | Some d, Some _ =>
      if count d =? 0 then ret (None, Some (count d)) else
      let size := wrap64 (SIZEOF_ptr * count d) in
      let! keys := malloc size in
      if negb keys then ret (None, Some (count d)) else
      match keys_buckets (table d)
              (replicate (Z.to_nat (size / SIZEOF_ptr)) None) 0 with
      | Some (filled, _) => ret (Some filled, Some (count d))
      | None => undefined
      end
  | _, _ => ret (None, count_p)
  end.

(** The inner [while] of [db_stats]: counts the chain and its links. *)
Fixpoint stats_chain (entry : list Entry) (chain_length collisions : Z) : Z * Z :=
  match entry with
  | [] => (chain_length, collisions)
  | _ :: next =>
      stats_chain next (wrap64 (chain_length + 1))
        (match next with
         | [] => collisions
         | _ :: _ => wrap64 (collisions + 1)
         end)
  end.

(** The body of the [for] loop of [db_stats] for one bucket. *)
Definition stats_bucket (stats : DBStats) (entry : list Entry) : DBStats :=
  match entry with
  | [] => stats
  | _ :: _ =>
      let '(chain_length, collisions) :=
        stats_chain entry 0 (total_collisions stats) in
      mkDBStats (total_entries stats) collisions
        (if max_chain_length stats <? chain_length
         then chain_length else max_chain_length stats)
        (wrap64 (used_buckets stats + 1))
  end.

Definition db_stats (db : option Database) : DBStats :=
  match db with
  | None => mkDBStats 0 0 0 0
  | Some d => fold_left stats_bucket (table d) (mkDBStats (count d) 0 0 0)
  end.

(** ** The operations as one step function *)

Inductive operation :=
  | OpSet (k v : string)
  | OpGet (k : string)
  | OpDelete (k : string)
  | OpExists (k : string)
  | OpCount
  | OpClear
  | OpKeys
  | OpStats.

(** One call on a live store: the store afterwards. *)
Definition step `{CharModel} (o : operation) (d : Database) : M (option Database) :=
  match o with
  | OpSet k v => let! r := db_set (Some d) (Some k) (Some v) in ret (snd r)
  | OpGet k => db_get (Some d) (Some k) ;;; ret (Some d)
  | OpDelete k => let! r := db_delete (Some d) (Some k) in ret (snd r)
  | OpExists k => db_exists (Some d) (Some k) ;;; ret (Some d)
  | OpCount => let _ := db_count (Some d) in ret (Some d)
  | OpClear => db_clear (Some d)
  | OpKeys => db_keys (Some d) (Some 0) ;;; ret (Some d)
  | OpStats => let _ := db_stats (Some d) in ret (Some d)
  end.

(** ** Invariants *)

(** All entries of the table, bucket after bucket, each chain from its head. *)
Definition entries (d : Database) : list Entry := mjoin (table d).

(** The string pointers an entry, a chain, the table hold. *)
Definition entry_pointers (e : Entry) : list addr := [key e; value e].
Definition pointers (l : list Entry) : list addr := l ≫= entry_pointers.

(** The characters of an entry's key, read through its pointer. *)
Definition key_at (m : Mem) (e : Entry) : option string := blocks m !! key e.

(** The memory side of a well-formed store: the bucket array has its fixed
    size, every entry owns its two strings (live blocks, shared with no
    other field), and the structs fit into the memory in use. *)
Definition heap_ok (d : Database) (m : Mem) : Prop :=
  length (table d) = Z.to_nat HASH_TABLE_SIZE ∧
  NoDup (pointers (entries d)) ∧
  Forall (λ p, is_Some (blocks m !! p)) (pointers (entries d)) ∧
  SIZEOF_Database + SIZEOF_Entry * Z.of_nat (length (entries d)) ≤ used m ∧
  used m < 2 ^ 64.

(** [count] equals the number of entries reachable from the buckets. *)
Definition count_ok (d : Database) : Prop :=
  count d = Z.of_nat (length (entries d)).

(** A key appears in at most one entry of the whole table. *)
Definition keys_unique (d : Database) (m : Mem) : Prop :=
  NoDup (key_at m <$> entries d).

(** Every entry sits in the bucket its key hashes to. *)
Definition placed_ok `{CharModel} (d : Database) (m : Mem) : Prop :=
  Forall (λ ic : nat * list Entry,
            Forall (λ e, hash_function <$> key_at m e = Some (Z.of_nat ic.1)) ic.2)
         (imap pair (table d)).

Definition store_ok `{CharModel} (d : Database) (m : Mem) : Prop :=
  heap_ok d m ∧ count_ok d ∧ keys_unique d m ∧ placed_ok d m.

#[global] Instance heap_ok_dec d m : Decision (heap_ok d m).
Proof. unfold heap_ok. apply _. Defined.

#[global] Instance count_ok_dec d : Decision (count_ok d).
Proof. unfold count_ok. apply _. Defined.

#[global] Instance keys_unique_dec d m : Decision (keys_unique d m).
Proof. unfold keys_unique. apply _. Defined.

#[global] Instance placed_ok_dec `{CharModel} d m : Decision (placed_ok d m).
Proof. unfold placed_ok. apply _. Defined.

#[global] Instance store_ok_dec `{CharModel} d m : Decision (store_ok d m).
Proof. unfold store_ok. apply _. Defined.

(** The [key] pointers of the entries in bucket-then-chain order. *)
Definition key_pointers (d : Database) : list addr := key <$> entries d.

(** Statistics as the specification words them. *)
Definition chain_lengths (d : Database) : list Z :=
  (λ c : list Entry, Z.of_nat (length c)) <$> table d.

Definition sum_list_Z (l : list Z) : Z := foldr Z.add 0 l.
Definition max_list_Z (l : list Z) : Z := foldr Z.max 0 l.

(** The entries of a chain beyond the first. *)
Definition chain_collisions (c : list Entry) : Z :=
  Z.max (Z.of_nat (length c) - 1) 0.

(** The buckets whose chain is not empty. *)
Definition nonempty_buckets (d : Database) : list (list Entry) :=
  filter (λ c : list Entry, (0 < length c)%nat) (table d).

(** ** Specification predicates *)

(** Two memories hold the same store data when they differ in the
    allocator's pending answers only. *)
Definition same_data (m m' : Mem) : Prop :=
  blocks m' = blocks m ∧ used m' = used m.

(** The entry's key is readable and is not [k]. *)
Definition differs (m : Mem) (k : string) (e : Entry) : Prop :=
  ∃ s, key_at m e = Some s ∧ s ≠ k.

(** The entries of [es] own their strings in [m]: no pointer is held twice
    and every pointer refers to a live block. *)
Definition owns (es : list Entry) (m : Mem) : Prop :=
  NoDup (pointers es) ∧ Forall (λ p, is_Some (blocks m !! p)) (pointers es).

(** The bucket index of a key, as a list position. *)
Definition slot `{CharModel} (k : string) : nat := Z.to_nat (hash_function k).

(** The possible outcomes of [db_set(db, k, v)] with arguments of valid
    length: failure without any change, the in-place update of the first
    entry with key [k], or a new entry at the head of the bucket. *)
Inductive set_outcome `{CharModel} (d : Database) (m : Mem) (k v : string)
  : bool → Database → Mem → Prop :=
  | set_failed m' :
      same_data m m' →
      set_outcome d m k v false d m'
  | set_updated l1 e l2 nv m' :
      table d !! slot k = Some (l1 ++ e :: l2) →
      Forall (differs m k) l1 → key_at m e = Some k →
      blocks m !! nv = None →
      blocks m' = delete (value e) (<[nv := v]> (blocks m)) →
      used m' = used m →
      set_outcome d m k v true
        (mkDatabase (<[slot k := l1 ++ mkEntry (key e) nv :: l2]> (table d))
                    (count d)) m'
  | set_inserted c e m' :
      table d !! slot k = Some c →
      Forall (differs m k) c →
      blocks m !! key e = None → blocks m !! value e = None →
      key e ≠ value e →
      blocks m' = <[value e := v]> (<[key e := k]> (blocks m)) →
      used m' = used m + SIZEOF_Entry → used m' < 2 ^ 64 →
      set_outcome d m k v true
        (mkDatabase (<[slot k := e :: c]> (table d)) (wrap64 (count d + 1))) m'.

(** The outcomes of [db_delete(db, k)]: no entry with key [k] and nothing
    changes, or the first such entry is unlinked and freed. *)
Inductive delete_outcome `{CharModel} (d : Database) (m : Mem) (k : string)
  : bool → Database → Mem → Prop :=
  | delete_absent c :
      table d !! slot k = Some c → Forall (differs m k) c →
      delete_outcome d m k false d m
  | delete_unlinked l1 e l2 :
      table d !! slot k = Some (l1 ++ e :: l2) →
      Forall (differs m k) l1 → key_at m e = Some k →
      delete_outcome d m k true
        (mkDatabase (<[slot k := l1 ++ l2]> (table d)) (wrap64 (count d - 1)))
        (mkMem (delete (value e) (delete (key e) (blocks m)))
               (used m - SIZEOF_Entry) (future m)).

(** A sequence of calls, each on the store the previous one left. *)
Fixpoint run `{CharModel} (os : list operation) (d : Database) : M (option Database) :=
  match os with
  | [] => ret (Some d)
  | o :: os' =>
      let! r := step o d in
      match r with
      | Some d' => run os' d'
      | None => ret None
      end
  end.

(** ** Derived notions for further properties of the store *)

(** The value stored under [k]: the characters behind the pointer that
    [db_get] returns, if it returns one. *)
Definition lookup_value `{CharModel} (d : Database) (m : Mem) (k : string)
  : option string :=
  match db_get (Some d) (Some k) m with
  | Some (Some p, _) => blocks m !! p
  | _ => None
  end.

(** The strings of the store are confined to blocks that are not in [b0],
    and every block outside the store is as in [b0]. *)
Definition confined (b0 : gmap Z string) (d : Database) (m : Mem) : Prop :=
  ∀ p, if decide (p ∈ pointers (entries d))
       then b0 !! p = None
       else blocks m !! p = b0 !! p.

(** A mutation about key [k]: the entries [old] give way to the entries
    [new], all with key [k]; the other entries [R] have other keys and keep
    their strings. *)
Definition replaced (k : string) (old new R : list Entry)
    (d : Database) (m : Mem) (d' : Database) (m' : Mem) : Prop :=
  entries d ≡ₚ old ++ R ∧ entries d' ≡ₚ new ++ R
  ∧ (∀ p, p ∈ pointers R → blocks m' !! p = blocks m !! p)
  ∧ (∀ x, x ∈ R → key_at m x ≠ Some k)
  ∧ (∀ x, x ∈ old → key_at m x = Some k)
  ∧ (∀ x, x ∈ new → key_at m' x = Some k).

(** The allocator grants a string next: its next answer is a valid
    address that holds no live block. *)
Definition grants_string (m : Mem) : Prop :=
  match future m with
  | Some p :: _ => valid_addr p = true ∧ blocks m !! p = None
  | _ => False
  end.

(** The allocator grants a new entry: the struct, for which there is room,
    and then two strings at different addresses. *)
Definition grants_entry (m : Mem) : Prop :=
  match future m with
  | Some _ :: Some b :: Some c :: _ =>
      used m + SIZEOF_Entry < 2 ^ 64
      ∧ valid_addr b = true ∧ valid_addr c = true
      ∧ blocks m !! b = None ∧ blocks m !! c = None ∧ b ≠ c
  | _ => False
  end.

(** The allocator grants the requests that [db_set(db, k, v)] makes: the
    copy of the value when something is stored under [k], a new entry when
    nothing is. *)
Definition grants_set `{CharModel} (d : Database) (m : Mem) (k : string) : Prop :=
  if decide (is_Some (lookup_value d m k)) then grants_string m
  else grants_entry m.

#[global] Instance grants_string_dec m : Decision (grants_string m).
Proof. unfold grants_string. destruct (future m) as [|[?|] ?]; apply _. Defined.

#[global] Instance grants_entry_dec m : Decision (grants_entry m).
Proof.
  unfold grants_entry.
  destruct (future m) as [|[?|] [|[?|] [|[?|] ?]]]; apply _.
Defined.

#[global] Instance grants_set_dec `{CharModel} d m k : Decision (grants_set d m k).
Proof. unfold grants_set. destruct (decide _); apply _. Defined.

(** ** A concrete store *)

(** The platform of the build instructions in the source header (gcc on
    x86-64): plain [char] is signed. *)
Definition signed_char : CharModel := true.

Section concrete_store.
#[local] Existing Instance signed_char.

(** An allocator that grants the next requests at increasing addresses. *)
Definition grants : list (option addr) :=
  (λ i : Z, Some (4096 + 16 * i)) <$> seqZ 0 24.

Definition fresh_memory : Mem := mkMem ∅ 0 grants.

Definition state_of (r : option (option Database * Mem)) : Database * Mem :=
  match r with
  | Some (Some d, m) => (d, m)
  | _ => (mkDatabase [] 0, fresh_memory)
  end.

(** [db_create()], then four [db_set]; the keys "a" and "wj" hash to the
    same bucket. *)
Definition scenario : M (option Database) :=
  let! db := db_create in
  let! r1 := db_set db (Some "name") (Some "Alice") in
  let! r2 := db_set (snd r1) (Some "age") (Some "30") in
  let! r3 := db_set (snd r2) (Some "a") (Some "1") in
  let! r4 := db_set (snd r3) (Some "wj") (Some "2") in
  ret (snd r4).

Definition demo : Database * Mem :=
  Eval vm_compute in state_of (scenario fresh_memory).
Definition demo_db : Database := fst demo.
Definition demo_mem : Mem := snd demo.

(** The store right after [db_create()]. *)
Definition blank : Database * Mem :=
  Eval vm_compute in state_of (db_create fresh_memory).
Definition blank_db : Database := fst blank.
Definition blank_mem : Mem := snd blank.

Definition set_result (r : option (bool * option Database * Mem)) : Database * Mem :=
  match r with
  | Some ((_, db), m) => state_of (Some (db, m))
  | None => (mkDatabase [] 0, fresh_memory)
  end.

Definition after_city : Database * Mem :=
  Eval vm_compute in
    set_result (db_set (Some demo_db) (Some "city") (Some "Paris") demo_mem).

Definition after_age : Database * Mem :=
  Eval vm_compute in
    set_result (db_set (Some demo_db) (Some "age") (Some "31") demo_mem).

Definition after_empty_key : Database * Mem :=
  Eval vm_compute in
    set_result (db_set (Some blank_db) (Some "") (Some "v") blank_mem).

(** The memory of [demo] with an allocator that grants two requests and
    refuses the third. *)
Definition tight_memory : Mem :=
  mkMem (blocks demo_mem) (used demo_mem) [Some 4304; Some 4320; None].

(** A key of 257 characters. *)
Definition long_key : string :=
  Eval vm_compute in
    String.string_of_list_ascii (replicate 257 (Ascii.ascii_of_nat 120)).

(** The concrete store after [db_delete(db, "a")]. *)
Definition after_delete_a : Database * Mem :=
  Eval vm_compute in
    set_result (db_delete (Some demo_db) (Some "a") demo_mem).

(** The array that [db_keys] returns on the concrete store, [*count] and
    the memory afterwards. *)
Definition demo_keys : list (option addr) * option Z * Mem :=
  Eval vm_compute in
    match db_keys (Some demo_db) (Some 0) demo_mem with
    | Some ((Some ks, c), m) => (ks, c, m)
    | _ => ([], None, fresh_memory)
    end.

(** A session on the store just created. *)
Definition session : list operation :=
  [OpSet "name" "Alice"; OpSet "age" "30"; OpGet "age"; OpDelete "name";
   OpSet "age" "31"; OpKeys; OpStats].

Definition after_session : Database * Mem :=
  Eval vm_compute in state_of (run session blank_db blank_mem).

(** The memory of [demo] with an allocator that grants one request and
    refuses the next two. *)
Definition tight_update : Mem :=
  mkMem (blocks demo_mem) (used demo_mem) [Some 4304; None; None].

End concrete_store.

(** * linked_list: the singly linked list of [int]

    The list library of [src/linked_list.c] ([createNode] to
    [insertArray]). Here the nodes themselves live in a heap, by address:
    the functions relink and overwrite them in place, and hand out pointers
    into the same chain.

    - A [Node *] is an [option addr]; [None] is NULL.
    - Reading, writing or freeing a node that is not live is undefined
      behaviour ([Fault]), and so is the overflow of an [int] counter.
    - The [while] loops follow pointers for as long as the heap says; the
      model gives each loop [fuel] iterations and reports [Starved] when
      they do not suffice.
    - [printf] appends the formatted text to [stdout]. *)

From stdpp Require Import pretty sorting.

Open Scope Z_scope.

Module LinkedList.

Definition INT_MAX : Z := 2 ^ 31 - 1.

(** [struct Node] *)
Record Node := mkNode { data : Z; next : option addr }.

#[global] Instance Node_eq_dec : EqDecision Node.
Proof. solve_decision. Defined.

(** The live nodes, the allocator's coming answers (refuse, or grant at an
    address), and what has been printed. *)
Record World := mkWorld {
  nodes : gmap addr Node;
  answers : list (option addr);
  stdout : list string }.

Inductive Res (A : Type) : Type :=
| Val (a : A) (w : World)
| Fault
| Starved.
Arguments Val {A} a w.
Arguments Fault {A}.
Arguments Starved {A}.

Definition L (A : Type) : Type := World → Res A.

Definition ret {A} (a : A) : L A := λ w, Val a w.

Definition bind {A B} (c : L A) (k : A → L B) : L B :=
  λ w, match c w with
       | Val a w' => k a w'
       | Fault => Fault
       | Starved => Starved
       end.

Definition fault {A} : L A := λ _, Fault.
Definition starved {A} : L A := λ _, Starved.

Notation "'do!' x ':=' c 'in' k" := (bind c (λ x, k))
  (at level 10, x pattern, c at level 100, k at level 200).

Definition nl : string := String (Ascii.ascii_of_nat 10) EmptyString.

Definition printf (s : string) : L unit :=
  λ w, Val tt (mkWorld (nodes w) (answers w) (stdout w ++ [s])).

(** [malloc(sizeof(Node))]: NULL, or a fresh node whose fields are still to
    be written. *)
Definition malloc : L (option addr) :=
  λ w, match answers w with
       | Some p :: rest =>
           if valid_addr p && bool_decide (nodes w !! p = None)
           then Val (Some p) (mkWorld (<[p := mkNode 0 None]> (nodes w)) rest (stdout w))
           else Val None (mkWorld (nodes w) rest (stdout w))
       | None :: rest => Val None (mkWorld (nodes w) rest (stdout w))
       | [] => Val None w
       end.

(** [free(p)]; [free(NULL)] does nothing. *)
Definition free (p : option addr) : L unit :=
  λ w, match p with
       | None => Val tt w
       | Some a =>
           match nodes w !! a with
           | Some _ => Val tt (mkWorld (delete a (nodes w)) (answers w) (stdout w))
           | None => Fault
           end
       end.

(** [*p] *)
Definition load (p : option addr) : L Node :=
  λ w, match p with
       | None => Fault
       | Some a =>
           match nodes w !! a with
           | Some n => Val n w
           | None => Fault
           end
       end.

(** [*p = n] *)
Definition store (p : option addr) (n : Node) : L unit :=
  λ w, match p with
       | None => Fault
       | Some a =>
           match nodes w !! a with
           | Some _ => Val tt (mkWorld (<[a := n]> (nodes w)) (answers w) (stdout w))
           | None => Fault
           end
       end.

(** [p->data = d] and [p->next = q] *)
Definition set_data (p : option addr) (d : Z) : L unit :=
  do! n := load p in store p (mkNode d (next n)).

Definition set_next (p : option addr) (q : option addr) : L unit :=
  do! n := load p in store p (mkNode (data n) q).

(** ** The library *)

Definition createNode (d : Z) : L (option addr) :=
  do! newNode := malloc in
  match newNode with
  | None =>
      do! _ := printf ("Memory allocation failed!" +:+ nl) in
      ret None
  | Some _ =>
      do! _ := set_data newNode d in
      do! _ := set_next newNode None in
      ret newNode
  end.

(** [while (current->next != NULL) current = current->next;] *)
Fixpoint insertEnd_walk (fuel : nat) (current : option addr) : L (option addr) :=
  do! c := load current in
  match next c with
  | None => ret current
  | Some _ =>
      match fuel with
      | O => starved
      | S fuel => insertEnd_walk fuel (next c)
      end
  end.

Definition insertEnd (fuel : nat) (head : option addr) (d : Z) : L (option addr) :=
  do! newNode := createNode d in
  match newNode with
  | None => ret head
  | Some _ =>
      match head with
      | None => ret newNode
      | Some _ =>
          do! current := insertEnd_walk fuel head in
          do! _ := set_next current newNode in
          ret head
      end
  end.

Definition insertBegin (head : option addr) (d : Z) : L (option addr) :=
  do! newNode := createNode d in
  match newNode with
  | None => ret head
  | Some _ =>
      do! _ := set_next newNode head in
      ret newNode
  end.

(** The search loop of [deleteNode] with what follows it. *)
Fixpoint deleteNode_walk (fuel : nat) (head current : option addr) (d : Z)
  : L (option addr) :=
  do! c := load current in
  match next c with
  | None =>
      do! _ := printf ("Element " +:+ pretty d +:+ " not found in the list!" +:+ nl) in
      ret head
  | Some _ =>
      match fuel with
      | O => starved
      | S fuel =>
          do! n := load (next c) in
          if data n =? d then
            let temp := next c in
            do! _ := set_next current (next n) in
            do! _ := free temp in
            do! _ := printf ("Element " +:+ pretty d +:+ " deleted successfully." +:+ nl) in
            ret head
          else deleteNode_walk fuel head (next c) d
      end
  end.

Definition deleteNode (fuel : nat) (head : option addr) (d : Z) : L (option addr) :=
  match head with
  | None =>
      do! _ := printf ("List is empty!" +:+ nl) in
      ret head
  | Some _ =>
      do! h := load head in
      if data h =? d then
        do! _ := free head in
        do! _ := printf ("Element " +:+ pretty d +:+ " deleted successfully." +:+ nl) in
        ret (next h)
      else deleteNode_walk fuel head head d
  end.

Fixpoint display_walk (fuel : nat) (current : option addr) : L unit :=
  match current with
  | None => ret tt
  | Some _ =>
      match fuel with
      | O => starved
      | S fuel =>
          do! c := load current in
          do! _ := printf (pretty (data c) +:+ " -> ") in
          display_walk fuel (next c)
      end
  end.

Definition display (fuel : nat) (head : option addr) (label : string) : L unit :=
  match head with
  | None => printf (label +:+ ": [Empty]" +:+ nl)
  | Some _ =>
      do! _ := printf (label +:+ ": ") in
      do! _ := display_walk fuel head in
      printf ("NULL" +:+ nl)
  end.

Fixpoint reverseList_walk (fuel : nat) (prev current : option addr)
  : L (option addr) :=
  match current with
  | None => ret prev
  | Some _ =>
      match fuel with
      | O => starved
      | S fuel =>
          do! c := load current in
          let next' := next c in
          do! _ := set_next current prev in
          reverseList_walk fuel current next'
      end
  end.

Definition reverseList (fuel : nat) (head : option addr) : L (option addr) :=
  reverseList_walk fuel None head.

Fixpoint search_walk (fuel : nat) (current : option addr) (target position : Z)
  : L Z :=
  match current with
  | None => ret (-1)
  | Some _ =>
      match fuel with
      | O => starved
      | S fuel =>
          do! c := load current in
          if data c =? target then ret position
          else if position =? INT_MAX then fault
          else search_walk fuel (next c) target (position + 1)
      end
  end.

Definition search (fuel : nat) (head : option addr) (target : Z) : L Z :=
  search_walk fuel head target 0.

Fixpoint getListLength_walk (fuel : nat) (current : option addr) (count : Z)
  : L Z :=
  match current with
  | None => ret count
  | Some _ =>
      match fuel with
      | O => starved
      | S fuel =>
          if count =? INT_MAX then fault
          else
            do! c := load current in
            getListLength_walk fuel (next c) (count + 1)
      end
  end.

Definition getListLength (fuel : nat) (head : option addr) : L Z :=
  getListLength_walk fuel head 0.

(** The loop of [getMidNode]; it returns [prev] and [slow]. *)
Fixpoint getMidNode_walk (fuel : nat) (prev slow fast : option addr)
  : L (option addr * option addr) :=
  match fast with
  | None => ret (prev, slow)
  | Some _ =>
      do! f := load fast in
      match next f with
      | None => ret (prev, slow)
      | Some _ =>
          match fuel with
          | O => starved
          | S fuel =>
              do! s := load slow in
              do! f' := load (next f) in
              getMidNode_walk fuel slow (next s) (next f')
          end
      end
  end.

Definition getMidNode (fuel : nat) (head : option addr) : L (option addr) :=
  match head with
  | None => ret head
  | Some _ =>
      do! r := getMidNode_walk fuel None head head in
      let '(prev, slow) := r in
      match prev with
      | None => ret slow
      | Some _ =>
          do! _ := set_next prev None in
          ret slow
      end
  end.

(** The loop of [merge] with the statement that follows it. *)
Fixpoint merge_walk (fuel : nat) (current l1 l2 : option addr) : L unit :=
  match l1, l2 with
  | Some _, Some _ =>
      match fuel with
      | O => starved
      | S fuel =>
          do! n1 := load l1 in
          do! n2 := load l2 in
          if data n1 <=? data n2 then
            do! _ := set_next current l1 in
            do! n1 := load l1 in
            do! c := load current in
            merge_walk fuel (next c) (next n1) l2
          else
            do! _ := set_next current l2 in
            do! n2 := load l2 in
            do! c := load current in
            merge_walk fuel (next c) l1 (next n2)
      end
  | Some _, None => set_next current l1
  | None, _ => set_next current l2
  end.

Definition merge (fuel : nat) (l1 l2 : option addr) : L (option addr) :=
  do! dummy := createNode 0 in
  do! _ := merge_walk fuel dummy l1 l2 in
  do! d := load dummy in
  let result := next d in
  do! _ := free dummy in
  ret result.

Fixpoint mergeSort (fuel : nat) (head : option addr) : L (option addr) :=
  match head with
  | None => ret head
  | Some _ =>
      do! h := load head in
      match next h with
      | None => ret head
      | Some _ =>
          match fuel with
          | O => starved
          | S fuel =>
              do! mid := getMidNode fuel head in
              do! left' := mergeSort fuel head in
              do! right' := mergeSort fuel mid in
              merge fuel left' right'
          end
      end
  end.

(** The inner [while] of [bubbleSort]; it returns [swapped]. *)
Fixpoint bubbleSort_pass (fuel : nat) (current : option addr) (swapped : bool)
  : L bool :=
  do! c := load current in
  match next c with
  | None => ret swapped
  | Some _ =>
      match fuel with
      | O => starved
      | S fuel =>
          do! n := load (next c) in
          if data n <? data c then
            let temp := data c in
            do! _ := set_data current (data n) in
            do! _ := set_data (next c) temp in
            do! c := load current in
            bubbleSort_pass fuel (next c) true
          else bubbleSort_pass fuel (next c) swapped
      end
  end.

(** The [do ... while (swapped)] of [bubbleSort]. *)
Fixpoint bubbleSort_passes (fuel : nat) (head : option addr) : L unit :=
  match fuel with
  | O => starved
  | S fuel =>
      do! swapped := bubbleSort_pass fuel head false in
      if swapped then bubbleSort_passes fuel head else ret tt
  end.

Definition bubbleSort (fuel : nat) (head : option addr) : L (option addr) :=
  match head with
  | None => ret head
  | Some _ =>
      do! h := load head in
      match next h with
      | None => ret head
      | Some _ =>
          do! _ := bubbleSort_passes fuel head in
          ret head
      end
  end.

Fixpoint freeList_walk (fuel : nat) (current : option addr) : L unit :=
  match current with
  | None => ret tt
  | Some _ =>
      match fuel with
      | O => starved
      | S fuel =>
          let temp := current in
          do! c := load current in
          do! _ := free temp in
          freeList_walk fuel (next c)
      end
  end.

Definition freeList (fuel : nat) (head : option addr) : L unit :=
  freeList_walk fuel head.

(** The [for] loop of [insertArray]; [arr[i]] outside the array is
    undefined. *)
Fixpoint insertArray_loop (fuel : nat) (head : option addr) (arr : list Z)
    (size i : Z) : L (option addr) :=
  if i <? size then
    match fuel with
    | O => starved
    | S fuel' =>
        match arr !! Z.to_nat i with
        | None => fault
        | Some x =>
            do! head := insertEnd fuel' head x in
            insertArray_loop fuel' head arr size (i + 1)
        end
    end
  else ret head.

Definition insertArray (fuel : nat) (head : option addr) (arr : option (list Z))
    (size : Z) : L (option addr) :=
  match arr with
  | None =>
      do! _ := printf ("Invalid array or size!" +:+ nl) in
      ret head
  | Some a =>
      if size <=? 0 then
        do! _ := printf ("Invalid array or size!" +:+ nl) in
        ret head
      else
        do! head := insertArray_loop fuel head a size 0 in
        do! _ := printf ("✓ Inserted " +:+ pretty size +:+ " elements from array." +:+ nl) in
        ret head
  end.

(** ** Lists in the heap *)

(** A cell: the address of a node and its [data]. *)
Definition cells := list (addr * Z).

(** The pointer to a chain of cells that ends in [q]. *)
Definition ptr_of (l : cells) (q : option addr) : option addr :=
  match l with
  | [] => q
  | x :: _ => Some x.1
  end.

(** The heap [h] holds the cells [l], linked in this order, the last one
    pointing to [q]. *)
Fixpoint lseg (h : gmap addr Node) (l : cells) (q : option addr) : Prop :=
  match l with
  | [] => True
  | x :: l' => h !! x.1 = Some (mkNode x.2 (ptr_of l' q)) ∧ lseg h l' q
  end.

(** [p] heads the NULL-terminated list of the cells [l]. *)
Definition is_list (h : gmap addr Node) (p : option addr) (l : cells) : Prop :=
  p = ptr_of l None ∧ lseg h l None.

#[global] Instance lseg_dec h l q : Decision (lseg h l q).
Proof. induction l as [|x l IH]; simpl; apply _. Defined.

#[global] Instance is_list_dec h p l : Decision (is_list h p l).
Proof. unfold is_list. apply _. Defined.

(** ** The allocator, the order of the sorts and the effects on the heap *)

(** What the next [malloc] returns. *)
Definition grant (w : World) : option addr :=
  match answers w with
  | Some p :: _ =>
      if valid_addr p && bool_decide (nodes w !! p = None) then Some p else None
  | _ => None
  end.

(** The cells that [insertArray] appends for the values [vals]. Each value
    costs the allocator one answer, and gets a node where the answer is a
    valid address that is not among the [live] ones: the nodes that were
    live before the call and those of the values before it. A value whose
    answer is anything else is skipped. *)
Fixpoint array_cells (live : gset addr) (ans : list (option addr))
    (vals : list Z) : cells :=
  match vals with
  | [] => []
  | x :: vals' =>
      match ans with
      | Some a :: _ =>
          if valid_addr a && bool_decide (a ∉ live)
          then (a, x) :: array_cells ({[a]} ∪ live) (tail ans) vals'
          else array_cells live (tail ans) vals'
      | _ => array_cells live (tail ans) vals'
      end
  end.

(** The order of [merge]: by [data]. *)
Definition by_data (x y : addr * Z) : Prop := x.2 ≤ y.2.

#[global] Instance by_data_dec x y : Decision (by_data x y).
Proof. unfold by_data. apply _. Defined.

#[global] Instance by_data_total : Total by_data.
Proof. intros x y. unfold by_data. lia. Qed.

(** What [insertEnd] does to the heap when the node is granted at [a]: the
    last cell of [l] is linked to it. *)
Definition link_last (l : cells) (a : addr) (h : gmap addr Node) : gmap addr Node :=
  match last l with
  | Some x => <[x.1 := mkNode x.2 (Some a)]> h
  | None => h
  end.

(** What [getMidNode] does to the heap: the last cell of the first half
    [l] gets a NULL [next]. *)
Definition unlink_last (l : cells) (h : gmap addr Node) : gmap addr Node :=
  match last l with
  | Some x => <[x.1 := mkNode x.2 None]> h
  | None => h
  end.

(** The allocator's next [n] answers are grants of dead nodes. *)
Definition fresh_grant (w : World) (r : option addr) : Prop :=
  match r with
  | Some a => valid_addr a = true ∧ nodes w !! a = None
  | None => False
  end.

Definition grants_fresh (n : nat) (w : World) : Prop :=
  (n ≤ length (answers w))%nat ∧ Forall (fresh_grant w) (take n (answers w)).

#[global] Instance fresh_grant_dec w r : Decision (fresh_grant w r).
Proof. destruct r; simpl; apply _. Defined.

#[global] Instance grants_fresh_dec n w : Decision (grants_fresh n w).
Proof. unfold grants_fresh. apply _. Defined.

(** ** Bubble sort on the values *)

(** One pass of [bubbleSort] over the values, [x] being the value at
    [current]: the values after the pass, and [swapped]. *)
Fixpoint bubble (x : Z) (rest : list Z) : list Z :=
  match rest with
  | [] => [x]
  | y :: rest' => if y <? x then y :: bubble x rest' else x :: bubble y rest'
  end.

Fixpoint bubble_swapped (x : Z) (rest : list Z) (swapped : bool) : bool :=
  match rest with
  | [] => swapped
  | y :: rest' =>
      if y <? x then bubble_swapped x rest' true
      else bubble_swapped y rest' swapped
  end.

(** The number of pairs that are out of order. *)
Fixpoint inversions (l : list Z) : nat :=
  match l with
  | [] => 0
  | x :: l' => (length (filter (λ y, (y < x)%Z) l') + inversions l')%nat
  end.

(** ** Concrete lists *)

(** The heap that holds the cells [l], linked in this order, and nothing
    else. *)
Fixpoint heap_of (l : cells) : gmap addr Node :=
  match l with
  | [] => ∅
  | x :: l' => <[x.1 := mkNode x.2 (ptr_of l' None)]> (heap_of l')
  end.

(** The list 30 -> 10 -> 20 -> 10, with an allocator that grants three
    nodes, refuses one and grants again. *)
Definition sample : cells := [(16, 30); (32, 10); (48, 20); (64, 10)].

Definition sample_world : World :=
  mkWorld (heap_of sample) [Some 80; Some 96; Some 112; None; Some 128] [].

(** The same list with an allocator that refuses the next request. *)
Definition refusing_world : World :=
  mkWorld (heap_of sample) [None; Some 80] [].

(** Two sorted lists, 1 -> 4 and 2 -> 3, in one heap. *)
Definition low_run : cells := [(16, 1); (32, 4)].
Definition high_run : cells := [(48, 2); (64, 3)].

Definition runs_world : World :=
  mkWorld (heap_of low_run ∪ heap_of high_run) [Some 80] [].

End LinkedList.

(** * Proofs *)

Section hash.
Context `{CharModel}.

Lemma hash_step (hash c : Z) :
  wrap32 (wrap32 (wrap32 (Z.shiftl hash 5) + hash) + c)
  = (hash * 33 + c) mod 2 ^ 32.
Proof.
  unfold wrap32. rewrite Z.shiftl_mul_pow2 by lia.
  rewrite Zplus_mod_idemp_l, <- Z.add_assoc, Zplus_mod_idemp_l.
  f_equal. lia.
Qed.

Lemma hash_loop_unsigned (str : string) (acc : Z) :
  char_is_signed = false → hash_loop str acc = djb2_bytes acc str.
Proof.
  intros Hu. revert acc. induction str as [|c str IH]; intros acc; simpl; [done|].
  rewrite hash_step, IH. unfold char_to_int, byte_value. by rewrite Hu.
Qed.

Lemma hash_loop_signed (str : string) (acc : Z) :
  char_is_signed = true → hash_loop str acc = djb2_sign_extended acc str.
Proof.
  intros Hs. revert acc. induction str as [|c str IH]; intros acc; simpl; [done|].
  rewrite hash_step, IH. unfold char_to_int, sign_extended, byte_value.
  rewrite Hs. simpl.
  destruct (Z.leb_spec 128 (Z.of_N (Ascii.N_of_ascii c)));
    destruct (Z.ltb_spec (Z.of_N (Ascii.N_of_ascii c)) 128); (done || lia).
Qed.

Lemma djb2_sign_extended_ascii (str : string) (acc : Z) :
  is_ascii str = true → djb2_sign_extended acc str = djb2_bytes acc str.
Proof.
  revert acc. induction str as [|c str IH]; intros acc Hascii; simpl; [done|].
  simpl in Hascii. apply andb_true_iff in Hascii as [Hc Hrest].
  unfold sign_extended. rewrite Hc. by apply IH.
Qed.

Lemma hash_function_range (str : string) :
  0 ≤ hash_function str < HASH_TABLE_SIZE.
Proof. unfold hash_function, HASH_TABLE_SIZE. apply Z.mod_pos_bound. lia. Qed.

Lemma hash_function_index (str : string) :
  (Z.to_nat (hash_function str) < Z.to_nat HASH_TABLE_SIZE)%nat.
Proof. pose proof (hash_function_range str). unfold HASH_TABLE_SIZE in *. lia. Qed.

(** C8, amended: the hash function is the DJB2 variant of the
    specification (accumulator from 5381, [accumulator * 33 + c] per byte
    [c] of the key in unsigned 32-bit arithmetic, reduced modulo the table
    size) for every key where [char] is unsigned, and for the keys of 7-bit
    characters where it is signed. Where [char] is signed a byte above 127
    enters the sum sign-extended, so the index is that of the reference
    algorithm over the sign-extended bytes. The result lies in
    [0, HASH_TABLE_SIZE), and it is a function of the key's characters
    alone. *)
Theorem hash_function_is_djb2 (str : string) :
  hash_function str
  = (if char_is_signed then djb2_sign_extended 5381 str
     else djb2_bytes 5381 str) mod HASH_TABLE_SIZE
  ∧ (char_is_signed = false ∨ is_ascii str = true →
     hash_function str = djb2_bytes 5381 str mod HASH_TABLE_SIZE)
  ∧ 0 ≤ hash_function str < HASH_TABLE_SIZE
  ∧ (∀ str' : string, str' = str → hash_function str' = hash_function str).
Proof.
  assert (hash_function str
          = (if char_is_signed then djb2_sign_extended 5381 str
             else djb2_bytes 5381 str) mod HASH_TABLE_SIZE) as Hdjb2.
  { unfold hash_function. destruct char_is_signed eqn:Hsign.
    - by rewrite hash_loop_signed.
    - by rewrite hash_loop_unsigned. }
  split; [done|]. split; [|split; [apply hash_function_range|by intros str' ->]].
  intros [Hu|Hascii]; rewrite Hdjb2.
  - by rewrite Hu.
  - destruct char_is_signed; [by rewrite djb2_sign_extended_ascii|done].
Qed.

End hash.

(** ** The monad and the allocator *)

Lemma bind_Some {A B} (c : M A) (k : A → M B) m a m' :
  c m = Some (a, m') → bind c k m = k a m'.
Proof. unfold bind. by intros ->. Qed.

Lemma bind_inv {A B} (c : M A) (k : A → M B) m r :
  bind c k m = Some r → ∃ a m', c m = Some (a, m') ∧ k a m' = Some r.
Proof.
  unfold bind. destruct (c m) as [[a m']|] eqn:E; [|done]. intros Hk. eauto.
Qed.

Lemma same_data_refl m : same_data m m.
Proof. done. Qed.

Lemma next_decision_spec m :
  ∃ d m', next_decision m = Some (d, m') ∧ same_data m m'.
Proof.
  unfold next_decision. destruct (future m); eexists _, _; split; done.
Qed.

Lemma malloc_spec size m :
  ∃ b m', malloc size m = Some (b, m')
    ∧ blocks m' = blocks m
    ∧ (if b then used m' = used m + size ∧ used m' < 2 ^ 64
       else used m' = used m).
Proof.
  unfold malloc, bind, next_decision.
  destruct (future m) as [|[p|] rest]; simpl.
  - by eexists false, _.
  - destruct (used m + size <? 2 ^ 64) eqn:E.
    + apply Z.ltb_lt in E.
      eexists true, _; simpl. split; [done|]. split; [done|]. split; [done|simpl; lia].
    + by eexists false, _.
  - by eexists false, _.
Qed.

Lemma malloc_granted size m :
  grants_block m size →
  ∃ m', malloc size m = Some (true, m')
        ∧ blocks m' = blocks m ∧ used m' = used m + size.
Proof.
  unfold grants_block, malloc, bind, next_decision.
  destruct (future m) as [|[p|] rest]; [done| |done]. intros Hfit. simpl.
  rewrite (proj2 (Z.ltb_lt _ _) Hfit). by eexists.
Qed.

Lemma malloc_refused size m :
  ¬ grants_block m size →
  ∃ m', malloc size m = Some (false, m')
        ∧ blocks m' = blocks m ∧ used m' = used m.
Proof.
  unfold grants_block, malloc, bind, next_decision.
  destruct (future m) as [|[p|] rest]; simpl; intros Hno; [by eexists| |by eexists].
  rewrite (proj2 (Z.ltb_ge _ _)) by lia. by eexists.
Qed.

Lemma strdup_spec s m :
  ∃ r m', strdup s m = Some (r, m')
    ∧ used m' = used m
    ∧ match r with
      | Some p => blocks m !! p = None ∧ blocks m' = <[p := s]> (blocks m)
      | None => blocks m' = blocks m
      end.
Proof.
  unfold strdup, bind, next_decision.
  destruct (future m) as [|[p|] rest]; simpl.
  - by eexists None, _.
  - destruct (valid_addr p && bool_decide (blocks m !! p = None)) eqn:E.
    + apply andb_true_iff in E as [_ E]. apply bool_decide_eq_true in E.
      by eexists (Some p), _.
    + by eexists None, _.
  - by eexists None, _.
Qed.

Lemma free_live p s m :
  blocks m !! p = Some s →
  free (Some p) m = Some (tt, mkMem (delete p (blocks m)) (used m) (future m)).
Proof. unfold free. by intros ->. Qed.

Lemma load_live p s m : blocks m !! p = Some s → load p m = Some (s, m).
Proof. unfold load. by intros ->. Qed.

Lemma load_inv p s m m' : load p m = Some (s, m') → blocks m !! p = Some s ∧ m' = m.
Proof. unfold load. destruct (blocks m !! p); naive_solver. Qed.

Lemma streq_true a b : streq a b = true ↔ a = b.
Proof. unfold streq. apply bool_decide_eq_true. Qed.

Lemma streq_false a b : streq a b = false ↔ a ≠ b.
Proof. unfold streq. apply bool_decide_eq_false. Qed.

(** [create_entry] either fails and leaves the memory as it was, or returns
    an entry owning two fresh blocks with copies of the key and the value. *)
Lemma create_entry_spec k v m :
  ∃ r m', create_entry k v m = Some (r, m')
    ∧ match r with
      | None => same_data m m'
      | Some e =>
          blocks m !! key e = None ∧ blocks m !! value e = None
          ∧ key e ≠ value e
          ∧ blocks m' = <[value e := v]> (<[key e := k]> (blocks m))
          ∧ used m' = used m + SIZEOF_Entry ∧ used m' < 2 ^ 64
      end.
Proof.
  unfold create_entry.
  destruct (malloc_spec SIZEOF_Entry m) as ([|] & m1 & E1 & Hb1 & Hu1);
    rewrite (bind_Some _ _ _ _ _ E1); simpl;
    [|eexists None, _; split; [done|by split]].
  destruct Hu1 as [Hu1 Hlt].
  destruct (strdup_spec k m1) as (kp & m2 & E2 & Hu2 & Hb2).
  rewrite (bind_Some _ _ _ _ _ E2).
  destruct (strdup_spec v m2) as (vp & m3 & E3 & Hu3 & Hb3).
  rewrite (bind_Some _ _ _ _ _ E3).
  destruct kp as [ka|], vp as [va|].
  - destruct Hb2 as [Hka Hb2], Hb3 as [Hva Hb3].
    eexists (Some _), _; split; [done|]; simpl.
    rewrite Hb2 in Hva. apply lookup_insert_None in Hva as [Hva Hne].
    rewrite Hb3, Hb2, <- Hb1. repeat split; try done; try congruence; lia.
  - destruct Hb2 as [Hka Hb2].
    assert (blocks m3 !! ka = Some k) as Hl
      by (rewrite Hb3, Hb2; apply lookup_insert_eq).
    unfold bind. rewrite (free_live _ _ _ Hl). simpl.
    eexists None, _; split; [done|]. split; simpl; [|lia].
    rewrite Hb3, Hb2, delete_insert_eq, delete_id; congruence.
  - destruct Hb3 as [Hva Hb3].
    assert (blocks m3 !! va = Some v) as Hl
      by (rewrite Hb3; apply lookup_insert_eq).
    unfold bind. simpl. rewrite Hl. simpl.
    eexists None, _; split; [done|]. split; simpl; [|lia].
    rewrite Hb3, delete_insert_eq, delete_id; congruence.
  - unfold bind; simpl. eexists None, _; split; [done|].
    split; simpl; [congruence|lia].
Qed.

(** ** Walking a chain *)

(** A chain whose keys are readable either holds no entry with key [k], or
    splits at the first one. *)
Lemma chain_cases m k (c : list Entry) :
  Forall (λ e, is_Some (key_at m e)) c →
  Forall (differs m k) c
  ∨ ∃ l1 e l2, c = l1 ++ e :: l2 ∧ Forall (differs m k) l1 ∧ key_at m e = Some k.
Proof.
  induction 1 as [|e c [s Hs] _ IH]; [by left|].
  destruct (decide (s = k)) as [->|Hne].
  - right. by exists [], e, c.
  - assert (differs m k e) by (by exists s).
    destruct IH as [IH|(l1 & e' & l2 & -> & Hl1 & He')].
    + left. by constructor.
    + right. exists (e :: l1), e', l2. repeat split; [|done]. by constructor.
Qed.

Lemma get_walk_absent m k c :
  Forall (differs m k) c → get_walk k c m = Some (None, m).
Proof.
  induction 1 as [|e c (s & Hs & Hne) _ IH]; [done|]. simpl.
  rewrite (bind_Some _ _ _ _ _ (load_live _ _ _ Hs)).
  apply streq_false in Hne. by rewrite Hne.
Qed.

Lemma get_walk_present m k l1 e l2 :
  Forall (differs m k) l1 → key_at m e = Some k →
  get_walk k (l1 ++ e :: l2) m = Some (Some (value e), m).
Proof.
  intros Hl1 He. induction Hl1 as [|e' c (s & Hs & Hne) _ IH]; simpl.
  - rewrite (bind_Some _ _ _ _ _ (load_live _ _ _ He)).
    by rewrite (proj2 (streq_true k k)).
  - rewrite (bind_Some _ _ _ _ _ (load_live _ _ _ Hs)).
    apply streq_false in Hne. by rewrite Hne.
Qed.

Lemma set_walk_absent m k v c :
  Forall (differs m k) c → set_walk k v c m = Some (NotFound, m).
Proof.
  induction 1 as [|e c (s & Hs & Hne) _ IH]; [done|]. simpl.
  rewrite (bind_Some _ _ _ _ _ (load_live _ _ _ Hs)).
  apply streq_false in Hne. rewrite Hne.
  by rewrite (bind_Some _ _ _ _ _ IH).
Qed.

(** At the first entry with key [k] the walk duplicates the new value,
    frees the old one and overwrites the field; when the duplication fails
    nothing has been touched. *)
Lemma set_walk_present m k v l1 e l2 :
  Forall (differs m k) l1 → key_at m e = Some k →
  set_walk k v (l1 ++ e :: l2) m
  = match strdup v m with
    | Some (Some nv, m1) =>
        match free (Some (value e)) m1 with
        | Some (_, m2) => Some (Updated (l1 ++ mkEntry (key e) nv :: l2), m2)
        | None => None
        end
    | Some (None, m1) => Some (UpdateFailed, m1)
    | None => None
    end.
Proof.
  intros Hl1 He. induction Hl1 as [|e' c (s & Hs & Hne) _ IH]; simpl.
  - rewrite (bind_Some _ _ _ _ _ (load_live _ _ _ He)).
    rewrite (proj2 (streq_true k k)) by done.
    unfold bind. destruct (strdup v m) as [[[nv|] m1]|]; [|done..].
    unfold free. by destruct (blocks m1 !! value e).
  - rewrite (bind_Some _ _ _ _ _ (load_live _ _ _ Hs)).
    apply streq_false in Hne. rewrite Hne.
    unfold bind at 1. rewrite IH.
    destruct (strdup v m) as [[[nv|] m1]|]; [|done..].
    unfold free. by destruct (blocks m1 !! value e).
Qed.

Lemma delete_walk_absent m k c :
  Forall (differs m k) c → delete_walk k c m = Some (None, m).
Proof.
  induction 1 as [|e c (s & Hs & Hne) _ IH]; [done|]. simpl.
  rewrite (bind_Some _ _ _ _ _ (load_live _ _ _ Hs)).
  apply streq_false in Hne. rewrite Hne.
  by rewrite (bind_Some _ _ _ _ _ IH).
Qed.

Lemma free_entry_live m e :
  is_Some (blocks m !! key e) → is_Some (blocks m !! value e) →
  key e ≠ value e →
  free_entry e m
  = Some (tt, mkMem (delete (value e) (delete (key e) (blocks m)))
                    (used m - SIZEOF_Entry) (future m)).
Proof.
  intros [s Hk] [s' Hv] Hne. unfold free_entry.
  rewrite (bind_Some _ _ _ _ _ (free_live _ _ _ Hk)).
  assert (delete (key e) (blocks m) !! value e = Some s') as Hv'
    by (by rewrite lookup_delete_ne).
  unfold bind, free; simpl. by rewrite Hv'.
Qed.

(** At the first entry with key [k] the walk unlinks and frees it. *)
Lemma delete_walk_present m k l1 e l2 :
  Forall (differs m k) l1 → key_at m e = Some k →
  is_Some (blocks m !! value e) → key e ≠ value e →
  delete_walk k (l1 ++ e :: l2) m
  = Some (Some (l1 ++ l2),
          mkMem (delete (value e) (delete (key e) (blocks m)))
                (used m - SIZEOF_Entry) (future m)).
Proof.
  intros Hl1 He Hv Hne. induction Hl1 as [|e' c (s & Hs & Hne') _ IH]; simpl.
  - rewrite (bind_Some _ _ _ _ _ (load_live _ _ _ He)).
    rewrite (proj2 (streq_true k k)) by done.
    by rewrite (bind_Some _ _ _ _ _ (free_entry_live _ _ (mk_is_Some _ _ He) Hv Hne)).
  - rewrite (bind_Some _ _ _ _ _ (load_live _ _ _ Hs)).
    apply streq_false in Hne'. rewrite Hne'.
    by rewrite (bind_Some _ _ _ _ _ IH).
Qed.

(** ** Buckets and the list of all entries *)

Lemma join_bucket {A} (t : list (list A)) i c :
  t !! i = Some c → mjoin t ≡ₚ c ++ mjoin (delete i t).
Proof. intros Hi. by rewrite (delete_Permutation t i c Hi) at 1. Qed.

Lemma delete_insert_same {A} (t : list A) i x : delete i (<[i := x]> t) = delete i t.
Proof.
  rewrite !delete_take_drop, take_insert_ge, drop_insert_lt by lia. done.
Qed.

Lemma join_insert {A} (t : list (list A)) i c c' :
  t !! i = Some c → mjoin (<[i := c']> t) ≡ₚ c' ++ mjoin (delete i t).
Proof.
  intros Hi.
  assert (<[i := c']> t !! i = Some c') as Hi'
    by (apply list_lookup_insert_eq; by eapply lookup_lt_Some).
  rewrite (join_bucket _ _ _ Hi'). by rewrite delete_insert_same.
Qed.

Lemma elem_of_other_buckets {A} (t : list (list A)) i x :
  x ∈ mjoin (delete i t) ↔ ∃ j c, j ≠ i ∧ t !! j = Some c ∧ x ∈ c.
Proof.
  rewrite list_elem_of_join. split.
  - intros (c & Hx & Hc). apply list_elem_of_lookup in Hc as [j Hj].
    destruct (decide (j < i)%nat).
    + rewrite list_lookup_delete_lt in Hj by done. exists j, c. split; [lia|done].
    + rewrite list_lookup_delete_ge in Hj by lia. exists (S j), c. split; [lia|done].
  - intros (j & c & Hne & Hj & Hx). exists c. split; [done|].
    apply list_elem_of_lookup. destruct (decide (j < i)%nat).
    + exists j. by rewrite list_lookup_delete_lt.
    + exists (pred j). rewrite list_lookup_delete_ge by lia.
      by replace (S (pred j)) with j by lia.
Qed.

Lemma split_chain_Permutation {A} (l1 l2 rest : list A) e :
  ((l1 ++ e :: l2) ++ rest) ≡ₚ (e :: (l1 ++ l2) ++ rest).
Proof. by rewrite <- Permutation_middle. Qed.

(** ** Ownership of the strings *)

Lemma owns_Permutation es es' m : es ≡ₚ es' → owns es m → owns es' m.
Proof. unfold owns, pointers. intros Hp. by rewrite Hp. Qed.

Lemma owns_cons e es m :
  owns (e :: es) m ↔
    key e ≠ value e ∧ (key e ∉ pointers es) ∧ (value e ∉ pointers es)
    ∧ is_Some (blocks m !! key e) ∧ is_Some (blocks m !! value e) ∧ owns es m.
Proof.
  unfold owns, pointers. rewrite bind_cons. simpl.
  rewrite !NoDup_cons, !Forall_cons, !elem_of_cons. unfold not. tauto.
Qed.

Lemma owns_frame es m m' :
  (∀ p, p ∈ pointers es → blocks m' !! p = blocks m !! p) →
  owns es m → owns es m'.
Proof.
  intros Hfr [Hnd Hlive]. split; [done|].
  rewrite Forall_forall in Hlive |- *. intros p Hp. rewrite Hfr by done. auto.
Qed.

Lemma key_in_pointers e es : e ∈ es → key e ∈ pointers es.
Proof.
  intros He. unfold pointers. apply list_elem_of_bind. exists e. split; [|done].
  unfold entry_pointers. set_solver.
Qed.

Lemma value_in_pointers e es : e ∈ es → value e ∈ pointers es.
Proof.
  intros He. unfold pointers. apply list_elem_of_bind. exists e. split; [|done].
  unfold entry_pointers. set_solver.
Qed.

Lemma owns_live es m p : owns es m → p ∈ pointers es → is_Some (blocks m !! p).
Proof. intros [_ Hl] Hp. by eapply Forall_forall in Hl. Qed.

Lemma keys_frame es m m' :
  (∀ p, p ∈ pointers es → blocks m' !! p = blocks m !! p) →
  key_at m' <$> es = key_at m <$> es.
Proof.
  intros Hfr. apply list_fmap_ext. intros _ e He%list_elem_of_lookup_2.
  unfold key_at. apply Hfr. by apply key_in_pointers.
Qed.

(** ** Well-formed stores *)

Section store.
Context `{CharModel}.

Lemma placed_ok_lookup d m :
  placed_ok d m ↔
  ∀ i c e, table d !! i = Some c → e ∈ c →
           hash_function <$> key_at m e = Some (Z.of_nat i).
Proof.
  unfold placed_ok. rewrite Forall_forall. split.
  - intros Hp i c e Hi He.
    specialize (Hp (i, c) (elem_of_lookup_imap_2 pair _ _ _ Hi)).
    simpl in Hp. by eapply Forall_forall in Hp.
  - intros Hp [i c] (j & c' & [= -> ->] & Hj)%elem_of_lookup_imap_1.
    simpl. apply Forall_forall. intros e He. by eapply Hp.
Qed.

Lemma store_ok_same_data d m m' : same_data m m' → store_ok d m → store_ok d m'.
Proof.
  intros [Hb Hu] (Hheap & Hc & Hk & Hp).
  unfold store_ok, heap_ok, keys_unique, placed_ok, key_at in *.
  rewrite Hb, Hu. done.
Qed.

Lemma heap_ok_owns d m : heap_ok d m → owns (entries d) m.
Proof. intros (_ & Hnd & Hl & _). by split. Qed.

Lemma heap_ok_bucket d m k :
  heap_ok d m → ∃ c, table d !! Z.to_nat (hash_function k) = Some c.
Proof.
  intros (Hlen & _). apply lookup_lt_is_Some. rewrite Hlen.
  apply hash_function_index.
Qed.

Lemma bucket_lookup d index c m :
  table d !! Z.to_nat index = Some c → bucket d index m = Some (c, m).
Proof. unfold bucket. by intros ->. Qed.

(** The entries of a bucket own their strings: their keys are readable. *)
Lemma bucket_keys_live d m i c :
  heap_ok d m → table d !! i = Some c →
  Forall (λ e, is_Some (key_at m e)) c.
Proof.
  intros Hh Hi. apply Forall_forall. intros e He.
  apply (owns_live _ _ _ (heap_ok_owns _ _ Hh)), key_in_pointers.
  unfold entries. apply list_elem_of_join. exists c. split; [done|].
  by eapply list_elem_of_lookup_2.
Qed.

(** The entries number fewer than [2 ^ 64]: the counter cannot wrap. *)
Lemma heap_ok_bound d m :
  heap_ok d m → Z.of_nat (length (entries d)) < 2 ^ 64 - 1.
Proof.
  intros (_ & _ & _ & Hs & Hu). unfold SIZEOF_Database, SIZEOF_Entry,
    HASH_TABLE_SIZE in Hs. lia.
Qed.

Lemma placed_ok_insert d m m' i c c' n :
  placed_ok d m → table d !! i = Some c →
  (∀ x, x ∈ c' → hash_function <$> key_at m' x = Some (Z.of_nat i)) →
  (∀ x, x ∈ mjoin (delete i (table d)) → key_at m' x = key_at m x) →
  placed_ok (mkDatabase (<[i := c']> (table d)) n) m'.
Proof.
  rewrite !placed_ok_lookup. intros Hp Hi Hc' Hfr j c'' x Hj Hx. simpl in Hj.
  destruct (decide (i = j)) as [<-|Hne].
  - rewrite list_lookup_insert_eq in Hj by (by eapply lookup_lt_Some).
    injection Hj as <-. by apply Hc'.
  - rewrite list_lookup_insert_ne in Hj by done.
    rewrite Hfr by (apply elem_of_other_buckets; eauto).
    by eapply Hp.
Qed.

(** The entries of the store around one entry of bucket [i]. *)
Lemma entries_split d i l1 e l2 :
  table d !! i = Some (l1 ++ e :: l2) →
  entries d ≡ₚ e :: (l1 ++ l2) ++ mjoin (delete i (table d)).
Proof.
  intros Hi. unfold entries. rewrite (join_bucket _ _ _ Hi).
  apply split_chain_Permutation.
Qed.

(** *** The three ways a mutation changes a bucket *)

(** In-place update: the entry [e] of bucket [i] gets the fresh block [nv]
    as its value and its old value block is freed. *)
Lemma update_preserves d m m' i l1 e l2 nv v :
  store_ok d m → table d !! i = Some (l1 ++ e :: l2) →
  blocks m !! nv = None →
  blocks m' = delete (value e) (<[nv := v]> (blocks m)) →
  used m' = used m →
  store_ok (mkDatabase (<[i := l1 ++ mkEntry (key e) nv :: l2]> (table d))
                       (count d)) m'.
Proof.
  intros (Hheap & Hcount & Huniq & Hplaced) Hi Hnv Hb Hu.
  pose proof (entries_split _ _ _ _ _ Hi) as Hperm.
  set (R := (l1 ++ l2) ++ mjoin (delete i (table d))) in *.
  set (e' := mkEntry (key e) nv).
  assert (entries (mkDatabase (<[i := l1 ++ e' :: l2]> (table d)) (count d))
          ≡ₚ e' :: R) as Hperm'.
  { unfold entries; simpl. rewrite (join_insert _ _ _ _ Hi).
    apply split_chain_Permutation. }
  pose proof (owns_Permutation _ _ _ Hperm (heap_ok_owns _ _ Hheap)) as Howns.
  apply owns_cons in Howns as (Hkv & HkR & HvR & Hkl & Hvl & HR).
  assert (∀ p, p = key e ∨ p ∈ pointers R → blocks m' !! p = blocks m !! p)
    as Hfr.
  { intros p Hp. rewrite Hb.
    assert (is_Some (blocks m !! p)) as Hpl
      by (destruct Hp as [->|Hp]; [done|by eapply owns_live]).
    rewrite lookup_delete_ne, lookup_insert_ne; [done| |].
    - intros <-. rewrite Hnv in Hpl. by destruct Hpl.
    - intros <-. destruct Hp as [?|?]; [done|]. by apply HvR. }
  assert (value e ≠ nv) as Hne
    by (intros <-; rewrite Hnv in Hvl; by destruct Hvl).
  assert (blocks m' !! nv = Some v) as Hnv'
    by (rewrite Hb, lookup_delete_ne, lookup_insert_eq; done).
  assert (key_at m' <$> R = key_at m <$> R) as HkeysR
    by (apply keys_frame; intros p Hp; apply Hfr; by right).
  destruct Hheap as (Hlen & _ & _ & Hsize & Hlt).
  split; [|split; [|split]].
  - unfold heap_ok. simpl.
    destruct (owns_Permutation (e' :: R) _ m' (symmetry Hperm')) as [Hnd Hl].
    { apply owns_cons; simpl. repeat split; try done.
      + intros Heq. rewrite Heq, Hnv in Hkl. by destruct Hkl.
      + intros Hin. apply (owns_live _ _ _ HR) in Hin. rewrite Hnv in Hin.
        by destruct Hin.
      + rewrite Hfr by (by left). done.
      + by apply HR.
      + eapply owns_frame, HR. intros p Hp. apply Hfr. by right. }
    rewrite length_insert, Hu. repeat split; try done.
    rewrite Hperm'. rewrite Hperm in Hsize. done.
  - unfold count_ok in *. simpl. rewrite Hcount, Hperm, Hperm'. done.
  - unfold keys_unique in *. rewrite Hperm', fmap_cons, HkeysR.
    unfold key_at at 1; simpl. rewrite Hfr by (by left).
    rewrite Hperm, fmap_cons in Huniq. done.
  - eapply placed_ok_insert; [done..| |].
    + intros x Hx. rewrite placed_ok_lookup in Hplaced.
      apply elem_of_app in Hx as [Hx|[->|Hx]%elem_of_cons].
      * unfold key_at. rewrite Hfr.
        -- apply (Hplaced i _ x Hi). set_solver.
        -- right. apply key_in_pointers. unfold R. set_solver.
      * unfold key_at; simpl. rewrite Hfr by (by left).
        apply (Hplaced i _ e Hi). set_solver.
      * unfold key_at. rewrite Hfr.
        -- apply (Hplaced i _ x Hi). set_solver.
        -- right. apply key_in_pointers. unfold R. set_solver.
    + intros x Hx. unfold key_at. apply Hfr. right.
      apply key_in_pointers. unfold R. set_solver.
Qed.

(** Unlinking: the entry [e] of bucket [i] leaves its chain and its two
    strings and its node are freed. *)
Lemma delete_preserves d m m' i l1 e l2 :
  store_ok d m → table d !! i = Some (l1 ++ e :: l2) →
  blocks m' = delete (value e) (delete (key e) (blocks m)) →
  used m' = used m - SIZEOF_Entry →
  store_ok (mkDatabase (<[i := l1 ++ l2]> (table d)) (wrap64 (count d - 1))) m'
  ∧ wrap64 (count d - 1) = count d - 1.
Proof.
  intros (Hheap & Hcount & Huniq & Hplaced) Hi Hb Hu.
  pose proof (entries_split _ _ _ _ _ Hi) as Hperm.
  pose proof (heap_ok_bound _ _ Hheap) as Hbound.
  set (R := (l1 ++ l2) ++ mjoin (delete i (table d))) in *.
  assert (entries (mkDatabase (<[i := l1 ++ l2]> (table d)) (wrap64 (count d - 1)))
          ≡ₚ R) as Hperm'.
  { unfold entries; simpl. by rewrite (join_insert _ _ _ _ Hi). }
  pose proof (owns_Permutation _ _ _ Hperm (heap_ok_owns _ _ Hheap)) as Howns.
  apply owns_cons in Howns as (Hkv & HkR & HvR & Hkl & Hvl & HR).
  assert (∀ p, p ∈ pointers R → blocks m' !! p = blocks m !! p) as Hfr.
  { intros p Hp. rewrite Hb, !lookup_delete_ne; [done|by intros <-..]. }
  assert (key_at m' <$> R = key_at m <$> R) as HkeysR by (by apply keys_frame).
  assert (wrap64 (count d - 1) = count d - 1) as Hwrap.
  { unfold wrap64. apply Z.mod_small. rewrite Hcount, Hperm in *. simpl length in *. lia. }
  split; [|done].
  destruct Hheap as (Hlen & _ & _ & Hsize & Hlt).
  rewrite Hperm in Hsize. simpl length in Hsize.
  split; [|split; [|split]].
  - unfold heap_ok. simpl.
    destruct (owns_Permutation R _ m' (symmetry Hperm')) as [Hnd Hl].
    { by eapply owns_frame, HR. }
    rewrite length_insert, Hu. split; [done|]. split; [done|]. split; [done|].
    rewrite Hperm'. unfold SIZEOF_Entry in *. lia.
  - unfold count_ok in *. simpl. rewrite Hwrap, Hcount, Hperm, Hperm'.
    simpl length. lia.
  - unfold keys_unique in *. rewrite Hperm', HkeysR.
    rewrite Hperm, fmap_cons in Huniq. by apply NoDup_cons in Huniq as [_ ?].
  - eapply placed_ok_insert; [done..| |].
    + intros x Hx. rewrite placed_ok_lookup in Hplaced.
      unfold key_at. rewrite Hfr.
      * apply (Hplaced i _ x Hi).
        rewrite elem_of_app, elem_of_cons. apply elem_of_app in Hx. tauto.
      * apply key_in_pointers. unfold R. apply elem_of_app. by left.
    + intros x Hx. unfold key_at. apply Hfr.
      apply key_in_pointers. unfold R. apply elem_of_app. by right.
Qed.

(** In a well-placed store no entry outside bucket [hash_function k] has
    the key [k]. *)
Lemma other_buckets_differ d m k x :
  placed_ok d m →
  x ∈ mjoin (delete (Z.to_nat (hash_function k)) (table d)) →
  key_at m x ≠ Some k.
Proof.
  rewrite placed_ok_lookup. intros Hp (j & c & Hne & Hj & Hx)%elem_of_other_buckets Hk.
  specialize (Hp j c x Hj Hx). rewrite Hk in Hp. simpl in Hp.
  injection Hp as Hp. apply Hne. rewrite Hp. lia.
Qed.

(** Insertion: a new entry owning two fresh blocks becomes the head of
    the bucket its key hashes to, in which no entry has that key. *)
Lemma insert_preserves d m m' c e k v :
  store_ok d m →
  table d !! Z.to_nat (hash_function k) = Some c →
  Forall (differs m k) c →
  blocks m !! key e = None → blocks m !! value e = None → key e ≠ value e →
  blocks m' = <[value e := v]> (<[key e := k]> (blocks m)) →
  used m' = used m + SIZEOF_Entry → used m' < 2 ^ 64 →
  store_ok (mkDatabase (<[Z.to_nat (hash_function k) := e :: c]> (table d))
                       (wrap64 (count d + 1))) m'
  ∧ wrap64 (count d + 1) = count d + 1.
Proof.
  intros (Hheap & Hcount & Huniq & Hplaced) Hi Hc Hke Hve Hkv Hb Hu Hlt'.
  set (i := Z.to_nat (hash_function k)) in *.
  pose proof (heap_ok_bound _ _ Hheap) as Hbound.
  pose proof (heap_ok_owns _ _ Hheap) as Howns.
  assert (entries (mkDatabase (<[i := e :: c]> (table d)) (wrap64 (count d + 1)))
          ≡ₚ e :: entries d) as Hperm'.
  { unfold entries; simpl. rewrite (join_insert _ _ _ _ Hi).
    by rewrite (join_bucket _ _ _ Hi). }
  assert (∀ p, p ∈ pointers (entries d) → blocks m' !! p = blocks m !! p) as Hfr.
  { intros p Hp. apply (owns_live _ _ _ Howns) in Hp as Hpl.
    rewrite Hb, !lookup_insert_ne; [done|intros <-..].
    - rewrite Hke in Hpl. by destruct Hpl.
    - rewrite Hve in Hpl. by destruct Hpl. }
  assert (blocks m' !! key e = Some k) as Hke'
    by (by rewrite Hb, lookup_insert_ne, lookup_insert_eq).
  assert (blocks m' !! value e = Some v) as Hve'
    by (by rewrite Hb, lookup_insert_eq).
  assert (wrap64 (count d + 1) = count d + 1) as Hwrap.
  { unfold wrap64. apply Z.mod_small. rewrite Hcount. lia. }
  split; [|done].
  destruct Hheap as (Hlen & _ & _ & Hsize & Hlt).
  split; [|split; [|split]].
  - unfold heap_ok. simpl.
    destruct (owns_Permutation (e :: entries d) _ m' (symmetry Hperm')) as [Hnd Hl].
    { apply owns_cons. repeat split; try done.
      + intros Hin. apply (owns_live _ _ _ Howns) in Hin. rewrite Hke in Hin.
        by destruct Hin.
      + intros Hin. apply (owns_live _ _ _ Howns) in Hin. rewrite Hve in Hin.
        by destruct Hin.
      + by apply Howns.
      + by eapply owns_frame, Howns. }
    rewrite length_insert, Hu. split; [done|]. split; [done|]. split; [done|].
    rewrite Hperm'. simpl length. unfold SIZEOF_Entry in *. lia.
  - unfold count_ok in *. simpl. rewrite Hwrap, Hcount, Hperm'. simpl length. lia.
  - unfold keys_unique in *. rewrite Hperm', fmap_cons.
    rewrite (keys_frame _ _ _ Hfr). unfold key_at at 1. rewrite Hke'.
    apply NoDup_cons. split; [|done].
    intros (x & Hxk & Hx)%list_elem_of_fmap.
    unfold entries in Hx. rewrite (join_bucket _ _ _ Hi) in Hx.
    apply elem_of_app in Hx as [Hx|Hx].
    + eapply Forall_forall in Hc as (s & Hs & Hne); [|done]. congruence.
    + by eapply other_buckets_differ.
  - assert (∀ x, x ∈ entries d → key_at m' x = key_at m x) as Hfrk
      by (intros x Hx; unfold key_at; by apply Hfr, key_in_pointers).
    eapply placed_ok_insert; [done..| |].
    + intros x [->|Hx]%elem_of_cons.
      * unfold key_at. rewrite Hke'. simpl. f_equal. unfold i.
        pose proof (hash_function_range k). lia.
      * rewrite placed_ok_lookup in Hplaced. rewrite Hfrk.
        -- by apply (Hplaced i _ x Hi).
        -- unfold entries. apply list_elem_of_join. exists c.
           split; [done|]. by eapply list_elem_of_lookup_2.
    + intros x Hx. apply Hfrk. unfold entries.
      rewrite (join_bucket _ _ _ Hi). set_solver.
Qed.

(** *** What the calls do on a well-formed store *)

Lemma db_get_absent d m k c :
  table d !! slot k = Some c → Forall (differs m k) c →
  db_get (Some d) (Some k) m = Some (None, m).
Proof.
  intros Hi Hc. unfold db_get.
  rewrite (bind_Some _ _ _ _ _ (bucket_lookup _ _ _ _ Hi)).
  by apply get_walk_absent.
Qed.

Lemma db_get_present d m k l1 e l2 :
  table d !! slot k = Some (l1 ++ e :: l2) →
  Forall (differs m k) l1 → key_at m e = Some k →
  db_get (Some d) (Some k) m = Some (Some (value e), m).
Proof.
  intros Hi Hl1 He. unfold db_get.
  rewrite (bind_Some _ _ _ _ _ (bucket_lookup _ _ _ _ Hi)).
  by apply get_walk_present.
Qed.

Lemma valid_lengths k v :
  strlen k < MAX_KEY_LENGTH → strlen v < MAX_VALUE_LENGTH →
  (MAX_KEY_LENGTH <=? strlen k) || (MAX_VALUE_LENGTH <=? strlen v) = false.
Proof. intros. apply orb_false_iff. split; apply Z.leb_gt; lia. Qed.

Lemma db_set_outcome d m k v :
  heap_ok d m →
  strlen k < MAX_KEY_LENGTH → strlen v < MAX_VALUE_LENGTH →
  ∃ r d' m', db_set (Some d) (Some k) (Some v) m = Some ((r, Some d'), m')
             ∧ set_outcome d m k v r d' m'.
Proof.
  intros Hheap Hk Hv. unfold db_set. rewrite (valid_lengths _ _ Hk Hv).
  destruct (heap_ok_bucket _ _ k Hheap) as [c Hi].
  rewrite (bind_Some _ _ _ _ _ (bucket_lookup _ _ _ _ Hi)).
  pose proof (heap_ok_owns _ _ Hheap) as Howns.
  destruct (chain_cases m k c (bucket_keys_live _ _ _ _ Hheap Hi))
    as [Hc|(l1 & e & l2 & -> & Hl1 & He)].
  - rewrite (bind_Some _ _ _ _ _ (set_walk_absent _ _ v _ Hc)).
    destruct (create_entry_spec k v m) as ([e|] & m' & E & Hspec);
      rewrite (bind_Some _ _ _ _ _ E).
    + destruct Hspec as (? & ? & ? & ? & ? & ?).
      eexists _, _, _. split; [done|]. by eapply set_inserted.
    + eexists _, _, _. split; [done|]. by apply set_failed.
  - unfold bind at 1. rewrite (set_walk_present _ _ v _ _ _ Hl1 He).
    destruct (strdup_spec v m) as ([nv|] & m1 & E & Hu & Hb); rewrite E.
    + destruct Hb as [Hnv Hb].
      assert (is_Some (blocks m1 !! value e)) as [s Hs].
      { rewrite Hb, lookup_insert_ne.
        - apply (owns_live _ _ _ Howns), value_in_pointers.
          unfold entries. apply list_elem_of_join. eexists. split.
          + apply elem_of_app. right. by left.
          + by eapply list_elem_of_lookup_2.
        - intros ->. assert (is_Some (blocks m !! value e)) as [? Hl]; [|congruence].
          apply (owns_live _ _ _ Howns), value_in_pointers.
          unfold entries. apply list_elem_of_join. eexists. split.
          + apply elem_of_app. right. by left.
          + by eapply list_elem_of_lookup_2. }
      rewrite (free_live _ _ _ Hs).
      eexists _, _, _. split; [done|].
      eapply set_updated; try done. simpl. by rewrite Hb.
    + eexists _, _, _. split; [done|]. apply set_failed. by split.
Qed.

Lemma set_outcome_ok d m k v r d' m' :
  store_ok d m → set_outcome d m k v r d' m' → store_ok d' m'.
Proof.
  intros Hok [m1 Hsame|l1 e l2 nv m1 Hi Hl1 He Hnv Hb Hu
              |c e m1 Hi Hc Hke Hve Hkv Hb Hu Hlt].
  - by eapply store_ok_same_data.
  - by eapply update_preserves.
  - by eapply insert_preserves.
Qed.

Lemma bucket_entry_in d i c e : table d !! i = Some c → e ∈ c → e ∈ entries d.
Proof.
  intros Hi He. unfold entries. apply list_elem_of_join. exists c.
  split; [done|]. by eapply list_elem_of_lookup_2.
Qed.

Lemma slot_lt d m k : heap_ok d m → (slot k < length (table d))%nat.
Proof. intros (-> & _). apply hash_function_index. Qed.

(** After an in-place update, [db_get(db, k)] returns the new value
    pointer. *)
Lemma get_after_update d m m' k v l1 e l2 nv n :
  heap_ok d m →
  table d !! slot k = Some (l1 ++ e :: l2) →
  Forall (differs m k) l1 → key_at m e = Some k →
  blocks m !! nv = None →
  blocks m' = delete (value e) (<[nv := v]> (blocks m)) →
  db_get (Some (mkDatabase (<[slot k := l1 ++ mkEntry (key e) nv :: l2]> (table d)) n))
         (Some k) m' = Some (Some nv, m')
  ∧ blocks m' !! nv = Some v
  ∧ key_at m' (mkEntry (key e) nv) = Some k.
Proof.
  intros Hheap Hi Hl1 He Hnv Hb. pose proof (slot_lt _ _ k Hheap) as Hlt.
  pose proof (heap_ok_owns _ _ Hheap) as Howns.
  pose proof (owns_Permutation _ _ _ (entries_split _ _ _ _ _ Hi) Howns) as Ho.
  apply owns_cons in Ho as (Hkv & HkR & HvR & Hkl & Hvl & HR).
  assert (value e ≠ nv) as Hne
    by (intros <-; rewrite Hnv in Hvl; by destruct Hvl).
  assert (∀ x, x = e ∨ x ∈ l1 → key_at m' x = key_at m x) as Hfr.
  { intros x Hx. unfold key_at. rewrite Hb.
    assert (is_Some (blocks m !! key x) ∧ key x ≠ value e) as [Hl Hd].
    { destruct Hx as [->|Hx]; [done|]. split.
      - apply (owns_live _ _ _ HR), key_in_pointers.
        rewrite !elem_of_app. tauto.
      - intros Heq. apply HvR. rewrite <- Heq. apply key_in_pointers.
        rewrite !elem_of_app. tauto. }
    rewrite lookup_delete_ne, lookup_insert_ne; [done| |done].
    intros Heq. rewrite <- Heq, Hnv in Hl. by destruct Hl. }
  assert (key_at m' (mkEntry (key e) nv) = Some k) as He'
    by (rewrite <- He; apply (Hfr e); by left).
  split; [|split; [|done]].
  - apply (db_get_present _ _ _ l1 (mkEntry (key e) nv) l2); simpl; [|  |done].
    + by apply list_lookup_insert_eq.
    + apply Forall_forall. intros x Hx.
      eapply Forall_forall in Hl1 as (s & Hs & Hne'); [|done].
      exists s. split; [|done]. rewrite Hfr; [done|by right].
  - by rewrite Hb, lookup_delete_ne, lookup_insert_eq.
Qed.

(** After a successful [db_set(db, k, v)], [db_get(db, k)] returns a
    pointer to a block holding [v]. *)
Lemma get_after_set d m k v d' m' :
  heap_ok d m → set_outcome d m k v true d' m' →
  ∃ p, db_get (Some d') (Some k) m' = Some (Some p, m')
       ∧ blocks m' !! p = Some v.
Proof.
  intros Hheap Hout. pose proof (slot_lt _ _ k Hheap) as Hlt.
  inversion Hout as [|l1 e l2 nv m1 Hi Hl1 He Hnv Hb Hu
                     |c e m1 Hi Hc Hke Hve Hkv Hb Hu Hlt']; subst.
  - exists nv.
    by destruct (get_after_update _ _ _ _ v _ _ _ _ (count d) Hheap Hi Hl1 He Hnv Hb)
      as (? & ? & ?).
  - exists (value e). split.
    + apply (db_get_present _ _ _ [] e c); simpl.
      * by apply list_lookup_insert_eq.
      * constructor.
      * unfold key_at. by rewrite Hb, lookup_insert_ne, lookup_insert_eq.
    + by rewrite Hb, lookup_insert_eq.
Qed.

Lemma db_exists_get db k m :
  db_exists db k m
  = match db_get db k m with
    | Some (r, m') => Some (match r with Some _ => true | None => false end, m')
    | None => None
    end.
Proof. unfold db_exists, bind, ret. by destruct (db_get db k m) as [[? ?]|]. Qed.

Lemma db_delete_outcome d m k :
  heap_ok d m →
  ∃ r d' m', db_delete (Some d) (Some k) m = Some ((r, Some d'), m')
             ∧ delete_outcome d m k r d' m'.
Proof.
  intros Hheap. unfold db_delete.
  destruct (heap_ok_bucket _ _ k Hheap) as [c Hi].
  rewrite (bind_Some _ _ _ _ _ (bucket_lookup _ _ _ _ Hi)).
  pose proof (heap_ok_owns _ _ Hheap) as Howns.
  destruct (chain_cases m k c (bucket_keys_live _ _ _ _ Hheap Hi))
    as [Hc|(l1 & e & l2 & -> & Hl1 & He)].
  - rewrite (bind_Some _ _ _ _ _ (delete_walk_absent _ _ _ Hc)).
    eexists _, _, _. split; [done|]. by eapply delete_absent.
  - pose proof (owns_Permutation _ _ _ (entries_split _ _ _ _ _ Hi) Howns) as Ho.
    apply owns_cons in Ho as (Hkv & HkR & HvR & Hkl & Hvl & HR).
    rewrite (bind_Some _ _ _ _ _ (delete_walk_present _ _ _ _ _ Hl1 He Hvl Hkv)).
    eexists _, _, _. split; [done|]. by eapply delete_unlinked.
Qed.

Lemma delete_outcome_ok d m k r d' m' :
  store_ok d m → delete_outcome d m k r d' m' → store_ok d' m'.
Proof.
  intros Hok [c Hi Hc|l1 e l2 Hi Hl1 He]; [done|].
  by eapply delete_preserves.
Qed.

(** The outcome of [db_delete] agrees with what [db_exists] answered. *)
Lemma delete_outcome_exists d m k r d' m' :
  delete_outcome d m k r d' m' → db_exists (Some d) (Some k) m = Some (r, m).
Proof.
  intros [c Hi Hc|l1 e l2 Hi Hl1 He]; rewrite db_exists_get.
  - by rewrite (db_get_absent _ _ _ _ Hi Hc).
  - by rewrite (db_get_present _ _ _ _ _ _ Hi Hl1 He).
Qed.

(** *** Failing calls *)

(** A walk of [db_set] that does not update leaves the memory as it is. *)
Lemma set_walk_no_update k v c m r m' :
  set_walk k v c m = Some (r, m') →
  match r with
  | Updated _ => True
  | NotFound | UpdateFailed => same_data m m'
  end.
Proof.
  revert r m'. induction c as [|e next IH]; intros r m'; simpl.
  - by intros [= <- <-].
  - intros (ek & m1 & [_ ->]%load_inv & Hrest)%bind_inv.
    destruct (streq ek k).
    + apply bind_inv in Hrest as (nv & m2 & Hdup & Hrest).
      destruct (strdup_spec v m) as (nv' & m2' & E & Hu & Hb).
      rewrite E in Hdup. injection Hdup as -> ->.
      destruct nv as [nv|].
      * apply bind_inv in Hrest as (? & ? & _ & [= <- _]). done.
      * injection Hrest as <- <-. by split.
    + apply bind_inv in Hrest as (r0 & m2 & Hwalk & [= <- <-]).
      specialize (IH _ _ Hwalk). by destruct r0.
Qed.

Lemma db_set_rejects d m k v :
  MAX_KEY_LENGTH ≤ strlen k ∨ MAX_VALUE_LENGTH ≤ strlen v →
  db_set (Some d) (Some k) (Some v) m = Some ((false, Some d), m).
Proof.
  intros Hlen. unfold db_set.
  assert ((MAX_KEY_LENGTH <=? strlen k) || (MAX_VALUE_LENGTH <=? strlen v) = true)
    as -> by (apply orb_true_iff; rewrite !Z.leb_le; done).
  done.
Qed.

Lemma db_set_true_lengths db k v m db' m' :
  db_set db (Some k) (Some v) m = Some ((true, db'), m') →
  strlen k < MAX_KEY_LENGTH ∧ strlen v < MAX_VALUE_LENGTH.
Proof.
  destruct db as [d|]; [|done]. intros Hset.
  destruct (decide (MAX_KEY_LENGTH ≤ strlen k ∨ MAX_VALUE_LENGTH ≤ strlen v))
    as [Hlen|Hlen]; [|lia].
  by rewrite (db_set_rejects _ _ _ _ Hlen) in Hset.
Qed.

(** C1, amended: a key longer than [MAX_KEY_LENGTH] (256 bytes) or a
    value longer than [MAX_VALUE_LENGTH] (4096 bytes) makes [db_set]
    return false and leaves the store and the memory untouched. (The
    empty key is not among the rejected arguments; [db_set_rejects] shows
    that a length equal to the maximum is already refused.) *)
Theorem db_set_rejects_long_arguments d m k v :
  MAX_KEY_LENGTH < strlen k ∨ MAX_VALUE_LENGTH < strlen v →
  db_set (Some d) (Some k) (Some v) m = Some ((false, Some d), m).
Proof.
  intros Hlen. unfold db_set.
  assert ((MAX_KEY_LENGTH <=? strlen k) || (MAX_VALUE_LENGTH <=? strlen v) = true)
    as Htest.
  { apply orb_true_iff. destruct Hlen as [Hk|Hv].
    - left. apply Z.leb_le. lia.
    - right. apply Z.leb_le. lia. }
  rewrite Htest. reflexivity.
Qed.

(** C6: whenever [db_set] returns false, for whatever reason (NULL or
    over-long arguments, a failed [strdup] while replacing a value, a
    failed allocation while creating an entry), the database is the one
    passed in and the string blocks and the memory in use are as before
    the call. *)
Theorem db_set_failure_atomic db k v m db' m' :
  db_set db k v m = Some ((false, db'), m') →
  db' = db ∧ blocks m' = blocks m ∧ used m' = used m.
Proof.
  unfold db_set. destruct db as [d|], k as [k|], v as [v|];
    try (by intros [= <- <-]).
  destruct ((MAX_KEY_LENGTH <=? strlen k) || (MAX_VALUE_LENGTH <=? strlen v));
    [by intros [= <- <-]|].
  intros (c & m1 & Hbucket & Hrest)%bind_inv.
  assert (m1 = m) as ->
    by (unfold bucket in Hbucket; destruct (table d !! _); by inversion Hbucket).
  apply bind_inv in Hrest as (r & m2 & Hwalk & Hrest).
  apply set_walk_no_update in Hwalk. destruct r as [| |c'].
  - apply bind_inv in Hrest as (ne & m3 & Hcreate & Hrest).
    destruct (create_entry_spec k v m2) as (ne' & m3' & E & Hspec).
    rewrite E in Hcreate. injection Hcreate as -> ->.
    destruct ne as [e|]; [by inversion Hrest|].
    injection Hrest as <- <-. destruct Hwalk as [Hb1 Hu1], Hspec as [Hb2 Hu2].
    split; [done|]. split; congruence.
  - injection Hrest as <- <-. by destruct Hwalk as [Hb1 Hu1].
  - by inversion Hrest.
Qed.

(** *** Successful calls *)

(** C2: on a well-formed store, when [db_set(db, k, v)] succeeds (which
    it only does for [k] and [v] within the length bounds), the
    [db_get(db, k)] that follows returns a pointer to the characters of
    [v], and reads without changing anything. *)
Theorem set_then_get d m k v db' m' :
  store_ok d m →
  db_set (Some d) (Some k) (Some v) m = Some ((true, db'), m') →
  strlen k < MAX_KEY_LENGTH ∧ strlen v < MAX_VALUE_LENGTH
  ∧ ∃ d' p, db' = Some d'
            ∧ db_get (Some d') (Some k) m' = Some (Some p, m')
            ∧ blocks m' !! p = Some v.
Proof.
  intros [Hheap _] Hset.
  destruct (db_set_true_lengths _ _ _ _ _ _ Hset) as [Hk Hv].
  split; [done|]. split; [done|].
  destruct (db_set_outcome _ _ _ _ Hheap Hk Hv) as (r & d' & m1 & E & Hout).
  rewrite E in Hset. injection Hset as -> <- ->.
  destruct (get_after_set _ _ _ _ _ _ Hheap Hout) as (p & Hget & Hp).
  by exists d', p.
Qed.

(** C3: on a well-formed store that holds the key [k], a successful
    [db_set(db, k, v2)] replaces the value in place: [db_get(db, k)] then
    returns [v2], [db_count] is unchanged, and the table is the old one
    except that the first entry with key [k], at its old position in its
    chain and with its old key string, has a new value pointer. *)
Theorem set_existing_updates_in_place d m k v2 db' m' :
  store_ok d m →
  db_exists (Some d) (Some k) m = Some (true, m) →
  db_set (Some d) (Some k) (Some v2) m = Some ((true, db'), m') →
  ∃ d' l1 e l2 nv,
    db' = Some d'
    ∧ db_get (Some d') (Some k) m' = Some (Some nv, m')
    ∧ blocks m' !! nv = Some v2
    ∧ db_count (Some d') = db_count (Some d)
    ∧ table d !! slot k = Some (l1 ++ e :: l2)
    ∧ Forall (differs m k) l1 ∧ key_at m e = Some k
    ∧ table d' = <[slot k := l1 ++ mkEntry (key e) nv :: l2]> (table d)
    ∧ key_at m' (mkEntry (key e) nv) = Some k
    ∧ (λ c : list Entry, key <$> c) <$> table d'
      = (λ c : list Entry, key <$> c) <$> table d.
Proof.
  intros [Hheap _] Hex Hset.
  destruct (db_set_true_lengths _ _ _ _ _ _ Hset) as [Hk Hv].
  destruct (db_set_outcome _ _ _ _ Hheap Hk Hv) as (r & d' & m1 & E & Hout).
  rewrite E in Hset. injection Hset as -> <- ->.
  inversion Hout as [|l1 e l2 nv m2 Hi Hl1 He Hnv Hb Hu
                     |c e m2 Hi Hc Hke Hve Hkv Hb Hu Hlt']; subst.
  - destruct (get_after_update _ _ _ _ v2 _ _ _ _ (count d) Hheap Hi Hl1 He Hnv Hb)
      as (Hget & Hnv' & He').
    eexists _, l1, e, l2, nv. repeat (split; [done|]). simpl.
    rewrite list_fmap_insert. apply list_insert_id.
    rewrite list_lookup_fmap, Hi. simpl. by rewrite !fmap_app.
  - rewrite db_exists_get, (db_get_absent _ _ _ _ Hi Hc) in Hex. done.
Qed.

(** C4: on a well-formed store [db_delete(db, k)] returns what
    [db_exists(db, k)] answers. When the key is present it returns true,
    the first entry with key [k] is unlinked from its chain (the chain
    [l1 ++ e :: l2] becomes [l1 ++ l2]: the bucket head changes when
    [l1] is empty, the successor of the last entry of [l1] otherwise) and
    [db_count] drops by exactly one; when it is absent it returns false
    and the store and the memory are unchanged. *)
Theorem db_delete_unlinks d m k :
  store_ok d m →
  ∃ r d' m',
    db_delete (Some d) (Some k) m = Some ((r, Some d'), m')
    ∧ db_exists (Some d) (Some k) m = Some (r, m)
    ∧ (r = true →
       db_count (Some d') = db_count (Some d) - 1
       ∧ ∃ l1 e l2,
           table d !! slot k = Some (l1 ++ e :: l2)
           ∧ Forall (differs m k) l1 ∧ key_at m e = Some k
           ∧ table d' = <[slot k := l1 ++ l2]> (table d))
    ∧ (r = false → d' = d ∧ m' = m).
Proof.
  intros Hok. pose proof Hok as [Hheap _].
  destruct (db_delete_outcome _ _ k Hheap) as (r & d' & m' & E & Hout).
  exists r, d', m'. split; [done|].
  split; [by eapply delete_outcome_exists|].
  destruct Hout as [c Hi Hc|l1 e l2 Hi Hl1 He].
  - split; [done|]. done.
  - split; [|done]. intros _. simpl.
    destruct (delete_preserves d m
                (mkMem (delete (value e) (delete (key e) (blocks m)))
                       (used m - SIZEOF_Entry) (future m))
                _ _ _ _ Hok Hi eq_refl eq_refl) as [_ Hwrap].
    split; [done|]. by exists l1, e, l2.
Qed.

(** *** Clearing *)

Lemma free_chain_owned c rest m :
  owns (c ++ rest) m →
  ∃ m', free_chain c m = Some (tt, m')
        ∧ owns rest m'
        ∧ used m' = used m - SIZEOF_Entry * Z.of_nat (length c).
Proof.
  revert m. induction c as [|e c IH]; intros m Ho; simpl.
  - exists m. split; [done|]. split; [done|]. lia.
  - apply owns_cons in Ho as (Hkv & HkR & HvR & Hkl & Hvl & HR).
    rewrite (bind_Some _ _ _ _ _ (free_entry_live _ _ Hkl Hvl Hkv)).
    destruct (IH (mkMem (delete (value e) (delete (key e) (blocks m)))
                        (used m - SIZEOF_Entry) (future m)))
      as (m' & E & Ho' & Hu').
    { eapply owns_frame, HR. intros p Hp. simpl.
      rewrite !lookup_delete_ne; [done|by intros <-..]. }
    exists m'. split; [done|]. split; [done|]. rewrite Hu'. simpl. lia.
Qed.

Lemma clear_buckets_owned t m :
  owns (mjoin t) m →
  ∃ m', clear_buckets t m = Some (replicate (length t) [], m')
        ∧ used m' = used m - SIZEOF_Entry * Z.of_nat (length (mjoin t)).
Proof.
  revert m. induction t as [|c t IH]; intros m Ho; simpl.
  - exists m. split; [done|]. lia.
  - destruct (free_chain_owned _ _ _ Ho) as (m1 & E1 & Ho1 & Hu1).
    rewrite (bind_Some _ _ _ _ _ E1).
    destruct (IH _ Ho1) as (m2 & E2 & Hu2).
    rewrite (bind_Some _ _ _ _ _ E2).
    exists m2. split; [done|]. rewrite Hu2, Hu1, length_app. lia.
Qed.

Lemma join_replicate_nil {A} n : mjoin (replicate n (@nil A)) = [].
Proof. induction n; [done|]. simpl. done. Qed.

Lemma blank_store_ok n m :
  n = Z.to_nat HASH_TABLE_SIZE →
  SIZEOF_Database ≤ used m → used m < 2 ^ 64 →
  store_ok (mkDatabase (replicate n []) 0) m.
Proof.
  intros Hn Hs Hlt.
  unfold store_ok, heap_ok, count_ok, keys_unique, placed_ok, entries.
  cbn [table count]. rewrite join_replicate_nil, length_replicate.
  cbn [pointers mbind list_bind fmap list_fmap length].
  split; [split; [done|]|split; [done|]].
  - split; [constructor|]. split; [constructor|]. split; [lia|done].
  - split; [constructor|].
    apply Forall_forall.
    intros [i c] (j & c' & [= -> ->] & Hj)%elem_of_lookup_imap_1.
    apply lookup_replicate in Hj as [-> _]. constructor.
Qed.

Lemma db_clear_ok d m :
  store_ok d m →
  ∃ m', db_clear (Some d) m
        = Some (Some (mkDatabase (replicate (length (table d)) []) 0), m')
        ∧ store_ok (mkDatabase (replicate (length (table d)) []) 0) m'.
Proof.
  intros [Hheap _]. pose proof (heap_ok_owns _ _ Hheap) as Howns.
  destruct (clear_buckets_owned _ _ Howns) as (m' & E & Hu).
  exists m'. unfold db_clear. rewrite (bind_Some _ _ _ _ _ E).
  split; [done|].
  destruct Hheap as (Hlen & _ & _ & Hsize & Hlt).
  apply blank_store_ok; [done| |]; unfold SIZEOF_Entry, entries in *; lia.
Qed.

(** *** Reading *)

Lemma db_get_total d m k :
  heap_ok d m → ∃ r, db_get (Some d) (Some k) m = Some (r, m).
Proof.
  intros Hheap. destruct (heap_ok_bucket _ _ k Hheap) as [c Hi].
  destruct (chain_cases m k c (bucket_keys_live _ _ _ _ Hheap Hi))
    as [Hc|(l1 & e & l2 & -> & Hl1 & He)].
  - exists None. by eapply db_get_absent.
  - exists (Some (value e)). by eapply db_get_present.
Qed.

(** Filling the array: [done] is the part written so far, followed by [r]
    slots not yet written. *)
Lemma keys_chain_fill c done r :
  (length c ≤ r)%nat → Z.of_nat (length done + r) < 2 ^ 64 →
  keys_chain c (done ++ replicate r None) (Z.of_nat (length done))
  = Some ((done ++ (Some <$> (key <$> c))) ++ replicate (r - length c) None,
          Z.of_nat (length done + length c)).
Proof.
  revert done r. induction c as [|e c IH]; intros done r Hr Hbound; simpl.
  - by rewrite app_nil_r, Nat.sub_0_r, Nat.add_0_r.
  - destruct r as [|r]; [simpl in Hr; lia|]. simpl in Hr.
    rewrite Nat2Z.id, bool_decide_eq_true_2
      by (rewrite length_app, length_replicate; lia).
    rewrite insert_app_r_alt, Nat.sub_diag by done. simpl.
    replace (wrap64 (Z.of_nat (length done) + 1))
      with (Z.of_nat (length (done ++ [Some (key e)]))).
    2:{ rewrite length_app. simpl. unfold wrap64. rewrite Z.mod_small; lia. }
    rewrite (cons_middle (Some (key e)) done), app_assoc.
    rewrite IH by (rewrite ?length_app; simpl; lia).
    rewrite length_app. simpl. rewrite <- !app_assoc. simpl.
    do 2 f_equal. lia.
Qed.

Lemma keys_buckets_fill t done r :
  (length (mjoin t) ≤ r)%nat → Z.of_nat (length done + r) < 2 ^ 64 →
  keys_buckets t (done ++ replicate r None) (Z.of_nat (length done))
  = Some ((done ++ (Some <$> (key <$> mjoin t)))
            ++ replicate (r - length (mjoin t)) None,
          Z.of_nat (length done + length (mjoin t))).
Proof.
  revert done r. induction t as [|c t IH]; intros done r Hr Hbound; simpl.
  - by rewrite app_nil_r, Nat.sub_0_r, Nat.add_0_r.
  - simpl in Hr. rewrite length_app in Hr.
    rewrite keys_chain_fill by lia.
    replace (length done + length c)%nat
      with (length (done ++ (Some <$> (key <$> c))))
      by (by rewrite length_app, !length_fmap).
    rewrite IH by (rewrite ?length_app, ?length_fmap; lia).
    rewrite !length_app, !length_fmap, !fmap_app, <- !app_assoc.
    by rewrite Nat.sub_add_distr, Nat.add_assoc.
Qed.

(** [db_keys] on a well-formed store: NULL for an empty store or when the
    array cannot be allocated, else the key pointers of the entries in
    bucket-then-chain order; [*count] is the number of entries and no
    string block is touched. *)
Lemma db_keys_spec d m c0 :
  store_ok d m →
  ∃ r m', db_keys (Some d) (Some c0) m = Some ((r, Some (count d)), m')
          ∧ blocks m' = blocks m
          ∧ used m ≤ used m' < 2 ^ 64
          ∧ (r = None ∨ (count d ≠ 0 ∧ r = Some (Some <$> key_pointers d))).
Proof.
  intros (Hheap & Hcount & _). pose proof (heap_ok_bound _ _ Hheap) as Hbound.
  destruct Hheap as (Hlen & _ & _ & Hsize & Hlt).
  unfold db_keys. destruct (count d =? 0) eqn:Ezero.
  { exists None, m. repeat split; try done; try lia. by left. }
  apply Z.eqb_neq in Ezero.
  assert (wrap64 (SIZEOF_ptr * count d) = 8 * count d) as Hsz.
  { unfold wrap64, SIZEOF_ptr. apply Z.mod_small.
    unfold SIZEOF_Database, SIZEOF_Entry, HASH_TABLE_SIZE, count_ok in *. lia. }
  rewrite Hsz.
  destruct (malloc_spec (8 * count d) m) as ([|] & m' & E & Hb & Hu);
    rewrite (bind_Some _ _ _ _ _ E); simpl.
  - replace (Z.to_nat (8 * count d / SIZEOF_ptr)) with (length (entries d)).
    2:{ unfold SIZEOF_ptr. rewrite Z.mul_comm, Z.div_mul by done.
        unfold count_ok in Hcount. lia. }
    pose proof (keys_buckets_fill (table d) [] (length (entries d))) as Hfill.
    simpl in Hfill. change (Z.of_nat 0) with 0 in Hfill.
    unfold entries in *. rewrite Hfill by lia.
    rewrite Nat.sub_diag. simpl. rewrite app_nil_r.
    eexists _, _. split; [done|]. split; [done|].
    unfold count_ok in Hcount. split; [lia|]. right. done.
  - exists None, m'. split; [done|]. split; [done|]. split; [lia|]. by left.
Qed.

(** *** Statistics *)

Lemma stats_chain_spec c len coll :
  0 ≤ len → 0 ≤ coll →
  len + Z.of_nat (length c) < 2 ^ 64 → coll + Z.of_nat (length c) < 2 ^ 64 →
  stats_chain c len coll
  = (len + Z.of_nat (length c), coll + chain_collisions c).
Proof.
  unfold chain_collisions.
  revert len coll. induction c as [|x next IH]; intros len coll ? ? Hl Hc.
  - simpl. f_equal; lia.
  - cbn [stats_chain]. cbn [length] in *.
    assert (wrap64 (len + 1) = len + 1) as ->
      by (unfold wrap64; apply Z.mod_small; lia).
    destruct next as [|y next].
    + simpl. f_equal; lia.
    + assert (wrap64 (coll + 1) = coll + 1) as ->
        by (unfold wrap64; apply Z.mod_small; cbn [length] in *; lia).
      rewrite IH by (cbn [length] in *; lia).
      cbn [length]. f_equal; lia.
Qed.

Lemma stats_bucket_spec s c :
  0 ≤ total_collisions s → 0 ≤ max_chain_length s → 0 ≤ used_buckets s →
  total_collisions s + Z.of_nat (length c) < 2 ^ 64 →
  used_buckets s + 1 < 2 ^ 64 →
  stats_bucket s c
  = mkDBStats (total_entries s)
      (total_collisions s + chain_collisions c)
      (Z.max (max_chain_length s) (Z.of_nat (length c)))
      (used_buckets s + (if decide (0 < length c)%nat then 1 else 0)).
Proof.
  intros Hc Hm Hu Hbc Hbu. unfold stats_bucket.
  destruct c as [|x c'].
  - destruct s; unfold chain_collisions; simpl in *. f_equal; lia.
  - rewrite stats_chain_spec by lia. rewrite Z.add_0_l.
    assert (wrap64 (used_buckets s + 1) = used_buckets s + 1) as ->
      by (unfold wrap64; apply Z.mod_small; lia).
    rewrite decide_True by (simpl; lia). f_equal.
    destruct (max_chain_length s <? Z.of_nat (length (x :: c'))) eqn:E.
    + apply Z.ltb_lt in E. lia.
    + apply Z.ltb_ge in E. lia.
Qed.

Lemma chain_collisions_bounds c :
  0 ≤ chain_collisions c ≤ Z.of_nat (length c).
Proof. unfold chain_collisions. lia. Qed.

Lemma stats_fold_spec t s :
  0 ≤ total_collisions s → 0 ≤ max_chain_length s → 0 ≤ used_buckets s →
  total_collisions s + Z.of_nat (length (mjoin t)) < 2 ^ 64 →
  used_buckets s + Z.of_nat (length t) < 2 ^ 64 →
  fold_left stats_bucket t s
  = mkDBStats (total_entries s)
      (total_collisions s + sum_list_Z (chain_collisions <$> t))
      (Z.max (max_chain_length s)
             (max_list_Z ((λ c : list Entry, Z.of_nat (length c)) <$> t)))
      (used_buckets s
       + Z.of_nat (length (filter (λ c : list Entry, (0 < length c)%nat) t))).
Proof.
  revert s. induction t as [|c t IH]; intros s Hc Hm Hu Hbc Hbu.
  - destruct s; simpl in *. f_equal; lia.
  - cbn [fold_left]. cbn [length] in Hbu.
    change (mjoin (c :: t)) with (c ++ mjoin t) in Hbc.
    rewrite length_app in Hbc.
    pose proof (chain_collisions_bounds c) as Hcc.
    rewrite stats_bucket_spec by lia.
    rewrite IH; cbn [total_entries total_collisions max_chain_length used_buckets];
      [|destruct (decide (0 < length c)%nat); lia..].
    rewrite filter_cons. cbn [fmap list_fmap sum_list_Z max_list_Z foldr].
    unfold sum_list_Z, max_list_Z.
    destruct (decide (0 < length c)%nat); cbn [length]; f_equal; lia.
Qed.

Lemma length_join_chains (t : list (list Entry)) :
  Z.of_nat (length (mjoin t))
  = sum_list_Z ((λ c : list Entry, Z.of_nat (length c)) <$> t).
Proof.
  induction t as [|c t IH]; [done|].
  change (mjoin (c :: t)) with (c ++ mjoin t).
  rewrite fmap_cons, length_app, Nat2Z.inj_add, IH. done.
Qed.

Lemma max_list_Z_nil (t : list (list Entry)) :
  mjoin t = [] →
  max_list_Z ((λ c : list Entry, Z.of_nat (length c)) <$> t) = 0.
Proof.
  intros Hnil%join_nil_1. induction Hnil as [|c t -> _ IH]; [done|].
  rewrite fmap_cons. unfold max_list_Z in *. simpl. rewrite IH. done.
Qed.

(** C9: on a well-formed store [db_stats] reports [total_entries] equal
    to [db_count] and to the sum of the chain lengths, [used_buckets]
    equal to the number of non-empty chains, [total_collisions] equal to
    the sum over the buckets of [max (chain_length - 1) 0], and
    [max_chain_length] equal to the longest chain's length (0 when the
    table holds no entry); the call leaves the store and the memory as
    they are. *)
Theorem db_stats_consistent d m :
  store_ok d m →
  total_entries (db_stats (Some d)) = db_count (Some d)
  ∧ total_entries (db_stats (Some d)) = sum_list_Z (chain_lengths d)
  ∧ used_buckets (db_stats (Some d)) = Z.of_nat (length (nonempty_buckets d))
  ∧ total_collisions (db_stats (Some d))
    = sum_list_Z (chain_collisions <$> table d)
  ∧ max_chain_length (db_stats (Some d)) = max_list_Z (chain_lengths d)
  ∧ (entries d = [] → max_chain_length (db_stats (Some d)) = 0)
  ∧ step OpStats d m = Some (Some d, m).
Proof.
  intros (Hheap & Hcount & _). pose proof (heap_ok_bound _ _ Hheap) as Hbound.
  destruct Hheap as (Hlen & _).
  unfold db_stats, db_count, chain_lengths, nonempty_buckets, entries in *.
  rewrite stats_fold_spec; simpl; try lia;
    [|rewrite Hlen; unfold HASH_TABLE_SIZE; lia].
  rewrite Z.max_r.
  2:{ generalize (table d). intros t. unfold max_list_Z.
      induction t; simpl; lia. }
  repeat split; try done.
  - by rewrite <- length_join_chains.
  - intros Hnil. by apply max_list_Z_nil.
Qed.

Lemma store_ok_grow d m m' :
  blocks m' = blocks m → used m ≤ used m' < 2 ^ 64 →
  store_ok d m → store_ok d m'.
Proof.
  intros Hb Hu ((Hlen & Hnd & Hl & Hs & Hlt) & Hc & Hk & Hp).
  unfold store_ok, heap_ok, keys_unique, placed_ok, key_at in *.
  rewrite Hb. repeat split; try done; lia.
Qed.

(** [db_create] returns NULL or a well-formed empty store. *)
Lemma db_create_ok m :
  0 ≤ used m →
  ∃ r m', db_create m = Some (r, m')
          ∧ blocks m' = blocks m
          ∧ match r with
            | None => True
            | Some d => d = mkDatabase empty_table 0 ∧ store_ok d m'
            end.
Proof.
  intros Hu. unfold db_create.
  destruct (malloc_spec SIZEOF_Database m) as ([|] & m' & E & Hb & Hu');
    rewrite (bind_Some _ _ _ _ _ E); simpl.
  - eexists (Some _), m'. split; [done|]. split; [done|]. split; [done|].
    destruct Hu' as [Hu' Hlt]. apply blank_store_ok; [done|lia|done].
  - by exists None, m'.
Qed.

(** C5: every call on a well-formed store ([db_set], [db_delete],
    [db_clear] and the reading calls [db_get], [db_exists], [db_count],
    [db_keys], [db_stats]) completes and leaves a well-formed store:
    [count] equals the number of entries reachable from the buckets, no
    key occurs in two entries, and every entry is in the bucket its key
    hashes to (and every entry still owns its two live strings). The same
    then holds after any sequence of calls. *)
Theorem operations_preserve_invariants d m :
  store_ok d m →
  (∀ o, ∃ d' m', step o d m = Some (Some d', m')
                 ∧ heap_ok d' m' ∧ count_ok d' ∧ keys_unique d' m' ∧ placed_ok d' m')
  ∧ (∀ os, ∃ d' m', run os d m = Some (Some d', m')
                    ∧ heap_ok d' m' ∧ count_ok d' ∧ keys_unique d' m'
                    ∧ placed_ok d' m').
Proof.
  assert (∀ o d m, store_ok d m →
            ∃ d' m', step o d m = Some (Some d', m') ∧ store_ok d' m') as Hstep.
  { clear d m. intros o d m.
      intros Hok. pose proof Hok as [Hheap _].
      destruct o as [k v|k|k|k| | | |]; unfold step.
      - destruct (decide (MAX_KEY_LENGTH ≤ strlen k ∨ MAX_VALUE_LENGTH ≤ strlen v))
          as [Hlen|Hlen].
        + rewrite (bind_Some _ _ _ _ _ (db_set_rejects d m _ _ Hlen)). by exists d, m.
        + destruct (db_set_outcome _ _ k v Hheap) as (r & d' & m' & E & Hout); [lia..|].
          rewrite (bind_Some _ _ _ _ _ E). exists d', m'. split; [done|].
          by eapply set_outcome_ok.
      - destruct (db_get_total _ _ k Hheap) as [r E].
        rewrite (bind_Some _ _ _ _ _ E). by exists d, m.
      - destruct (db_delete_outcome _ _ k Hheap) as (r & d' & m' & E & Hout).
        rewrite (bind_Some _ _ _ _ _ E). exists d', m'. split; [done|].
        by eapply delete_outcome_ok.
      - destruct (db_get_total _ _ k Hheap) as [r E].
        assert (db_exists (Some d) (Some k) m
                = Some (match r with Some _ => true | None => false end, m)) as E'
          by (by rewrite db_exists_get, E).
        rewrite (bind_Some _ _ _ _ _ E'). by exists d, m.
      - by exists d, m.
      - destruct (db_clear_ok _ _ Hok) as (m' & E & Hok'). rewrite E. eauto.
      - destruct (db_keys_spec _ _ 0 Hok) as (r & m' & E & Hb & Hu & _).
        rewrite (bind_Some _ _ _ _ _ E). exists d, m'. split; [done|].
        by eapply store_ok_grow.
      - by exists d, m.
  }
  intros Hok. split; [intros o; by apply Hstep|].
  intros os. revert d m Hok. induction os as [|o os IH]; intros d m Hok; simpl.
  - by exists d, m.
  - destruct (Hstep o _ _ Hok) as (d1 & m1 & E & Hok1).
    rewrite (bind_Some _ _ _ _ _ E). by apply IH.
Qed.

(** When [db_keys] returns the array: the store is not empty and the
    allocator grants the array. *)
Lemma db_keys_result d m c0 :
  store_ok d m →
  ∃ m', db_keys (Some d) (Some c0) m
        = Some ((if decide (count d ≠ 0 ∧ grants_block m (SIZEOF_ptr * count d))
                 then Some (Some <$> key_pointers d) else None,
                 Some (count d)), m')
        ∧ blocks m' = blocks m ∧ used m ≤ used m' < 2 ^ 64.
Proof.
  intros (Hheap & Hcount & _). pose proof (heap_ok_bound _ _ Hheap) as Hbound.
  destruct Hheap as (Hlen & _ & _ & Hsize & Hlt).
  unfold db_keys. destruct (count d =? 0) eqn:Ezero.
  { apply Z.eqb_eq in Ezero. rewrite decide_False by tauto.
    exists m. repeat split; try done; lia. }
  apply Z.eqb_neq in Ezero.
  assert (wrap64 (SIZEOF_ptr * count d) = SIZEOF_ptr * count d) as Hsz.
  { unfold wrap64, SIZEOF_ptr. apply Z.mod_small.
    unfold SIZEOF_Database, SIZEOF_Entry, HASH_TABLE_SIZE, count_ok in *. lia. }
  rewrite Hsz.
  destruct (decide (grants_block m (SIZEOF_ptr * count d))) as [Hg|Hg].
  - rewrite decide_True by done.
    destruct (malloc_granted _ _ Hg) as (m' & E & Hb & Hu).
    rewrite (bind_Some _ _ _ _ _ E). simpl.
    replace (Z.to_nat (SIZEOF_ptr * count d / SIZEOF_ptr))
      with (length (entries d)).
    2:{ unfold SIZEOF_ptr. rewrite Z.mul_comm, Z.div_mul by done.
        unfold count_ok in Hcount. lia. }
    pose proof (keys_buckets_fill (table d) [] (length (entries d))) as Hfill.
    simpl in Hfill. change (Z.of_nat 0) with 0 in Hfill.
    unfold entries in *. rewrite Hfill by lia.
    rewrite Nat.sub_diag. simpl. rewrite app_nil_r.
    exists m'. split; [done|]. split; [done|].
    unfold grants_block in Hg. destruct (future m) as [|[?|] ?]; try done.
    unfold SIZEOF_ptr, count_ok in *. lia.
  - rewrite decide_False by tauto.
    destruct (malloc_refused _ _ Hg) as (m' & E & Hb & Hu).
    rewrite (bind_Some _ _ _ _ _ E). simpl.
    exists m'. split; [done|]. split; [done|]. lia.
Qed.

(** C7, amended: on a well-formed store [db_keys] sets [*count] to the
    number of entries. It returns NULL when the store is empty or the
    allocator refuses the array, and otherwise an array of that many
    pointers, in bucket-then-chain order. The elements are the [key]
    pointers of the entries themselves: no string is copied and no block
    is touched. They are readable when the call returns; a later
    [db_delete] of a key frees the block that the corresponding element
    still points to. *)
Theorem db_keys_shares_key_strings d m c0 :
  store_ok d m →
  ∃ r m',
    db_keys (Some d) (Some c0) m = Some ((r, Some (db_count (Some d))), m')
    ∧ blocks m' = blocks m
    ∧ r = (if decide (db_count (Some d) ≠ 0
                      ∧ grants_block m (SIZEOF_ptr * db_count (Some d)))
           then Some (Some <$> (key <$> entries d)) else None)
    ∧ Z.of_nat (length (key <$> entries d)) = db_count (Some d)
    ∧ Forall (λ p, is_Some (blocks m' !! p)) (key <$> entries d)
    ∧ ∀ k d2 m2,
        db_delete (Some d) (Some k) m' = Some ((true, Some d2), m2) →
        ∃ p, p ∈ key <$> entries d
             ∧ blocks m' !! p = Some k ∧ blocks m2 !! p = None.
Proof.
  intros Hok. pose proof Hok as (Hheap & Hcount & _).
  destruct (db_keys_result _ _ c0 Hok) as (m' & E & Hb & Hu).
  pose proof (store_ok_grow _ _ _ Hb Hu Hok) as Hok'.
  pose proof Hok' as [Hheap' _].
  eexists _, m'. unfold db_count. split; [exact E|]. split; [done|].
  split; [done|].
  split; [by rewrite length_fmap|].
  split.
  - apply Forall_forall. intros p (e & -> & He)%list_elem_of_fmap.
    apply (owns_live _ _ _ (heap_ok_owns _ _ Hheap')). by apply key_in_pointers.
  - intros k d2 m2 Hdel.
    destruct (db_delete_outcome _ _ k Hheap') as (r2 & d2' & m2' & E2 & Hout).
    rewrite E2 in Hdel. injection Hdel as -> -> ->.
    inversion Hout as [|l1 e l2 Hi Hl1 He]; subst.
    pose proof (owns_Permutation _ _ _ (entries_split _ _ _ _ _ Hi)
                  (heap_ok_owns _ _ Hheap')) as Ho.
    apply owns_cons in Ho as (Hkv & _).
    exists (key e). split; [|split; [done|]].
    + apply list_elem_of_fmap_2. eapply bucket_entry_in; [done|].
      apply elem_of_app. right. by left.
    + simpl. by rewrite lookup_delete_ne, lookup_delete_eq.
Qed.

(** C10: every public call answers a NULL store handle, a NULL key, a
    NULL value or a NULL [count] pointer without reading or writing
    anything: [db_set], [db_delete] and [db_exists] return false, [db_get]
    returns NULL, [db_count] returns 0, [db_stats] returns the all-zero
    record, and [db_clear], [db_destroy] and [db_keys] return (NULL for
    [db_keys]) with the database, the memory and [*count] as they were. *)
Theorem null_arguments_are_total (db : option Database) (k v : option string)
    (c : option Z) (m : Mem) :
  db_set None k v m = Some ((false, None), m)
  ∧ db_set db None v m = Some ((false, db), m)
  ∧ db_set db k None m = Some ((false, db), m)
  ∧ db_delete None k m = Some ((false, None), m)
  ∧ db_delete db None m = Some ((false, db), m)
  ∧ db_exists None k m = Some (false, m)
  ∧ db_exists db None m = Some (false, m)
  ∧ db_get None k m = Some (None, m)
  ∧ db_get db None m = Some (None, m)
  ∧ db_count None = 0
  ∧ db_stats None = mkDBStats 0 0 0 0
  ∧ db_clear None m = Some (None, m)
  ∧ db_destroy None m = Some (tt, m)
  ∧ db_keys None c m = Some ((None, c), m)
  ∧ db_keys db None m = Some ((None, None), m).
Proof.
  repeat split; try done.
  - by destruct db, k.
  - by destruct db as [?|], k as [?|].
  - by destruct db.
  - unfold db_exists, bind. by destruct db.
  - by destruct db.
  - by destruct db.
Qed.

End store.

(** * Further properties of the store *)

Section store_contents.
Context `{CharModel}.

Lemma NoDup_fmap_eq {A B} (f : A → B) (l : list A) x y :
  NoDup (f <$> l) → x ∈ l → y ∈ l → f x = f y → x = y.
Proof.
  induction l as [|a l IH]; intros Hnd Hx Hy Hf; [by apply elem_of_nil in Hx|].
  rewrite fmap_cons in Hnd. apply NoDup_cons in Hnd as [Ha Hnd].
  apply elem_of_cons in Hx as [->|Hx], Hy as [->|Hy]; [done| | |by apply IH].
  - exfalso. apply Ha. rewrite Hf. by apply list_elem_of_fmap_2.
  - exfalso. apply Ha. rewrite <- Hf. by apply list_elem_of_fmap_2.
Qed.

Lemma entry_in_bucket d e :
  e ∈ entries d → ∃ j c, table d !! j = Some c ∧ e ∈ c.
Proof.
  intros (c & He & Hc)%list_elem_of_join.
  apply list_elem_of_lookup in Hc as [j Hj]. eauto.
Qed.

(** In a well-formed store [db_get(db, k)] returns the value pointer of the
    entry that holds [k]. *)
Lemma get_of_entry d m k e :
  store_ok d m → e ∈ entries d → key_at m e = Some k →
  db_get (Some d) (Some k) m = Some (Some (value e), m).
Proof.
  intros (Hheap & _ & Huniq & Hplaced) He Hk.
  destruct (entry_in_bucket _ _ He) as (j & c & Hj & Hec).
  rewrite placed_ok_lookup in Hplaced.
  pose proof (Hplaced j c e Hj Hec) as Hhash. rewrite Hk in Hhash.
  injection Hhash as Hhash.
  assert (j = slot k) as -> by (unfold slot; lia).
  destruct (chain_cases m k c (bucket_keys_live _ _ _ _ Hheap Hj))
    as [Hc|(l1 & e' & l2 & -> & Hl1 & He')].
  - eapply Forall_forall in Hc as (s & Hs & Hne); [|done]. congruence.
  - assert (e = e') as <-.
    { eapply (NoDup_fmap_eq (key_at m)); [done|done| |congruence].
      eapply bucket_entry_in; [done|]. apply elem_of_app. right. by left. }
    by eapply db_get_present.
Qed.

(** Conversely a pointer returned by [db_get(db, k)] is the value pointer of
    an entry with key [k]; NULL means that no entry has key [k]. *)
Lemma get_result_entry d m k r m' :
  store_ok d m → db_get (Some d) (Some k) m = Some (r, m') →
  m' = m
  ∧ match r with
    | Some p => ∃ e, e ∈ entries d ∧ key_at m e = Some k ∧ value e = p
    | None => ∀ e, e ∈ entries d → key_at m e ≠ Some k
    end.
Proof.
  intros Hok Hget. pose proof Hok as (Hheap & _).
  destruct (heap_ok_bucket _ _ k Hheap) as [c Hi].
  destruct (chain_cases m k c (bucket_keys_live _ _ _ _ Hheap Hi))
    as [Hc|(l1 & e & l2 & -> & Hl1 & He)].
  - pose proof (db_get_absent _ _ _ _ Hi Hc) as Habs.
    rewrite Habs in Hget. injection Hget as <- <-.
    split; [done|]. intros e He Hk.
    rewrite (get_of_entry _ _ _ _ Hok He Hk) in Habs. done.
  - rewrite (db_get_present _ _ _ _ _ _ Hi Hl1 He) in Hget.
    injection Hget as <- <-. split; [done|]. exists e. split; [|done].
    eapply bucket_entry_in; [done|]. apply elem_of_app. right. by left.
Qed.

(** When the entries with key [k'] are the same before and after, with the
    same value strings, [db_get(db, k')] returns the same pointer to the
    same characters. *)
Lemma get_transfer d m d' m' k' :
  store_ok d m → store_ok d' m' →
  (∀ x, x ∈ entries d ∧ key_at m x = Some k'
        ↔ x ∈ entries d' ∧ key_at m' x = Some k') →
  (∀ x, x ∈ entries d → key_at m x = Some k' →
        blocks m' !! value x = blocks m !! value x) →
  ∃ q, db_get (Some d) (Some k') m = Some (q, m)
       ∧ db_get (Some d') (Some k') m' = Some (q, m')
       ∧ ∀ p, q = Some p → blocks m' !! p = blocks m !! p.
Proof.
  intros Hok Hok' Hsame Hval.
  destruct (db_get_total d m k' (proj1 Hok)) as [q Hget].
  exists q. split; [done|].
  destruct (get_result_entry _ _ _ _ _ Hok Hget) as [_ Hq].
  destruct q as [p|].
  - destruct Hq as (e & He & Hk & <-).
    destruct (proj1 (Hsame e) (conj He Hk)) as [He' Hk'].
    split; [by apply get_of_entry|]. intros p [= <-]. by apply Hval.
  - split; [|done].
    destruct (db_get_total d' m' k' (proj1 Hok')) as [q' Hget'].
    destruct (get_result_entry _ _ _ _ _ Hok' Hget') as [_ Hq'].
    destruct q' as [p'|]; [|done].
    destruct Hq' as (e & He & Hk & _).
    destruct (proj2 (Hsame e) (conj He Hk)) as [He0 Hk0]. by destruct (Hq e He0).
Qed.

Lemma replaced_get k old new R d m d' m' k' :
  store_ok d m → store_ok d' m' → replaced k old new R d m d' m' → k' ≠ k →
  ∃ q, db_get (Some d) (Some k') m = Some (q, m)
       ∧ db_get (Some d') (Some k') m' = Some (q, m')
       ∧ ∀ p, q = Some p → blocks m' !! p = blocks m !! p.
Proof.
  intros Hok Hok' (Hperm & Hperm' & Hfr & HR & Hold & Hnew) Hne.
  assert (∀ x, x ∈ R → key_at m' x = key_at m x) as HfrK
    by (intros x Hx; apply Hfr; by apply key_in_pointers).
  apply get_transfer; [done..| |].
  - intros x. rewrite Hperm, Hperm', !elem_of_app. split.
    + intros [[Hx|Hx] Hk].
      * rewrite (Hold x Hx) in Hk. congruence.
      * split; [by right|]. by rewrite HfrK.
    + intros [[Hx|Hx] Hk].
      * rewrite (Hnew x Hx) in Hk. congruence.
      * split; [by right|]. by rewrite <- HfrK.
  - intros x Hx Hk. rewrite Hperm, elem_of_app in Hx. destruct Hx as [Hx|Hx].
    + rewrite (Hold x Hx) in Hk. congruence.
    + by apply Hfr, value_in_pointers.
Qed.

(** A successful [db_set(db, k, v)] replaces at most one entry by one new
    entry holding [v]; the old value block is freed. *)
Lemma set_outcome_replaced d m k v d' m' :
  store_ok d m → set_outcome d m k v true d' m' →
  ∃ old new R,
    replaced k old [new] R d m d' m'
    ∧ blocks m' !! value new = Some v
    ∧ ∀ x, x ∈ old → blocks m' !! value x = None.
Proof.
  intros (Hheap & Hcount & Huniq & Hplaced) Hout.
  pose proof (heap_ok_owns _ _ Hheap) as Howns.
  inversion Hout as [|l1 e l2 nv m1 Hi Hl1 He Hnv Hb Hu
                     |c e m1 Hi Hc Hke Hve Hkv Hb Hu Hlt']; subst.
  - pose proof (entries_split _ _ _ _ _ Hi) as Hperm.
    set (R := (l1 ++ l2) ++ mjoin (delete (slot k) (table d))) in *.
    pose proof (owns_Permutation _ _ _ Hperm Howns) as Ho.
    apply owns_cons in Ho as (Hkv & HkR & HvR & Hkl & Hvl & HR).
    assert (value e ≠ nv) as Hne
      by (intros <-; rewrite Hnv in Hvl; by destruct Hvl).
    assert (key e ≠ nv) as Hne'
      by (intros <-; rewrite Hnv in Hkl; by destruct Hkl).
    exists [e], (mkEntry (key e) nv), R. split; [split; [done|]|].
    + split.
      { unfold entries; simpl. rewrite (join_insert _ _ _ _ Hi).
        apply split_chain_Permutation. }
      split.
      { intros p Hp. rewrite Hb, lookup_delete_ne, lookup_insert_ne; [done| |].
        - intros <-. apply (owns_live _ _ _ HR) in Hp. rewrite Hnv in Hp.
          by destruct Hp.
        - by intros <-. }
      split.
      { intros x Hx Hk. unfold keys_unique in Huniq.
        rewrite Hperm, fmap_cons in Huniq. apply NoDup_cons in Huniq as [Hnin _].
        apply Hnin. rewrite He, <- Hk. by apply list_elem_of_fmap_2. }
      split; [by intros x ->%list_elem_of_singleton|].
      intros x ->%list_elem_of_singleton. unfold key_at; simpl.
      by rewrite Hb, lookup_delete_ne, lookup_insert_ne.
    + split; [simpl; by rewrite Hb, lookup_delete_ne, lookup_insert_eq|].
      intros x ->%list_elem_of_singleton. by rewrite Hb, lookup_delete_eq.
  - exists [], e, (entries d). split; [split; [done|]|].
    + split.
      { unfold entries; simpl. rewrite (join_insert _ _ _ _ Hi).
        by rewrite (join_bucket _ _ _ Hi). }
      split.
      { intros p Hp. apply (owns_live _ _ _ Howns) in Hp as Hpl.
        rewrite Hb, !lookup_insert_ne; [done|intros <-..].
        - rewrite Hke in Hpl. by destruct Hpl.
        - rewrite Hve in Hpl. by destruct Hpl. }
      split.
      { intros x Hx. unfold entries in Hx. rewrite (join_bucket _ _ _ Hi) in Hx.
        apply elem_of_app in Hx as [Hx|Hx].
        - eapply Forall_forall in Hc as (s & Hs & Hne); [|done]. congruence.
        - by eapply other_buckets_differ. }
      split; [by intros x ?%elem_of_nil|].
      intros x ->%list_elem_of_singleton. unfold key_at.
      by rewrite Hb, lookup_insert_ne, lookup_insert_eq.
    + split; [by rewrite Hb, lookup_insert_eq|]. by intros x ?%elem_of_nil.
Qed.

(** A successful [db_delete(db, k)] removes one entry and frees its two
    strings. *)
Lemma delete_outcome_replaced d m k d' m' :
  store_ok d m → delete_outcome d m k true d' m' →
  ∃ e R,
    replaced k [e] [] R d m d' m'
    ∧ blocks m' !! key e = None ∧ blocks m' !! value e = None.
Proof.
  intros (Hheap & Hcount & Huniq & Hplaced) Hout.
  pose proof (heap_ok_owns _ _ Hheap) as Howns.
  inversion Hout as [|l1 e l2 Hi Hl1 He]; subst.
  pose proof (entries_split _ _ _ _ _ Hi) as Hperm.
  set (R := (l1 ++ l2) ++ mjoin (delete (slot k) (table d))) in *.
  pose proof (owns_Permutation _ _ _ Hperm Howns) as Ho.
  apply owns_cons in Ho as (Hkv & HkR & HvR & Hkl & Hvl & HR).
  exists e, R. split; [split; [done|]|]; simpl.
  - split; [unfold entries; simpl; by rewrite (join_insert _ _ _ _ Hi)|].
    split; [intros p Hp; rewrite !lookup_delete_ne; [done|by intros <-..]|].
    split.
    { intros x Hx Hk. unfold keys_unique in Huniq.
      rewrite Hperm, fmap_cons in Huniq. apply NoDup_cons in Huniq as [Hnin _].
      apply Hnin. rewrite He, <- Hk. by apply list_elem_of_fmap_2. }
    split; [by intros x ->%list_elem_of_singleton|]. by intros x ?%elem_of_nil.
  - split; [by rewrite lookup_delete_ne, lookup_delete_eq|].
    by rewrite lookup_delete_eq.
Qed.

Lemma db_set_cases d m k v r db' m' :
  store_ok d m →
  db_set (Some d) (Some k) (Some v) m = Some ((r, db'), m') →
  (r = false ∧ db' = Some d ∧ same_data m m')
  ∨ (r = true ∧ ∃ d', db' = Some d' ∧ store_ok d' m'
                      ∧ set_outcome d m k v true d' m').
Proof.
  intros Hok Hset. pose proof Hok as [Hheap _].
  destruct (decide (MAX_KEY_LENGTH ≤ strlen k ∨ MAX_VALUE_LENGTH ≤ strlen v))
    as [Hlen|Hlen].
  - rewrite (db_set_rejects _ _ _ _ Hlen) in Hset. injection Hset as <- <- <-.
    by left.
  - destruct (db_set_outcome _ _ k v Hheap) as (r0 & d' & m0 & E & Hout); [lia..|].
    rewrite E in Hset. injection Hset as <- <- <-.
    pose proof (set_outcome_ok _ _ _ _ _ _ _ Hok Hout) as Hok'.
    destruct r0.
    + right. split; [done|]. by exists d'.
    + left. inversion Hout; subst. done.
Qed.

Lemma db_delete_cases d m k r db' m' :
  store_ok d m →
  db_delete (Some d) (Some k) m = Some ((r, db'), m') →
  ∃ d', db' = Some d' ∧ store_ok d' m' ∧ delete_outcome d m k r d' m'.
Proof.
  intros Hok Hdel. pose proof Hok as [Hheap _].
  destruct (db_delete_outcome _ _ k Hheap) as (r0 & d' & m0 & E & Hout).
  rewrite E in Hdel. injection Hdel as <- <- <-.
  exists d'. split; [done|]. split; [|done]. by eapply delete_outcome_ok.
Qed.

(** X1: on a well-formed store a [db_set(db, k, v)], successful or not,
    leaves every other key as it was: [db_get(db, k')] for [k' ≠ k] returns
    the same pointer (or NULL) after the call as before, and the characters
    behind it are unchanged. *)
Theorem set_keeps_other_keys d m k v r db' m' k' :
  store_ok d m →
  db_set (Some d) (Some k) (Some v) m = Some ((r, db'), m') →
  k' ≠ k →
  ∃ q, db_get (Some d) (Some k') m = Some (q, m)
       ∧ db_get db' (Some k') m' = Some (q, m')
       ∧ ∀ p, q = Some p → blocks m' !! p = blocks m !! p.
Proof.
  intros Hok Hset Hne.
  destruct (db_set_cases _ _ _ _ _ _ _ Hok Hset)
    as [(-> & -> & Hsame)|(-> & d' & -> & Hok' & Hout)].
  - pose proof (store_ok_same_data _ _ _ Hsame Hok) as Hok'.
    destruct Hsame as [Hb _].
    apply get_transfer; [done..| |].
    + intros x. unfold key_at. by rewrite Hb.
    + intros x _ _. by rewrite Hb.
  - destruct (set_outcome_replaced _ _ _ _ _ _ Hok Hout) as (old & new & R & Hrep & _).
    by eapply replaced_get.
Qed.

(** X2: on a well-formed store [db_delete(db, k)] leaves every other key as
    it was: [db_get(db, k')] for [k' ≠ k] returns the same pointer (or
    NULL), with the same characters behind it. *)
Theorem delete_keeps_other_keys d m k r db' m' k' :
  store_ok d m →
  db_delete (Some d) (Some k) m = Some ((r, db'), m') →
  k' ≠ k →
  ∃ q, db_get (Some d) (Some k') m = Some (q, m)
       ∧ db_get db' (Some k') m' = Some (q, m')
       ∧ ∀ p, q = Some p → blocks m' !! p = blocks m !! p.
Proof.
  intros Hok Hdel Hne.
  destruct (db_delete_cases _ _ _ _ _ _ Hok Hdel) as (d' & -> & Hok' & Hout).
  destruct r.
  - destruct (delete_outcome_replaced _ _ _ _ _ Hok Hout) as (e & R & Hrep & _).
    by eapply replaced_get.
  - inversion Hout; subst. by apply get_transfer.
Qed.

(** X3: after [db_delete(db, k)] on a well-formed store, whatever it
    returned, the key is absent: [db_get(db, k)] returns NULL and
    [db_exists(db, k)] returns false. *)
Theorem delete_then_get d m k r db' m' :
  store_ok d m →
  db_delete (Some d) (Some k) m = Some ((r, db'), m') →
  db_get db' (Some k) m' = Some (None, m')
  ∧ db_exists db' (Some k) m' = Some (false, m').
Proof.
  intros Hok Hdel.
  destruct (db_delete_cases _ _ _ _ _ _ Hok Hdel) as (d' & -> & Hok' & Hout).
  assert (db_get (Some d') (Some k) m' = Some (None, m')) as Hget.
  { destruct r.
    - destruct (delete_outcome_replaced _ _ _ _ _ Hok Hout)
        as (e & R & (_ & Hperm' & Hfr & HR & _) & _).
      destruct (db_get_total d' m' k (proj1 Hok')) as [q Hget].
      destruct (get_result_entry _ _ _ _ _ Hok' Hget) as [_ Hq].
      destruct q as [p|]; [|done].
      destruct Hq as (x & Hx & Hk & _). rewrite Hperm' in Hx. simpl in Hx.
      destruct (HR x Hx). rewrite <- Hk. unfold key_at. symmetry.
      by apply Hfr, key_in_pointers.
    - inversion Hout as [c Hi Hc|]; subst. by eapply db_get_absent. }
  split; [done|]. by rewrite db_exists_get, Hget.
Qed.

(** X4: the pointer that [db_get(db, k)] returned is dead after the next
    successful [db_set(db, k, v)] (the old value is freed and the entry
    points to a different block) and after the next [db_delete(db, k)]. *)
Theorem mutation_frees_borrowed_value d m k p :
  store_ok d m →
  db_get (Some d) (Some k) m = Some (Some p, m) →
  (∀ v db' m',
     db_set (Some d) (Some k) (Some v) m = Some ((true, db'), m') →
     blocks m' !! p = None
     ∧ ∃ p', db_get db' (Some k) m' = Some (Some p', m') ∧ p' ≠ p)
  ∧ (∀ r db' m',
       db_delete (Some d) (Some k) m = Some ((r, db'), m') →
       r = true ∧ blocks m' !! p = None).
Proof.
  intros Hok Hget.
  destruct (get_result_entry _ _ _ _ _ Hok Hget) as [_ (e & He & Hk & <-)].
  split.
  - intros v db' m' Hset.
    destruct (db_set_cases _ _ _ _ _ _ _ Hok Hset)
      as [(? & _)|(_ & d' & -> & Hok' & Hout)]; [done|].
    destruct (set_outcome_replaced _ _ _ _ _ _ Hok Hout)
      as (old & new & R & (Hperm & _ & _ & HR & _) & Hv & Hstale).
    assert (e ∈ old) as Hold.
    { rewrite Hperm in He. apply elem_of_app in He as [?|HeR]; [done|].
      by destruct (HR e HeR). }
    split; [by apply Hstale|].
    destruct (get_after_set _ _ _ _ _ _ (proj1 Hok) Hout) as (p' & Hget' & Hp').
    exists p'. split; [done|]. intros ->. rewrite (Hstale e Hold) in Hp'. done.
  - intros r db' m' Hdel.
    destruct (db_delete_cases _ _ _ _ _ _ Hok Hdel) as (d' & -> & Hok' & Hout).
    destruct r.
    + split; [done|].
      destruct (delete_outcome_replaced _ _ _ _ _ Hok Hout)
        as (e' & R & (Hperm & _ & _ & HR & _) & _ & Hv).
      assert (e = e') as <-; [|done].
      rewrite Hperm in He. apply elem_of_app in He as [He|HeR].
      * by apply list_elem_of_singleton in He.
      * by destruct (HR e HeR).
    + inversion Hout as [c Hi Hc|]; subst.
      rewrite (db_get_absent _ _ _ _ Hi Hc) in Hget. done.
Qed.

Lemma lookup_value_get d m k q :
  db_get (Some d) (Some k) m = Some (q, m) →
  lookup_value d m k = match q with Some p => blocks m !! p | None => None end.
Proof. unfold lookup_value. by intros ->. Qed.

(** X5: on a well-formed store a successful [db_set(db, k, v)] acts on the
    stored values as an insertion into an associative map: afterwards the
    value under [k] is [v] and the value under every other key is what it
    was. *)
Theorem set_is_map_insert d m k v d' m' :
  store_ok d m →
  db_set (Some d) (Some k) (Some v) m = Some ((true, Some d'), m') →
  ∀ k', lookup_value d' m' k'
        = if decide (k' = k) then Some v else lookup_value d m k'.
Proof.
  intros Hok Hset k'.
  destruct (db_set_cases _ _ _ _ _ _ _ Hok Hset)
    as [(? & _)|(_ & d0 & [= <-] & Hok' & Hout)]; [done|].
  destruct (decide (k' = k)) as [->|Hne].
  - destruct (get_after_set _ _ _ _ _ _ (proj1 Hok) Hout) as (p & Hget & Hp).
    by rewrite (lookup_value_get _ _ _ _ Hget).
  - destruct (set_outcome_replaced _ _ _ _ _ _ Hok Hout) as (old & new & R & Hrep & _).
    destruct (replaced_get _ _ _ _ _ _ _ _ _ Hok Hok' Hrep Hne)
      as (q & Hget & Hget' & Hq).
    rewrite (lookup_value_get _ _ _ _ Hget), (lookup_value_get _ _ _ _ Hget').
    destruct q as [p|]; [by apply Hq|done].
Qed.

(** X6: on a well-formed store [db_delete(db, k)] acts on the stored values
    as a deletion from an associative map: it returns true exactly when a
    value was stored under [k]; afterwards nothing is stored under [k] and
    the value under every other key is what it was. *)
Theorem delete_is_map_delete d m k r d' m' :
  store_ok d m →
  db_delete (Some d) (Some k) m = Some ((r, Some d'), m') →
  (r = true ↔ is_Some (lookup_value d m k))
  ∧ ∀ k', lookup_value d' m' k'
          = if decide (k' = k) then None else lookup_value d m k'.
Proof.
  intros Hok Hdel.
  destruct (db_delete_cases _ _ _ _ _ _ Hok Hdel) as (d0 & [= <-] & Hok' & Hout).
  split.
  - destruct (db_get_total d m k (proj1 Hok)) as [q Hget].
    rewrite (lookup_value_get _ _ _ _ Hget).
    pose proof (delete_outcome_exists _ _ _ _ _ _ Hout) as Hex.
    rewrite db_exists_get, Hget in Hex. injection Hex as <-.
    destruct (get_result_entry _ _ _ _ _ Hok Hget) as [_ Hq].
    destruct q as [p|].
    + destruct Hq as (e & He & _ & <-). split; [intros _|done].
      apply (owns_live _ _ _ (heap_ok_owns _ _ (proj1 Hok))).
      by apply value_in_pointers.
    + split; [done|]. by intros [? ?].
  - intros k'. destruct (decide (k' = k)) as [->|Hne].
    + destruct r.
      * destruct (delete_outcome_replaced _ _ _ _ _ Hok Hout)
          as (e & R & (_ & Hperm' & Hfr & HR & _) & _).
        destruct (db_get_total d' m' k (proj1 Hok')) as [q Hget].
        rewrite (lookup_value_get _ _ _ _ Hget).
        destruct (get_result_entry _ _ _ _ _ Hok' Hget) as [_ Hq].
        destruct q as [p|]; [|done].
        destruct Hq as (x & Hx & Hk & _). rewrite Hperm' in Hx. simpl in Hx.
        destruct (HR x Hx). rewrite <- Hk. unfold key_at. symmetry.
        by apply Hfr, key_in_pointers.
      * inversion Hout as [c Hi Hc|]; subst.
        by rewrite (lookup_value_get _ _ _ _ (db_get_absent _ _ _ _ Hi Hc)).
    + assert (∃ q, db_get (Some d) (Some k') m = Some (q, m)
                   ∧ db_get (Some d') (Some k') m' = Some (q, m')
                   ∧ ∀ p, q = Some p → blocks m' !! p = blocks m !! p)
        as (q & Hget & Hget' & Hq).
      { destruct r.
        - destruct (delete_outcome_replaced _ _ _ _ _ Hok Hout) as (e & R & Hrep & _).
          by eapply replaced_get.
        - inversion Hout; subst. by apply get_transfer. }
      rewrite (lookup_value_get _ _ _ _ Hget), (lookup_value_get _ _ _ _ Hget').
      destruct q as [p|]; [by apply Hq|done].
Qed.

(** X7: on a well-formed store a successful [db_set] of a key that
    [db_exists] reports absent creates exactly one entry: [db_count] grows
    by one, and the new entry becomes the head of the bucket the key hashes
    to, in front of the unchanged former chain; all other buckets are
    unchanged. *)
Theorem set_new_key_prepends d m k v d' m' :
  store_ok d m →
  db_exists (Some d) (Some k) m = Some (false, m) →
  db_set (Some d) (Some k) (Some v) m = Some ((true, Some d'), m') →
  db_count (Some d') = db_count (Some d) + 1
  ∧ ∃ e c, table d !! slot k = Some c
           ∧ table d' = <[slot k := e :: c]> (table d)
           ∧ key_at m' e = Some k ∧ blocks m' !! value e = Some v
           ∧ blocks m !! key e = None ∧ blocks m !! value e = None.
Proof.
  intros Hok Hex Hset.
  destruct (db_set_cases _ _ _ _ _ _ _ Hok Hset)
    as [(? & _)|(_ & d0 & [= <-] & Hok' & Hout)]; [done|].
  inversion Hout as [|l1 e l2 nv m1 Hi Hl1 He Hnv Hb Hu
                     |c e m1 Hi Hc Hke Hve Hkv Hb Hu Hlt']; subst.
  - rewrite db_exists_get, (db_get_present _ _ _ _ _ _ Hi Hl1 He) in Hex. done.
  - destruct (insert_preserves _ _ _ _ _ _ _ Hok Hi Hc Hke Hve Hkv Hb Hu Hlt')
      as [_ Hwrap].
    split; [done|]. exists e, c. repeat split; try done.
    + unfold key_at. by rewrite Hb, lookup_insert_ne, lookup_insert_eq.
    + by rewrite Hb, lookup_insert_eq.
Qed.

Lemma malloc_true_inv size m m' :
  malloc size m = Some (true, m') →
  ∃ a rest, future m = Some a :: rest ∧ used m + size < 2 ^ 64
            ∧ m' = mkMem (blocks m) (used m + size) rest.
Proof.
  unfold malloc, bind, next_decision.
  destruct (future m) as [|[a|] rest]; simpl; [done| |done].
  destruct (Z.ltb_spec (used m + size) (2 ^ 64)); [|done].
  intros [= <-]. eauto.
Qed.

Lemma strdup_Some_inv s m p m' :
  strdup s m = Some (Some p, m') →
  ∃ rest, future m = Some p :: rest ∧ valid_addr p = true
          ∧ blocks m !! p = None
          ∧ m' = mkMem (<[p := s]> (blocks m)) (used m) rest.
Proof.
  unfold strdup, bind, next_decision.
  destruct (future m) as [|[a|] rest]; simpl; [done| |done].
  destruct (valid_addr a) eqn:Hv; simpl; [|done].
  case_bool_decide as Hdead; [|done]. intros [= <- <-]. eauto.
Qed.

Lemma strdup_granted s m :
  grants_string m →
  ∃ p rest, future m = Some p :: rest ∧ blocks m !! p = None
            ∧ strdup s m
              = Some (Some p, mkMem (<[p := s]> (blocks m)) (used m) rest).
Proof.
  unfold grants_string, strdup, bind, next_decision.
  destruct (future m) as [|[p|] rest]; [done| |done]. intros [Hv Hdead]. simpl.
  rewrite Hv, bool_decide_eq_true_2 by done. eauto.
Qed.

Lemma create_entry_granted k v m :
  grants_entry m → ∃ e m', create_entry k v m = Some (Some e, m').
Proof.
  unfold grants_entry.
  destruct (future m) as [|[a|] [|[b|] [|[c|] rest]]] eqn:Hf; try done.
  intros (Hroom & Hvb & Hvc & Hb & Hc & Hbc).
  unfold create_entry, malloc, strdup, bind, next_decision. rewrite Hf. simpl.
  rewrite (proj2 (Z.ltb_lt _ _) Hroom). simpl.
  rewrite Hvb, bool_decide_eq_true_2 by done. simpl.
  rewrite Hvc, bool_decide_eq_true_2 by (by rewrite lookup_insert_ne). simpl.
  eauto.
Qed.

Lemma create_entry_Some_inv k v m e m' :
  create_entry k v m = Some (Some e, m') → grants_entry m.
Proof.
  unfold create_entry. intros Hc.
  apply bind_inv in Hc as ([|] & m1 & Hmalloc & Hc); [|by simpl in Hc].
  simpl in Hc.
  apply bind_inv in Hc as (kp & m2 & Hk & Hc).
  apply bind_inv in Hc as (vp & m3 & Hv & Hc).
  destruct kp as [b|], vp as [c|];
    try (repeat (apply bind_inv in Hc as (? & ? & _ & Hc)); by simpl in Hc).
  apply malloc_true_inv in Hmalloc as (a & rest1 & Hf & Hroom & ->).
  apply strdup_Some_inv in Hk as (rest2 & Hf2 & Hvb & Hb & ->).
  apply strdup_Some_inv in Hv as (rest3 & Hf3 & Hvc & Hcdead & ->).
  simpl in *. subst. unfold grants_entry. rewrite Hf.
  apply lookup_insert_None in Hcdead as [Hcdead Hne]. done.
Qed.

(** X8: [db_set] fails for no other reason than its arguments or the
    allocator. On a well-formed store it returns true exactly when the key
    is shorter than [MAX_KEY_LENGTH], the value is shorter than
    [MAX_VALUE_LENGTH], and the allocator grants the requests the call
    makes: the copy of the value when the key is stored already, and an
    [Entry] with the copies of the key and the value when it is not. *)
Theorem set_succeeds_with_memory d m k v :
  store_ok d m →
  (∃ d' m', db_set (Some d) (Some k) (Some v) m = Some ((true, Some d'), m'))
  ↔ strlen k < MAX_KEY_LENGTH ∧ strlen v < MAX_VALUE_LENGTH ∧ grants_set d m k.
Proof.
  intros [Hheap _].
  destruct (heap_ok_bucket _ _ k Hheap) as [ch Hi].
  pose proof (heap_ok_owns _ _ Hheap) as Howns.
  assert (∀ l1 e l2, ch = l1 ++ e :: l2 → is_Some (blocks m !! value e)) as Hlive.
  { intros l1 e l2 ->. apply (owns_live _ _ _ Howns), value_in_pointers.
    eapply bucket_entry_in; [done|]. apply elem_of_app. right. by left. }
  unfold grants_set.
  destruct (chain_cases m k ch (bucket_keys_live _ _ _ _ Hheap Hi))
    as [Hch|(l1 & e & l2 & -> & Hl1 & He)].
  - rewrite (lookup_value_get _ _ _ _ (db_get_absent _ _ _ _ Hi Hch)).
    rewrite decide_False by (by intros [? ?]).
    split.
    + intros (d' & m' & Hset).
      destruct (db_set_true_lengths _ _ _ _ _ _ Hset) as [Hk Hv].
      split; [done|]. split; [done|].
      unfold db_set in Hset. rewrite (valid_lengths _ _ Hk Hv) in Hset.
      rewrite (bind_Some _ _ _ _ _ (bucket_lookup _ _ _ _ Hi)) in Hset.
      rewrite (bind_Some _ _ _ _ _ (set_walk_absent _ _ v _ Hch)) in Hset.
      apply bind_inv in Hset as ([e|] & m1 & Hcreate & Hset); [|by simpl in Hset].
      by eapply create_entry_Some_inv.
    + intros (Hk & Hv & Hg).
      unfold db_set. rewrite (valid_lengths _ _ Hk Hv).
      rewrite (bind_Some _ _ _ _ _ (bucket_lookup _ _ _ _ Hi)).
      rewrite (bind_Some _ _ _ _ _ (set_walk_absent _ _ v _ Hch)).
      destruct (create_entry_granted k v m Hg) as (e & m' & Hcreate).
      rewrite (bind_Some _ _ _ _ _ Hcreate). eauto.
  - destruct (Hlive l1 e l2 eq_refl) as [s Hs].
    rewrite (lookup_value_get _ _ _ _ (db_get_present _ _ _ _ _ _ Hi Hl1 He)).
    rewrite decide_True by (by rewrite Hs).
    split.
    + intros (d' & m' & Hset).
      destruct (db_set_true_lengths _ _ _ _ _ _ Hset) as [Hk Hv].
      split; [done|]. split; [done|].
      unfold db_set in Hset. rewrite (valid_lengths _ _ Hk Hv) in Hset.
      rewrite (bind_Some _ _ _ _ _ (bucket_lookup _ _ _ _ Hi)) in Hset.
      apply bind_inv in Hset as (r & m1 & Hwalk & Hset).
      rewrite (set_walk_present _ _ v _ _ _ Hl1 He) in Hwalk.
      destruct (strdup v m) as [[[nv|] m2]|] eqn:Hdup; [| |done].
      * apply strdup_Some_inv in Hdup as (rest & Hf & Hvalid & Hdead & _).
        unfold grants_string. by rewrite Hf.
      * injection Hwalk as <- <-. by simpl in Hset.
    + intros (Hk & Hv & Hg).
      unfold db_set. rewrite (valid_lengths _ _ Hk Hv).
      rewrite (bind_Some _ _ _ _ _ (bucket_lookup _ _ _ _ Hi)).
      destruct (strdup_granted v m Hg) as (p & rest & Hf & Hdead & Hdup).
      unfold bind at 1. rewrite (set_walk_present _ _ v _ _ _ Hl1 He), Hdup.
      assert (p ≠ value e) as Hne by (intros ->; congruence).
      erewrite free_live; [|simpl; by rewrite lookup_insert_ne].
      eauto.
Qed.

(** X9: on a well-formed store the array that [db_keys] returns lists every
    stored key exactly once: the strings behind its elements are pairwise
    different, and a key is among them exactly when [db_exists] answers
    true for it. *)
Theorem keys_enumerates_store d m c0 ks c1 m' :
  store_ok d m →
  db_keys (Some d) (Some c0) m = Some ((Some ks, c1), m') →
  ∃ ps, ks = Some <$> ps
        ∧ Z.of_nat (length ps) = db_count (Some d)
        ∧ NoDup ((λ p, blocks m' !! p) <$> ps)
        ∧ ∀ k, Some k ∈ (λ p, blocks m' !! p) <$> ps
               ↔ db_exists (Some d) (Some k) m' = Some (true, m').
Proof.
  intros Hok Hkeys.
  destruct (db_keys_spec _ _ c0 Hok) as (r & m1 & E & Hb & Hu & Hr).
  rewrite E in Hkeys. injection Hkeys as -> <- ->.
  destruct Hr as [?|[_ [= ->]]]; [done|].
  pose proof (store_ok_grow _ _ _ Hb Hu Hok) as Hok'.
  exists (key_pointers d). split; [done|].
  assert ((λ p, blocks m' !! p) <$> key_pointers d = key_at m' <$> entries d)
    as -> by (unfold key_pointers; by rewrite <- list_fmap_compose).
  split; [unfold key_pointers; rewrite length_fmap; symmetry; apply Hok|].
  split; [apply Hok'|].
  intros k. rewrite db_exists_get. split.
  - intros (e & Hk & He)%list_elem_of_fmap.
    by rewrite (get_of_entry _ _ _ _ Hok' He (eq_sym Hk)).
  - destruct (db_get_total d m' k (proj1 Hok')) as [q Hget]. rewrite Hget.
    destruct (get_result_entry _ _ _ _ _ Hok' Hget) as [_ Hq].
    destruct q as [p|]; [|done]. intros _.
    destruct Hq as (e & He & Hk & _). rewrite <- Hk.
    by apply list_elem_of_fmap_2.
Qed.

Lemma collisions_plus_used (t : list (list Entry)) :
  sum_list_Z (chain_collisions <$> t)
  + Z.of_nat (length (filter (λ c : list Entry, (0 < length c)%nat) t))
  = Z.of_nat (length (mjoin t)).
Proof.
  induction t as [|c t IH]; [done|].
  change (mjoin (c :: t)) with (c ++ mjoin t).
  rewrite fmap_cons, filter_cons, length_app, Nat2Z.inj_add, <- IH.
  unfold sum_list_Z, chain_collisions. simpl.
  destruct (decide (0 < length c)%nat); simpl length; lia.
Qed.

Lemma max_chain_bounds (t : list (list Entry)) :
  0 ≤ max_list_Z ((λ c : list Entry, Z.of_nat (length c)) <$> t)
      ≤ Z.of_nat (length (mjoin t))
  ∧ (mjoin t ≠ [] →
     1 ≤ max_list_Z ((λ c : list Entry, Z.of_nat (length c)) <$> t)).
Proof.
  induction t as [|c t [IH1 IH2]]; [done|].
  change (mjoin (c :: t)) with (c ++ mjoin t).
  rewrite fmap_cons, length_app. unfold max_list_Z in *. simpl.
  split; [lia|]. intros Hne. destruct c as [|x c]; simpl in *; [|lia].
  specialize (IH2 Hne). lia.
Qed.

Lemma db_stats_value d m :
  store_ok d m →
  db_stats (Some d)
  = mkDBStats (count d)
      (sum_list_Z (chain_collisions <$> table d))
      (max_list_Z (chain_lengths d))
      (Z.of_nat (length (nonempty_buckets d))).
Proof.
  intros (Hheap & Hcount & _). pose proof (heap_ok_bound _ _ Hheap) as Hbound.
  destruct Hheap as (Hlen & _).
  unfold db_stats, chain_lengths, nonempty_buckets, entries in *.
  rewrite stats_fold_spec; simpl; try lia;
    [|rewrite Hlen; unfold HASH_TABLE_SIZE; lia].
  rewrite Z.max_r; [done|].
  generalize (table d). intros t. unfold max_list_Z.
  induction t; simpl; lia.
Qed.

(** X10: on a well-formed store the counters of [db_stats] are tied
    together: every entry is either the first of its chain or a collision,
    so [total_collisions + used_buckets = total_entries]; no more buckets
    are used than the table has or than there are entries; and the longest
    chain is at most [total_entries], and at least 1 as soon as the store
    holds an entry. *)
Theorem db_stats_relations d m :
  store_ok d m →
  total_collisions (db_stats (Some d)) + used_buckets (db_stats (Some d))
  = total_entries (db_stats (Some d))
  ∧ 0 ≤ used_buckets (db_stats (Some d)) ≤ HASH_TABLE_SIZE
  ∧ used_buckets (db_stats (Some d)) ≤ total_entries (db_stats (Some d))
  ∧ 0 ≤ total_collisions (db_stats (Some d))
  ∧ max_chain_length (db_stats (Some d)) ≤ total_entries (db_stats (Some d))
  ∧ (0 < total_entries (db_stats (Some d)) →
     1 ≤ max_chain_length (db_stats (Some d)))
  ∧ (total_entries (db_stats (Some d)) = 0 →
     db_stats (Some d) = mkDBStats 0 0 0 0).
Proof.
  intros Hok. rewrite (db_stats_value _ _ Hok). simpl.
  destruct Hok as ((Hlen & _) & Hcount & _).
  unfold count_ok, entries, nonempty_buckets, chain_lengths in *.
  pose proof (collisions_plus_used (table d)) as Hsum.
  pose proof (max_chain_bounds (table d)) as [Hmax Hmax1].
  pose proof (length_filter (λ c : list Entry, (0 < length c)%nat) (table d)) as Hf.
  assert (0 ≤ sum_list_Z (chain_collisions <$> table d)) as Hc0.
  { generalize (table d). intros t. unfold sum_list_Z.
    induction t as [|c t IH]; [done|]. rewrite fmap_cons. cbn [foldr].
    pose proof (chain_collisions_bounds c). lia. }
  rewrite Hcount. unfold HASH_TABLE_SIZE in *.
  repeat split; try lia.
  - intros Hpos. apply Hmax1. intros Hnil. rewrite Hnil in Hpos. simpl in Hpos. lia.
  - intros Hz. f_equal; lia.
Qed.

(** ** Creation, clearing and destruction *)

Lemma elem_of_pointers_cons p e R :
  p ∈ pointers (e :: R) ↔ p = key e ∨ p = value e ∨ p ∈ pointers R.
Proof.
  unfold pointers. rewrite bind_cons. unfold entry_pointers at 1.
  rewrite elem_of_app, !elem_of_cons, elem_of_nil. tauto.
Qed.

Lemma elem_of_pointers_app p l1 l2 :
  p ∈ pointers (l1 ++ l2) ↔ p ∈ pointers l1 ∨ p ∈ pointers l2.
Proof. unfold pointers. by rewrite bind_app, elem_of_app. Qed.

Lemma elem_of_pointers_Permutation p l1 l2 :
  l1 ≡ₚ l2 → p ∈ pointers l1 ↔ p ∈ pointers l2.
Proof. unfold pointers. by intros ->. Qed.

(** Freeing a chain frees exactly the strings of its entries. *)
Lemma free_chain_blocks c rest m :
  owns (c ++ rest) m →
  ∃ m', free_chain c m = Some (tt, m')
        ∧ owns rest m'
        ∧ used m' = used m - SIZEOF_Entry * Z.of_nat (length c)
        ∧ ∀ p, blocks m' !! p
               = if decide (p ∈ pointers c) then None else blocks m !! p.
Proof.
  revert m. induction c as [|e c IH]; intros m Ho; cbn [free_chain length].
  - exists m. rewrite app_nil_l in Ho. split; [done|]. split; [done|].
    split; [lia|].
    intros p. by rewrite decide_False by (by intros ?%elem_of_nil).
  - apply owns_cons in Ho as (Hkv & HkR & HvR & Hkl & Hvl & HR).
    rewrite (bind_Some _ _ _ _ _ (free_entry_live _ _ Hkl Hvl Hkv)).
    destruct (IH (mkMem (delete (value e) (delete (key e) (blocks m)))
                        (used m - SIZEOF_Entry) (future m)))
      as (m' & E & Ho' & Hu' & Hb').
    { eapply owns_frame, HR. intros p Hp. simpl.
      rewrite !lookup_delete_ne; [done|by intros <-..]. }
    exists m'. split; [done|]. split; [done|]. split; [rewrite Hu'; simpl; lia|].
    intros p. rewrite Hb'. cbn [blocks].
    destruct (decide (p ∈ pointers c)) as [Hin|Hnin].
    + by rewrite decide_True by (apply elem_of_pointers_cons; tauto).
    + destruct (decide (p = value e)) as [->|Hv].
      { rewrite lookup_delete_eq.
        by rewrite decide_True by (apply elem_of_pointers_cons; tauto). }
      rewrite lookup_delete_ne by done.
      destruct (decide (p = key e)) as [->|Hk].
      { rewrite lookup_delete_eq.
        by rewrite decide_True by (apply elem_of_pointers_cons; tauto). }
      rewrite lookup_delete_ne by done.
      by rewrite decide_False by (rewrite elem_of_pointers_cons; tauto).
Qed.

Lemma clear_buckets_blocks t m :
  owns (mjoin t) m →
  ∃ m', clear_buckets t m = Some (replicate (length t) [], m')
        ∧ used m' = used m - SIZEOF_Entry * Z.of_nat (length (mjoin t))
        ∧ ∀ p, blocks m' !! p
               = if decide (p ∈ pointers (mjoin t)) then None else blocks m !! p.
Proof.
  revert m. induction t as [|c t IH]; intros m Ho.
  - exists m. split; [done|]. split; [simpl; lia|].
    intros p. by rewrite decide_False by (by intros ?%elem_of_nil).
  - change (mjoin (c :: t)) with (c ++ mjoin t) in *. simpl.
    destruct (free_chain_blocks _ _ _ Ho) as (m1 & E1 & Ho1 & Hu1 & Hb1).
    rewrite (bind_Some _ _ _ _ _ E1).
    destruct (IH _ Ho1) as (m2 & E2 & Hu2 & Hb2).
    rewrite (bind_Some _ _ _ _ _ E2).
    exists m2. split; [done|]. split; [rewrite Hu2, Hu1, length_app; lia|].
    intros p. rewrite Hb2, Hb1.
    destruct (decide (p ∈ pointers (mjoin t))), (decide (p ∈ pointers c));
      (rewrite decide_True by (apply elem_of_pointers_app; tauto))
      || (rewrite decide_False by (rewrite elem_of_pointers_app; tauto)); done.
Qed.

Lemma destroy_buckets_blocks t m :
  owns (mjoin t) m →
  ∃ m', destroy_buckets t m = Some (tt, m')
        ∧ used m' = used m - SIZEOF_Entry * Z.of_nat (length (mjoin t))
        ∧ ∀ p, blocks m' !! p
               = if decide (p ∈ pointers (mjoin t)) then None else blocks m !! p.
Proof.
  revert m. induction t as [|c t IH]; intros m Ho.
  - exists m. split; [done|]. split; [simpl; lia|].
    intros p. by rewrite decide_False by (by intros ?%elem_of_nil).
  - change (mjoin (c :: t)) with (c ++ mjoin t) in *. simpl.
    destruct (free_chain_blocks _ _ _ Ho) as (m1 & E1 & Ho1 & Hu1 & Hb1).
    rewrite (bind_Some _ _ _ _ _ E1).
    destruct (IH _ Ho1) as (m2 & E2 & Hu2 & Hb2).
    exists m2. split; [done|]. split; [rewrite Hu2, Hu1, length_app; lia|].
    intros p. rewrite Hb2, Hb1.
    destruct (decide (p ∈ pointers (mjoin t))), (decide (p ∈ pointers c));
      (rewrite decide_True by (apply elem_of_pointers_app; tauto))
      || (rewrite decide_False by (rewrite elem_of_pointers_app; tauto)); done.
Qed.

(** In a store without entries every key is absent, [db_keys] returns NULL
    with [*count = 0] and [db_stats] is all zero. *)
Lemma blank_store_reads n m k c0 :
  n = Z.to_nat HASH_TABLE_SIZE →
  db_get (Some (mkDatabase (replicate n []) 0)) (Some k) m = Some (None, m)
  ∧ db_exists (Some (mkDatabase (replicate n []) 0)) (Some k) m = Some (false, m)
  ∧ db_keys (Some (mkDatabase (replicate n []) 0)) (Some c0) m
    = Some ((None, Some 0), m)
  ∧ db_stats (Some (mkDatabase (replicate n []) 0)) = mkDBStats 0 0 0 0.
Proof.
  intros Hn.
  assert (db_get (Some (mkDatabase (replicate n []) 0)) (Some k) m = Some (None, m))
    as Hget.
  { unfold db_get, bucket. cbn [table].
    rewrite lookup_replicate_2 by (rewrite Hn; apply hash_function_index). done. }
  split; [done|]. split; [by rewrite db_exists_get, Hget|]. split; [done|].
  unfold db_stats. cbn [table count]. clear. induction n; [done|]. by simpl.
Qed.

(** X11: [db_create] returns a store exactly when the allocator grants the
    [Database] struct, and NULL with nothing allocated when it refuses.
    The store returned is well formed and has [HASH_TABLE_SIZE] empty
    buckets: [db_count] is 0, every key is absent, [db_keys] returns NULL
    with [*count = 0], [db_stats] is all zero. No string block is
    touched. *)
Theorem db_create_gives_empty_store m :
  0 ≤ used m →
  ∃ r m',
    db_create m = Some (r, m') ∧ blocks m' = blocks m
    ∧ future m' = tail (future m)
    ∧ r = (if decide (grants_block m SIZEOF_Database)
           then Some (mkDatabase (replicate (Z.to_nat HASH_TABLE_SIZE) []) 0)
           else None)
    ∧ match r with
      | None => used m' = used m
      | Some d =>
          store_ok d m' ∧ used m' = used m + SIZEOF_Database
          ∧ Z.of_nat (length (table d)) = HASH_TABLE_SIZE
          ∧ entries d = [] ∧ db_count (Some d) = 0
          ∧ (∀ k, db_get (Some d) (Some k) m' = Some (None, m')
                  ∧ db_exists (Some d) (Some k) m' = Some (false, m'))
          ∧ (∀ c0, db_keys (Some d) (Some c0) m' = Some ((None, Some 0), m'))
          ∧ db_stats (Some d) = mkDBStats 0 0 0 0
      end.
Proof.
  intros Hu.
  assert (∀ b m', malloc SIZEOF_Database m = Some (b, m') →
                  future m' = tail (future m)) as Hfuture.
  { intros b m'. unfold malloc, bind, next_decision.
    destruct (future m) as [|[p|] rest] eqn:Hf; simpl.
    - intros [= <- <-]. by rewrite Hf.
    - destruct (used m + SIZEOF_Database <? 2 ^ 64); by intros [= <- <-].
    - by intros [= <- <-]. }
  unfold db_create.
  destruct (decide (grants_block m SIZEOF_Database)) as [Hg|Hg].
  - destruct (malloc_granted _ _ Hg) as (m' & E & Hb & Hu').
    rewrite (bind_Some _ _ _ _ _ E). simpl.
    eexists (Some _), m'. split; [done|]. split; [done|].
    split; [by eapply Hfuture|]. split; [done|].
    unfold empty_table.
    assert (used m' < 2 ^ 64) as Hlt.
    { unfold grants_block in Hg. destruct (future m) as [|[?|] ?]; try done. lia. }
    pose proof (λ k c0, blank_store_reads (Z.to_nat HASH_TABLE_SIZE) m' k c0 eq_refl)
      as Hreads.
    split; [apply blank_store_ok; [done|lia|done]|]. split; [done|].
    split; [cbn [table]; rewrite length_replicate; unfold HASH_TABLE_SIZE; lia|].
    split; [unfold entries; cbn [table]; apply join_replicate_nil|].
    split; [done|].
    split; [intros k; by destruct (Hreads k 0) as (? & ? & _)|].
    split; [intros c0; by destruct (Hreads ""%string c0) as (_ & _ & ? & _)|].
    by destruct (Hreads ""%string 0) as (_ & _ & _ & ?).
  - destruct (malloc_refused _ _ Hg) as (m' & E & Hb & Hu').
    rewrite (bind_Some _ _ _ _ _ E). simpl.
    exists None, m'. split; [done|]. split; [done|].
    split; [by eapply Hfuture|]. done.
Qed.

(** X12: [db_clear] on a well-formed store frees every entry and leaves a
    well-formed, reusable store with the same bucket array: [db_count] is
    0, every key is absent, [db_keys] returns NULL; exactly the string
    blocks of the former entries are freed (every other block is
    untouched) and the memory in use drops by one [Entry] per former
    entry. *)
Theorem db_clear_empties d m :
  store_ok d m →
  ∃ d' m',
    db_clear (Some d) m = Some (Some d', m')
    ∧ store_ok d' m'
    ∧ length (table d') = length (table d) ∧ entries d' = []
    ∧ db_count (Some d') = 0
    ∧ (∀ k, db_get (Some d') (Some k) m' = Some (None, m')
            ∧ db_exists (Some d') (Some k) m' = Some (false, m'))
    ∧ (∀ c0, db_keys (Some d') (Some c0) m' = Some ((None, Some 0), m'))
    ∧ (∀ p, blocks m' !! p
            = if decide (p ∈ pointers (entries d)) then None else blocks m !! p)
    ∧ used m' = used m - SIZEOF_Entry * db_count (Some d).
Proof.
  intros (Hheap & Hcount & _). pose proof (heap_ok_owns _ _ Hheap) as Howns.
  destruct (clear_buckets_blocks _ _ Howns) as (m' & E & Hu & Hb).
  destruct Hheap as (Hlen & _ & _ & Hsize & Hlt).
  exists (mkDatabase (replicate (length (table d)) []) 0), m'.
  unfold db_clear. rewrite (bind_Some _ _ _ _ _ E).
  split; [done|].
  split; [apply blank_store_ok; [done| |]; unfold SIZEOF_Entry, entries in *; lia|].
  split; [cbn [table]; by rewrite length_replicate|].
  split; [unfold entries; cbn [table]; apply join_replicate_nil|].
  split; [done|].
  pose proof (λ k c0, blank_store_reads (length (table d)) m' k c0 Hlen) as Hreads.
  split; [intros k; by destruct (Hreads k 0) as (? & ? & _)|].
  split; [intros c0; by destruct (Hreads ""%string c0) as (_ & _ & ? & _)|].
  split; [done|]. unfold db_count. rewrite Hcount. done.
Qed.

(** X13: [db_destroy] on a well-formed store completes without freeing
    anything twice or reading a dead block; it frees exactly the string
    blocks of the entries (every other block is untouched) and releases the
    entries and the [Database] struct. *)
Theorem db_destroy_releases d m :
  store_ok d m →
  ∃ m',
    db_destroy (Some d) m = Some (tt, m')
    ∧ (∀ p, blocks m' !! p
            = if decide (p ∈ pointers (entries d)) then None else blocks m !! p)
    ∧ used m' = used m - SIZEOF_Entry * db_count (Some d) - SIZEOF_Database
    ∧ 0 ≤ used m'.
Proof.
  intros (Hheap & Hcount & _). pose proof (heap_ok_owns _ _ Hheap) as Howns.
  destruct (destroy_buckets_blocks _ _ Howns) as (m' & E & Hu & Hb).
  destruct Hheap as (Hlen & _ & _ & Hsize & Hlt).
  unfold db_destroy. rewrite (bind_Some _ _ _ _ _ E).
  eexists. split; [done|]. simpl. split; [done|].
  unfold db_count, count_ok in *. rewrite Hcount. unfold entries in *.
  unfold SIZEOF_Entry, SIZEOF_Database, HASH_TABLE_SIZE in *. split; lia.
Qed.

(** ** The store keeps to its own strings *)

Lemma confined_same_blocks b0 d m m' :
  blocks m' = blocks m → confined b0 d m → confined b0 d m'.
Proof. intros Hb Hc p. specialize (Hc p). by rewrite Hb. Qed.

(** A mutation whose new pointers were dead and which frees the pointers it
    drops, touching nothing else, keeps the store confined. *)
Lemma confined_change b0 d m d' m' :
  owns (entries d) m → confined b0 d m →
  (∀ p, p ∈ pointers (entries d') →
        p ∈ pointers (entries d) ∨ blocks m !! p = None) →
  (∀ p, p ∉ pointers (entries d') →
        blocks m' !! p
        = if decide (p ∈ pointers (entries d)) then None else blocks m !! p) →
  confined b0 d' m'.
Proof.
  intros Howns Hconf Hnew Hrest p. pose proof (Hconf p) as Hp.
  destruct (decide (p ∈ pointers (entries d'))) as [Hin'|Hnin'].
  - destruct (decide (p ∈ pointers (entries d))) as [Hin|Hnin]; [done|].
    destruct (Hnew p Hin') as [?|Hdead]; [done|]. congruence.
  - rewrite (Hrest p Hnin').
    by destruct (decide (p ∈ pointers (entries d))).
Qed.

Lemma confined_set_outcome b0 d m k v d' m' :
  heap_ok d m → confined b0 d m → set_outcome d m k v true d' m' →
  confined b0 d' m'.
Proof.
  intros Hheap Hconf Hout. pose proof (heap_ok_owns _ _ Hheap) as Howns.
  inversion Hout as [|l1 e l2 nv m1 Hi Hl1 He Hnv Hb Hu
                     |c e m1 Hi Hc Hke Hve Hkv Hb Hu Hlt']; subst.
  - pose proof (entries_split _ _ _ _ _ Hi) as Hperm.
    set (R := (l1 ++ l2) ++ mjoin (delete (slot k) (table d))) in *.
    assert (∀ n, entries (mkDatabase
                   (<[slot k := l1 ++ mkEntry (key e) nv :: l2]> (table d)) n)
                 ≡ₚ mkEntry (key e) nv :: R) as Hperm'.
    { intros n. unfold entries; simpl. rewrite (join_insert _ _ _ _ Hi).
      apply split_chain_Permutation. }
    apply (confined_change b0 d m); [done..| |]; intros p Hp.
    + apply (elem_of_pointers_Permutation _ _ _ (Hperm' _)) in Hp.
      apply elem_of_pointers_cons in Hp. simpl in Hp.
      rewrite (elem_of_pointers_Permutation _ _ _ Hperm), elem_of_pointers_cons.
      destruct Hp as [->|[->|?]]; tauto.
    + rewrite (elem_of_pointers_Permutation _ _ _ (Hperm' _)),
        elem_of_pointers_cons in Hp. simpl in Hp.
      rewrite Hb.
      destruct (decide (p = value e)) as [->|Hv].
      { rewrite lookup_delete_eq. rewrite decide_True; [done|].
        rewrite (elem_of_pointers_Permutation _ _ _ Hperm), elem_of_pointers_cons.
        tauto. }
      rewrite lookup_delete_ne, lookup_insert_ne by (try done; intros <-; tauto).
      rewrite decide_False; [done|].
      rewrite (elem_of_pointers_Permutation _ _ _ Hperm), elem_of_pointers_cons.
      tauto.
  - assert (∀ n, entries (mkDatabase (<[slot k := e :: c]> (table d)) n)
                 ≡ₚ e :: entries d) as Hperm'.
    { intros n. unfold entries; simpl. rewrite (join_insert _ _ _ _ Hi).
      by rewrite (join_bucket _ _ _ Hi). }
    apply (confined_change b0 d m); [done..| |]; intros p Hp.
    + apply (elem_of_pointers_Permutation _ _ _ (Hperm' _)) in Hp.
      apply elem_of_pointers_cons in Hp. destruct Hp as [->|[->|?]]; tauto.
    + rewrite (elem_of_pointers_Permutation _ _ _ (Hperm' _)),
        elem_of_pointers_cons in Hp.
      rewrite Hb, !lookup_insert_ne by (intros <-; tauto).
      by rewrite decide_False by tauto.
Qed.

Lemma confined_delete_outcome b0 d m k d' m' :
  heap_ok d m → confined b0 d m → delete_outcome d m k true d' m' →
  confined b0 d' m'.
Proof.
  intros Hheap Hconf Hout. pose proof (heap_ok_owns _ _ Hheap) as Howns.
  inversion Hout as [|l1 e l2 Hi Hl1 He]; subst.
  pose proof (entries_split _ _ _ _ _ Hi) as Hperm.
  set (R := (l1 ++ l2) ++ mjoin (delete (slot k) (table d))) in *.
  assert (∀ n, entries (mkDatabase (<[slot k := l1 ++ l2]> (table d)) n) ≡ₚ R)
    as Hperm'
    by (intros n; unfold entries; simpl; by rewrite (join_insert _ _ _ _ Hi)).
  apply (confined_change b0 d m); [done..| |]; intros p Hp.
  - apply (elem_of_pointers_Permutation _ _ _ (Hperm' _)) in Hp.
    rewrite (elem_of_pointers_Permutation _ _ _ Hperm), elem_of_pointers_cons.
    tauto.
  - rewrite (elem_of_pointers_Permutation _ _ _ (Hperm' _)) in Hp. simpl.
    destruct (decide (p = value e)) as [->|Hv].
    { rewrite lookup_delete_eq. rewrite decide_True; [done|].
      rewrite (elem_of_pointers_Permutation _ _ _ Hperm), elem_of_pointers_cons.
      tauto. }
    rewrite lookup_delete_ne by done.
    destruct (decide (p = key e)) as [->|Hk].
    { rewrite lookup_delete_eq. rewrite decide_True; [done|].
      rewrite (elem_of_pointers_Permutation _ _ _ Hperm), elem_of_pointers_cons.
      tauto. }
    rewrite lookup_delete_ne by done.
    rewrite decide_False; [done|].
    rewrite (elem_of_pointers_Permutation _ _ _ Hperm), elem_of_pointers_cons.
    tauto.
Qed.

(** A call keeps the store well-formed and confined. *)
Lemma step_keeps b0 o d m d' m' :
  store_ok d m → confined b0 d m →
  step o d m = Some (Some d', m') →
  store_ok d' m' ∧ confined b0 d' m'.
Proof.
  intros Hok Hconf Hstep. pose proof Hok as [Hheap _].
  destruct o as [k v|k|k|k| | | |]; unfold step in Hstep.
  - apply bind_inv in Hstep as ([r db'] & m1 & Hset & [= -> ->]).
    destruct (db_set_cases _ _ _ _ _ _ _ Hok Hset)
      as [(-> & [= <-] & Hsame)|(-> & d0 & [= <-] & Hok' & Hout)].
    + split; [by eapply store_ok_same_data|].
      eapply confined_same_blocks; [apply Hsame|done].
    + split; [done|]. by eapply confined_set_outcome.
  - apply bind_inv in Hstep as (q & m1 & Hget & [= <- <-]).
    by destruct (get_result_entry _ _ _ _ _ Hok Hget) as [-> _].
  - apply bind_inv in Hstep as ([r db'] & m1 & Hdel & [= -> ->]).
    destruct (db_delete_cases _ _ _ _ _ _ Hok Hdel) as (d0 & [= <-] & Hok' & Hout).
    split; [done|]. destruct r.
    + by eapply confined_delete_outcome.
    + by inversion Hout; subst.
  - apply bind_inv in Hstep as (q & m1 & Hex & [= <- <-]).
    rewrite db_exists_get in Hex.
    destruct (db_get_total d m k Hheap) as [q' Hget]. rewrite Hget in Hex.
    by injection Hex as <- <-.
  - by injection Hstep as <- <-.
  - destruct (clear_buckets_blocks _ _ (heap_ok_owns _ _ Hheap)) as (m1 & E & Hu & Hb).
    unfold db_clear in Hstep. rewrite (bind_Some _ _ _ _ _ E) in Hstep.
    injection Hstep as <- <-.
    destruct Hheap as (Hlen & _ & _ & Hsize & Hlt).
    split; [apply blank_store_ok; [done| |]; unfold SIZEOF_Entry, entries in *; lia|].
    intros p.
    destruct (decide (p ∈ pointers (entries
                (mkDatabase (replicate (length (table d)) []) 0)))) as [Hin|_].
    { unfold entries in Hin. cbn [table] in Hin.
      rewrite join_replicate_nil in Hin. by apply elem_of_nil in Hin. }
    rewrite Hb. specialize (Hconf p). unfold entries in Hconf.
    destruct (decide (p ∈ pointers (mjoin (table d))));
      [rewrite decide_True by done|rewrite decide_False by done];
      first [exact Hconf|symmetry; exact Hconf].
  - destruct (db_keys_spec _ _ 0 Hok) as (r & m1 & E & Hb & Hu & _).
    rewrite (bind_Some _ _ _ _ _ E) in Hstep. injection Hstep as <- <-.
    split; [by eapply store_ok_grow|]. by eapply confined_same_blocks.
  - by injection Hstep as <- <-.
Qed.

Lemma run_keeps b0 os d m d' m' :
  store_ok d m → confined b0 d m →
  run os d m = Some (Some d', m') →
  store_ok d' m' ∧ confined b0 d' m'.
Proof.
  revert d m. induction os as [|o os IH]; intros d m Hok Hconf Hrun; simpl in Hrun.
  - by injection Hrun as <- <-.
  - apply bind_inv in Hrun as (r & m1 & Hstep & Hrun).
    destruct r as [d1|]; [|done].
    destruct (step_keeps _ _ _ _ _ _ Hok Hconf Hstep) as [Hok1 Hconf1].
    by eapply IH.
Qed.

(** X14: the store neither leaks nor touches foreign memory. From
    [db_create], through any sequence of calls of the API, the string
    blocks outside the store stay exactly as they were when the store was
    created, and [db_destroy] then returns the string heap to that state:
    every block the store allocated has been freed, once. *)
Theorem lifecycle_restores_strings m0 d1 m1 os d2 m2 :
  0 ≤ used m0 →
  db_create m0 = Some (Some d1, m1) →
  run os d1 m1 = Some (Some d2, m2) →
  (∀ p, p ∉ pointers (entries d2) → blocks m2 !! p = blocks m0 !! p)
  ∧ (∀ p, p ∈ pointers (entries d2) →
          blocks m0 !! p = None ∧ is_Some (blocks m2 !! p))
  ∧ ∃ m3, db_destroy (Some d2) m2 = Some (tt, m3) ∧ blocks m3 = blocks m0.
Proof.
  intros Hu Hcreate Hrun.
  destruct (db_create_ok m0 Hu) as (r & m1' & E & Hb & Hr).
  rewrite E in Hcreate. injection Hcreate as -> ->.
  destruct Hr as [-> Hok1].
  assert (confined (blocks m0) (mkDatabase empty_table 0) m1) as Hconf1.
  { intros p.
    destruct (decide (p ∈ pointers (entries (mkDatabase empty_table 0))))
      as [Hin|_]; [|by rewrite Hb].
    unfold entries, empty_table in Hin. cbn [table] in Hin.
    rewrite join_replicate_nil in Hin. by apply elem_of_nil in Hin. }
  destruct (run_keeps _ _ _ _ _ _ Hok1 Hconf1 Hrun) as [Hok2 Hconf2].
  pose proof (heap_ok_owns _ _ (proj1 Hok2)) as Howns.
  split; [|split].
  - intros p Hp. specialize (Hconf2 p). by rewrite decide_False in Hconf2.
  - intros p Hp. specialize (Hconf2 p). rewrite decide_True in Hconf2 by done.
    split; [done|]. by eapply owns_live.
  - destruct (destroy_buckets_blocks _ _ Howns) as (m3 & E3 & _ & Hb3).
    unfold db_destroy. rewrite (bind_Some _ _ _ _ _ E3).
    eexists. split; [done|]. simpl. apply map_eq. intros p.
    rewrite Hb3. specialize (Hconf2 p). unfold entries in Hconf2.
    destruct (decide (p ∈ pointers (mjoin (table d2))));
      [rewrite ?decide_True in * by done|rewrite ?decide_False in * by done];
      first [exact Hconf2|symmetry; exact Hconf2].
Qed.

End store_contents.

(** * The linked list *)

Section linked_list.
Import LinkedList.

Implicit Types (h : gmap addr Node) (l : cells) (p q : option addr) (w : World).

(** ** The monad and the heap primitives *)

Lemma ll_bind_val {A B} (c : L A) (k : A → L B) w a w' :
  c w = Val a w' → bind c k w = k a w'.
Proof. unfold bind. by intros ->. Qed.

Lemma ll_load_live a n w : nodes w !! a = Some n → load (Some a) w = Val n w.
Proof. unfold load. by intros ->. Qed.

Lemma ll_store_live a n n' w :
  nodes w !! a = Some n →
  store (Some a) n' w
  = Val tt (mkWorld (<[a := n']> (nodes w)) (answers w) (stdout w)).
Proof. unfold store. by intros ->. Qed.

Lemma ll_set_next_live a n q w :
  nodes w !! a = Some n →
  set_next (Some a) q w
  = Val tt (mkWorld (<[a := mkNode (data n) q]> (nodes w)) (answers w) (stdout w)).
Proof.
  intros Ha. unfold set_next.
  rewrite (ll_bind_val _ _ _ _ _ (ll_load_live _ _ _ Ha)).
  by apply ll_store_live with n.
Qed.

Lemma ll_set_data_live a n d w :
  nodes w !! a = Some n →
  set_data (Some a) d w
  = Val tt (mkWorld (<[a := mkNode d (next n)]> (nodes w)) (answers w) (stdout w)).
Proof.
  intros Ha. unfold set_data.
  rewrite (ll_bind_val _ _ _ _ _ (ll_load_live _ _ _ Ha)).
  by apply ll_store_live with n.
Qed.

Lemma ll_free_live a n w :
  nodes w !! a = Some n →
  free (Some a) w
  = Val tt (mkWorld (delete a (nodes w)) (answers w) (stdout w)).
Proof. unfold free. by intros ->. Qed.

Lemma ll_world_eta w : mkWorld (nodes w) (answers w) (stdout w) = w.
Proof. by destruct w. Qed.

(** ** Chains of cells *)

Lemma ptr_of_app l1 l2 q : ptr_of (l1 ++ l2) q = ptr_of l1 (ptr_of l2 q).
Proof. by destruct l1. Qed.

Lemma lseg_app h l1 l2 q :
  lseg h (l1 ++ l2) q ↔ lseg h l1 (ptr_of l2 q) ∧ lseg h l2 q.
Proof.
  induction l1 as [|x l1 IH]; simpl; [tauto|].
  rewrite IH, ptr_of_app. tauto.
Qed.

Lemma lseg_frame h h' l q :
  (∀ a, a ∈ l.*1 → h' !! a = h !! a) → lseg h l q → lseg h' l q.
Proof.
  induction l as [|x l IH]; simpl; [done|]. intros Hf [Hx Hl]. split.
  - rewrite Hf; [done|]. apply elem_of_cons. by left.
  - apply IH; [|done]. intros a Ha. apply Hf. apply elem_of_cons. by right.
Qed.

Lemma lseg_insert_ne h l q a n :
  a ∉ l.*1 → lseg h l q → lseg (<[a := n]> h) l q.
Proof.
  intros Ha. apply lseg_frame. intros b Hb.
  apply lookup_insert_ne. by intros ->.
Qed.

Lemma lseg_delete_ne h l q a :
  a ∉ l.*1 → lseg h l q → lseg (delete a h) l q.
Proof.
  intros Ha. apply lseg_frame. intros b Hb.
  apply lookup_delete_ne. by intros ->.
Qed.

Lemma lseg_live h l q a : lseg h l q → a ∈ l.*1 → is_Some (h !! a).
Proof.
  induction l as [|x l IH]; simpl; intros Hl Ha.
  - by apply elem_of_nil in Ha.
  - destruct Hl as [Hx Hl]. apply elem_of_cons in Ha as [->|Ha]; eauto.
Qed.

Lemma lseg_inj h l1 l2 :
  lseg h l1 None → lseg h l2 None → ptr_of l1 None = ptr_of l2 None → l1 = l2.
Proof.
  revert l2. induction l1 as [|[a d] l1 IH]; intros [|[b e] l2]; simpl; try done.
  intros [H1 Hl1] [H2 Hl2] [= ->]. rewrite H1 in H2.
  injection H2 as -> Hp. f_equal. by apply IH.
Qed.

Lemma lseg_NoDup h l : lseg h l None → NoDup l.*1.
Proof.
  induction l as [|[a d] l IH]; simpl; intros Hl; [constructor|].
  destruct Hl as [Ha Hl]. constructor; [|by apply IH].
  intros Hin. apply list_elem_of_fmap in Hin as ([a' d'] & Heq & Hin).
  simpl in Heq. subst a'.
  apply list_elem_of_split in Hin as (l1 & l2 & ->).
  pose proof Hl as Hl'. apply lseg_app in Hl' as [_ Hl2].
  assert ((a, d) :: l1 ++ (a, d') :: l2 = (a, d') :: l2) as Heq.
  { apply (lseg_inj h); [by split|done|done]. }
  apply (f_equal length) in Heq. simpl in Heq.
  rewrite length_app in Heq. simpl in Heq. lia.
Qed.

Lemma is_list_NoDup h p l : is_list h p l → NoDup l.*1.
Proof. intros [_ Hl]. by eapply lseg_NoDup. Qed.

Lemma is_list_inj h p l1 l2 : is_list h p l1 → is_list h p l2 → l1 = l2.
Proof. intros [-> H1] [Hp H2]. by apply (lseg_inj h). Qed.

Lemma NoDup_fmap_fst_eq l (x y : addr * Z) :
  NoDup l.*1 → y ∈ l → x ∈ l → y.1 = x.1 → y = x.
Proof.
  intros Hnd Hy Hx Heq.
  apply list_elem_of_lookup in Hy as [i Hi]. apply list_elem_of_lookup in Hx as [j Hj].
  assert (i = j) as ->; [|congruence].
  apply (NoDup_lookup l.*1 i j y.1); [done|..]; rewrite list_lookup_fmap.
  - by rewrite Hi.
  - by rewrite Hj, Heq.
Qed.

(** ** Traversals that only read *)

Lemma getListLength_walk_spec fuel l c w :
  lseg (nodes w) l None → (length l ≤ fuel)%nat → 0 ≤ c ≤ INT_MAX →
  getListLength_walk fuel (ptr_of l None) c w
  = if decide (c + Z.of_nat (length l) ≤ INT_MAX)
    then Val (c + Z.of_nat (length l)) w else Fault.
Proof.
  revert fuel c. induction l as [|[a d] l IH]; intros fuel c Hl Hfuel Hc.
  - rewrite decide_True by (simpl; lia).
    destruct fuel; simpl; unfold ret; f_equal; lia.
  - destruct fuel as [|fuel]; [simpl in Hfuel; lia|].
    destruct Hl as [Ha Hl]. simpl in Ha, Hfuel |- *.
    destruct (Z.eqb_spec c INT_MAX) as [->|Hne].
    + rewrite decide_False by lia. done.
    + rewrite (ll_bind_val _ _ _ _ _ (ll_load_live _ _ _ Ha)). simpl.
      rewrite IH by (done || lia).
      destruct (decide (c + 1 + Z.of_nat (length l) ≤ INT_MAX));
        [rewrite decide_True by lia|rewrite decide_False by lia];
        [f_equal; lia|done].
Qed.

Lemma search_walk_spec fuel l t pos w :
  lseg (nodes w) l None → (length l ≤ fuel)%nat →
  0 ≤ pos → pos + Z.of_nat (length l) ≤ INT_MAX →
  search_walk fuel (ptr_of l None) t pos w
  = Val (match list_find (λ d, d = t) l.*2 with
         | Some (i, _) => pos + Z.of_nat i
         | None => -1
         end) w.
Proof.
  revert fuel pos. induction l as [|[a d] l IH]; intros fuel pos Hl Hfuel Hpos Hmax.
  - by destruct fuel.
  - destruct fuel as [|fuel]; [simpl in Hfuel; lia|].
    destruct Hl as [Ha Hl]. cbn [fst snd length] in Ha, Hfuel, Hmax.
    rewrite fmap_cons. cbn [search_walk ptr_of fst snd list_find].
    rewrite (ll_bind_val _ _ _ _ _ (ll_load_live _ _ _ Ha)). cbn [data next].
    destruct (Z.eqb_spec d t) as [->|Hne].
    + rewrite decide_True by done. unfold ret. f_equal. lia.
    + rewrite decide_False by done.
      destruct (Z.eqb_spec pos INT_MAX) as [->|_]; [lia|].
      rewrite IH by (done || lia).
      destruct (list_find (λ d0, d0 = t) l.*2) as [[i x]|]; simpl; [|done].
      f_equal. lia.
Qed.

Lemma display_walk_spec fuel l w :
  lseg (nodes w) l None → (length l ≤ fuel)%nat →
  display_walk fuel (ptr_of l None) w
  = Val tt (mkWorld (nodes w) (answers w)
              (stdout w ++ ((λ d, pretty d +:+ " -> ") <$> l.*2))).
Proof.
  revert fuel w. induction l as [|[a d] l IH]; intros fuel w Hl Hfuel.
  - simpl. rewrite app_nil_r, ll_world_eta. by destruct fuel.
  - destruct fuel as [|fuel]; [simpl in Hfuel; lia|].
    destruct Hl as [Ha Hl]. simpl in Ha, Hfuel |- *.
    rewrite (ll_bind_val _ _ _ _ _ (ll_load_live _ _ _ Ha)). simpl.
    unfold bind at 1, printf at 1.
    rewrite IH by (done || lia). simpl.
    by rewrite <- app_assoc.
Qed.

Lemma freeList_walk_spec fuel l w :
  lseg (nodes w) l None → (length l ≤ fuel)%nat →
  ∃ w', freeList_walk fuel (ptr_of l None) w = Val tt w'
        ∧ (∀ a, nodes w' !! a
                = if decide (a ∈ l.*1) then None else nodes w !! a)
        ∧ answers w' = answers w ∧ stdout w' = stdout w.
Proof.
  revert fuel w. induction l as [|[a d] l IH]; intros fuel w Hl Hfuel.
  - exists w. split; [by destruct fuel|]. split; [|done].
    intros a. rewrite decide_False; [done|]. apply not_elem_of_nil.
  - destruct fuel as [|fuel]; [simpl in Hfuel; lia|].
    pose proof (lseg_NoDup _ _ Hl) as Hnd. rewrite fmap_cons in Hnd.
    cbn [fst] in Hnd. apply NoDup_cons in Hnd as [Hnotin _].
    destruct Hl as [Ha Hl]. cbn [fst snd length] in Ha, Hfuel.
    rewrite fmap_cons. cbn [freeList_walk ptr_of fst].
    rewrite (ll_bind_val _ _ _ _ _ (ll_load_live _ _ _ Ha)).
    rewrite (ll_bind_val _ _ _ _ _ (ll_free_live _ _ _ Ha)). cbn [next].
    destruct (IH fuel (mkWorld (delete a (nodes w)) (answers w) (stdout w)))
      as (w' & E & Hn & Ha' & Hs); [by apply lseg_delete_ne|lia|].
    exists w'. split; [done|]. split; [|done].
    intros b. rewrite Hn. cbn [nodes].
    destruct (decide (b = a)) as [->|Hne].
    + rewrite (decide_True (P := a ∈ a :: l.*1)) by (apply elem_of_cons; by left).
      rewrite lookup_delete_eq. by destruct (decide (a ∈ l.*1)).
    + rewrite lookup_delete_ne by done.
      destruct (decide (b ∈ l.*1)) as [Hin|Hout].
      * rewrite decide_True; [done|]. apply elem_of_cons. by right.
      * rewrite decide_False; [done|]. intros [?|?]%elem_of_cons; done.
Qed.

(** ** Allocation *)

Lemma grant_Some w a :
  grant w = Some a →
  valid_addr a = true ∧ nodes w !! a = None
  ∧ ∃ rest, answers w = Some a :: rest.
Proof.
  unfold grant. destruct (answers w) as [|[p|] rest]; try done.
  destruct (valid_addr p) eqn:Hv; [|done]. simpl.
  case_bool_decide; [|done]. intros [= ->]. eauto.
Qed.

Lemma grant_fresh w a l q :
  grant w = Some a → lseg (nodes w) l q → a ∉ l.*1.
Proof.
  intros (_ & Hdead & _)%grant_Some Hl Hin.
  destruct (lseg_live _ _ _ _ Hl Hin) as [n Hn]. congruence.
Qed.

Lemma createNode_spec d w :
  createNode d w
  = match grant w with
    | Some a =>
        Val (Some a) (mkWorld (<[a := mkNode d None]> (nodes w))
                        (tail (answers w)) (stdout w))
    | None =>
        Val None (mkWorld (nodes w) (tail (answers w))
                    (stdout w ++ ["Memory allocation failed!" +:+ nl]))
    end.
Proof.
  unfold createNode, grant. unfold bind at 1. unfold malloc.
  destruct (answers w) as [|[p|] rest] eqn:E;
    [by unfold bind, printf, ret; cbn; rewrite E| |done].
  destruct (valid_addr p && bool_decide (nodes w !! p = None)); [|done].
  erewrite ll_bind_val; [|by eapply ll_set_data_live, lookup_insert_eq].
  erewrite ll_bind_val; [|by eapply ll_set_next_live, lookup_insert_eq].
  cbn [nodes answers stdout data tail]. unfold ret.
  by rewrite !insert_insert_eq.
Qed.

Lemma createNode_granted d w a :
  grant w = Some a →
  createNode d w
  = Val (Some a) (mkWorld (<[a := mkNode d None]> (nodes w))
                    (tail (answers w)) (stdout w)).
Proof. intros Hg. by rewrite createNode_spec, Hg. Qed.

Lemma createNode_refused d w :
  grant w = None →
  createNode d w
  = Val None (mkWorld (nodes w) (tail (answers w))
                (stdout w ++ ["Memory allocation failed!" +:+ nl])).
Proof. intros Hg. by rewrite createNode_spec, Hg. Qed.

(** ** Insertion *)

Lemma ptr_of_snoc l x q : ∃ b, ptr_of (l ++ [x]) q = Some b.
Proof. destruct l; simpl; eauto. Qed.

Lemma insertEnd_walk_spec fuel l x w :
  lseg (nodes w) (l ++ [x]) None → (length l ≤ fuel)%nat →
  insertEnd_walk fuel (ptr_of (l ++ [x]) None) w = Val (Some x.1) w.
Proof.
  revert fuel. induction l as [|y l IH]; intros fuel Hl Hfuel.
  - destruct Hl as [Hx _]. cbn [app ptr_of] in *.
    destruct fuel; cbn [insertEnd_walk];
      by rewrite (ll_bind_val _ _ _ _ _ (ll_load_live _ _ _ Hx)).
  - destruct fuel as [|fuel]; [simpl in Hfuel; lia|].
    rewrite <- app_comm_cons in *. destruct Hl as [Hy Hl].
    cbn [insertEnd_walk ptr_of length] in *.
    rewrite (ll_bind_val _ _ _ _ _ (ll_load_live _ _ _ Hy)). cbn [next].
    destruct (ptr_of_snoc l x None) as [b Hb]. rewrite Hb, <- Hb.
    apply IH; [done|lia].
Qed.

Lemma insertEnd_granted fuel w l d a :
  lseg (nodes w) l None → (length l ≤ fuel)%nat → grant w = Some a →
  insertEnd fuel (ptr_of l None) d w
  = Val (ptr_of (l ++ [(a, d)]) None)
      (mkWorld (link_last l a (<[a := mkNode d None]> (nodes w)))
         (tail (answers w)) (stdout w)).
Proof.
  intros Hl Hfuel Hg. unfold insertEnd.
  rewrite (ll_bind_val _ _ _ _ _ (createNode_granted d w a Hg)).
  pose proof (grant_fresh _ _ _ _ Hg Hl) as Hfresh.
  destruct (decide (l = [])) as [->|Hne]; [done|].
  destruct (exists_last Hne) as (l0 & x & ->).
  destruct (ptr_of_snoc l0 x None) as [b Hb]. rewrite Hb, <- Hb.
  erewrite ll_bind_val; cycle 1.
  { apply insertEnd_walk_spec; [|rewrite length_app in Hfuel; simpl in Hfuel; lia].
    cbn [nodes]. by apply lseg_insert_ne. }
  assert (nodes (mkWorld (<[a := mkNode d None]> (nodes w)) (tail (answers w)) (stdout w))
          !! x.1 = Some (mkNode x.2 None)) as Hx.
  { cbn [nodes]. rewrite lookup_insert_ne.
    - apply lseg_app in Hl as [_ [Hx _]]. done.
    - intros ->. apply Hfresh. rewrite fmap_app. apply elem_of_app. right.
      apply elem_of_cons. by left. }
  rewrite (ll_bind_val _ _ _ _ _ (ll_set_next_live _ _ _ _ Hx)).
  unfold ret, link_last. rewrite last_snoc. cbn [nodes answers stdout data].
  by rewrite <- app_assoc, !ptr_of_app.
Qed.

Lemma insertEnd_refused fuel w p d :
  grant w = None →
  insertEnd fuel p d w
  = Val p (mkWorld (nodes w) (tail (answers w))
             (stdout w ++ ["Memory allocation failed!" +:+ nl])).
Proof.
  intros Hg. unfold insertEnd.
  by rewrite (ll_bind_val _ _ _ _ _ (createNode_refused d w Hg)).
Qed.

Lemma link_last_lseg h l a d :
  lseg h l None → a ∉ l.*1 →
  lseg (link_last l a (<[a := mkNode d None]> h)) (l ++ [(a, d)]) None.
Proof.
  intros Hl Hfresh. pose proof (lseg_NoDup _ _ Hl) as Hnd.
  unfold link_last. destruct (decide (l = [])) as [->|Hne].
  - simpl. by rewrite lookup_insert_eq.
  - destruct (exists_last Hne) as (l0 & x & ->). rewrite last_snoc.
    rewrite fmap_app in Hnd, Hfresh. apply NoDup_app in Hnd as (_ & Hdisj & _).
    apply not_elem_of_app in Hfresh as [Hf0 Hfx].
    apply lseg_app in Hl as [Hl0 [Hx _]]. cbn [ptr_of] in Hl0.
    rewrite <- app_assoc. apply lseg_app. split.
    + cbn [app ptr_of fst]. apply lseg_insert_ne.
      { intros Hin. apply (Hdisj _ Hin). apply elem_of_cons. by left. }
      by apply lseg_insert_ne.
    + cbn [app lseg ptr_of fst snd]. rewrite lookup_insert_eq.
      split; [done|]. split; [|done].
      rewrite lookup_insert_ne; [by rewrite lookup_insert_eq|].
      intros Heq. apply Hfx. rewrite <- Heq. apply elem_of_cons. by left.
Qed.

Lemma link_last_frame h l a n b :
  b ∉ (l.*1 ++ [a]) → link_last l a (<[a := n]> h) !! b = h !! b.
Proof.
  intros [Hb Ha]%not_elem_of_app. unfold link_last.
  assert (b ≠ a) by (intros ->; apply Ha, elem_of_cons; by left).
  destruct (last l) as [x|] eqn:Hlast.
  - rewrite !lookup_insert_ne; [done|congruence|].
    intros <-. apply Hb. apply list_elem_of_fmap. exists x. split; [done|].
    apply last_Some in Hlast as [l' ->]. apply elem_of_app. right.
    apply elem_of_cons. by left.
  - by rewrite lookup_insert_ne.
Qed.

(** ** Deletion *)

Lemma deleteNode_walk_spec fuel head c rest d w :
  lseg (nodes w) (c :: rest) None → (length rest ≤ fuel)%nat →
  ∃ w', deleteNode_walk fuel head (Some c.1) d w = Val head w'
    ∧ answers w' = answers w
    ∧ (∀ b, b ∉ (c :: rest).*1 → nodes w' !! b = nodes w !! b)
    ∧ match list_find (λ x, x.2 = d) rest with
      | Some (i, x) =>
          lseg (nodes w') (c :: delete i rest) None
          ∧ nodes w' !! x.1 = None
          ∧ stdout w' = stdout w
              ++ ["Element " +:+ pretty d +:+ " deleted successfully." +:+ nl]
      | None =>
          nodes w' = nodes w
          ∧ stdout w' = stdout w
              ++ ["Element " +:+ pretty d +:+ " not found in the list!" +:+ nl]
      end.
Proof.
  revert fuel c w. induction rest as [|y rest IH]; intros fuel c w Hl Hfuel.
  - destruct Hl as [Hc _]. cbn [ptr_of] in Hc.
    eexists. split.
    { destruct fuel; cbn [deleteNode_walk];
        by rewrite (ll_bind_val _ _ _ _ _ (ll_load_live _ _ _ Hc)). }
    done.
  - destruct fuel as [|fuel]; [simpl in Hfuel; lia|].
    pose proof (lseg_NoDup _ _ Hl) as Hnd. rewrite !fmap_cons in Hnd.
    apply NoDup_cons in Hnd as [Hc_out Hnd].
    apply not_elem_of_cons in Hc_out as [Hcy Hc_out].
    apply NoDup_cons in Hnd as [Hy_out Hnd].
    destruct Hl as [Hc [Hy Hl]]. cbn [ptr_of length] in Hc, Hy, Hfuel.
    cbn [deleteNode_walk list_find].
    rewrite (ll_bind_val _ _ _ _ _ (ll_load_live _ _ _ Hc)). cbn [next].
    rewrite (ll_bind_val _ _ _ _ _ (ll_load_live _ _ _ Hy)). cbn [next data].
    destruct (Z.eqb_spec y.2 d) as [Heq|Hne].
    + rewrite decide_True by done.
      rewrite (ll_bind_val _ _ _ _ _ (ll_set_next_live _ _ _ _ Hc)).
      erewrite ll_bind_val; cycle 1.
      { eapply ll_free_live. cbn [nodes]. by rewrite lookup_insert_ne. }
      eexists. split; [done|]. cbn [nodes answers stdout data]. split; [done|].
      split.
      { intros b Hb. rewrite !fmap_cons in Hb.
        apply not_elem_of_cons in Hb as [Hbc Hb].
        apply not_elem_of_cons in Hb as [Hby Hb].
        rewrite lookup_delete_ne by done. by rewrite lookup_insert_ne. }
      split; [|split; [apply lookup_delete_eq|done]].
      cbn [delete list_delete lseg]. split.
      * rewrite lookup_delete_ne by done. by rewrite lookup_insert_eq.
      * apply lseg_delete_ne; [done|]. by apply lseg_insert_ne.
    + rewrite decide_False by done.
      destruct (IH fuel y w) as (w' & E & Hans & Hframe & Hcase);
        [done|lia|].
      exists w'. split; [done|]. split; [done|].
      assert (nodes w' !! c.1 = nodes w !! c.1) as Hc'.
      { apply Hframe. rewrite fmap_cons. apply not_elem_of_cons. done. }
      split.
      { intros b Hb. apply Hframe. rewrite !fmap_cons in Hb.
        by apply not_elem_of_cons in Hb as [_ Hb]. }
      destruct (list_find (λ x, x.2 = d) rest) as [[i x]|]; [|done].
      destruct Hcase as (Hl' & Hx & Hout).
      cbn [fmap option_fmap option_map prod_map fst snd id delete list_delete].
      split; [|done]. split; [|done]. by rewrite Hc'.
Qed.

(** X17: [deleteNode] removes the first node that holds the value, and only
    that one: the list afterwards is the old one without its first
    occurrence of [d], that node is freed, and one line is printed that
    tells which of the three cases it was. *)
Theorem deleteNode_removes_first fuel w p l d :
  is_list (nodes w) p l → (length l ≤ fuel)%nat →
  ∃ w' l',
    deleteNode fuel p d w = Val (ptr_of l' None) w'
    ∧ is_list (nodes w') (ptr_of l' None) l'
    ∧ answers w' = answers w
    ∧ (∀ b, b ∉ l.*1 → nodes w' !! b = nodes w !! b)
    ∧ match list_find (λ x, x.2 = d) l with
      | Some (i, x) =>
          l' = delete i l ∧ nodes w' !! x.1 = None
          ∧ stdout w' = stdout w
              ++ ["Element " +:+ pretty d +:+ " deleted successfully." +:+ nl]
      | None =>
          l' = l ∧ nodes w' = nodes w
          ∧ stdout w' = stdout w
              ++ [if decide (l = []) then "List is empty!" +:+ nl
                  else "Element " +:+ pretty d +:+ " not found in the list!" +:+ nl]
      end.
Proof.
  intros [-> Hl] Hfuel. destruct l as [|c rest].
  - eexists _, []. split; [done|]. done.
  - pose proof (lseg_NoDup _ _ Hl) as Hnd. rewrite fmap_cons in Hnd.
    apply NoDup_cons in Hnd as [Hc_out Hnd].
    pose proof Hl as [Hc Hrest]. cbn [ptr_of deleteNode list_find].
    rewrite (ll_bind_val _ _ _ _ _ (ll_load_live _ _ _ Hc)). cbn [data next].
    destruct (Z.eqb_spec c.2 d) as [Heq|Hne].
    + rewrite decide_True by done.
      rewrite (ll_bind_val _ _ _ _ _ (ll_free_live _ _ _ Hc)).
      eexists _, rest. split; [done|]. cbn [nodes answers stdout].
      split; [split; [done|by apply lseg_delete_ne]|]. split; [done|].
      split; [|split; [done|split; [apply lookup_delete_eq|done]]].
      intros b Hb. rewrite fmap_cons in Hb.
      apply not_elem_of_cons in Hb as [Hbc _]. by rewrite lookup_delete_ne.
    + rewrite decide_False by done.
      destruct (deleteNode_walk_spec fuel (Some c.1) c rest d w)
        as (w' & E & Hans & Hframe & Hcase); [done|simpl in Hfuel; lia|].
      destruct (list_find (λ x, x.2 = d) rest) as [[i x]|].
      * destruct Hcase as (Hl' & Hx & Hout).
        exists w', (c :: delete i rest). split; [done|].
        split; [by split|]. split; [done|]. split; [done|]. done.
      * destruct Hcase as [Hn Hout].
        exists w', (c :: rest). split; [done|].
        split; [split; [done|by rewrite Hn]|]. split; [done|]. split; [done|].
        rewrite decide_False by done. done.
Qed.

(** ** Reversal *)

Lemma lseg_agree h h' l q b :
  lseg h l q → lseg h' l q → b ∈ l.*1 → h !! b = h' !! b.
Proof.
  induction l as [|x l IH]; intros Hl Hl' Hb.
  - by apply elem_of_nil in Hb.
  - destruct Hl as [Hx Hl], Hl' as [Hx' Hl']. rewrite fmap_cons in Hb.
    apply elem_of_cons in Hb as [->|Hb]; [congruence|by apply IH].
Qed.

Lemma reverseList_walk_spec fuel acc todo w :
  lseg (nodes w) acc None → lseg (nodes w) todo None →
  NoDup (acc ++ todo).*1 → (length todo ≤ fuel)%nat →
  ∃ w', reverseList_walk fuel (ptr_of acc None) (ptr_of todo None) w
        = Val (ptr_of (reverse todo ++ acc) None) w'
    ∧ lseg (nodes w') (reverse todo ++ acc) None
    ∧ (∀ b, b ∉ todo.*1 → nodes w' !! b = nodes w !! b)
    ∧ answers w' = answers w ∧ stdout w' = stdout w.
Proof.
  revert fuel acc w.
  induction todo as [|x todo IH]; intros fuel acc w Hacc Htodo Hnd Hfuel.
  - exists w. split; [by destruct fuel|]. done.
  - destruct fuel as [|fuel]; [simpl in Hfuel; lia|].
    rewrite fmap_app, fmap_cons in Hnd.
    apply NoDup_app in Hnd as (Hnd_acc & Hdisj & Hnd_todo).
    apply NoDup_cons in Hnd_todo as [Hx_out Hnd_todo].
    assert (x.1 ∉ acc.*1) as Hx_acc.
    { intros Hin. apply (Hdisj _ Hin). apply elem_of_cons. by left. }
    destruct Htodo as [Hx Htodo]. cbn [ptr_of length] in Hfuel |- *.
    cbn [reverseList_walk].
    rewrite (ll_bind_val _ _ _ _ _ (ll_load_live _ _ _ Hx)).
    rewrite (ll_bind_val _ _ _ _ _ (ll_set_next_live _ _ _ _ Hx)). cbn [next data].
    destruct (IH fuel (x :: acc)
                (mkWorld (<[x.1 := mkNode x.2 (ptr_of acc None)]> (nodes w))
                   (answers w) (stdout w)))
      as (w' & E & Hl' & Hframe & Hans & Hout).
    { cbn [nodes lseg ptr_of]. rewrite lookup_insert_eq.
      split; [done|]. by apply lseg_insert_ne. }
    { cbn [nodes]. by apply lseg_insert_ne. }
    { rewrite fmap_app, fmap_cons. apply NoDup_app. split; [|split].
      - by apply NoDup_cons.
      - intros b [->|Hb]%elem_of_cons; [done|].
        intros Hin. apply (Hdisj _ Hb). apply elem_of_cons. by right.
      - done. }
    { lia. }
    cbn [ptr_of] in E. exists w'. rewrite reverse_cons, <- app_assoc.
    split; [done|]. split; [done|]. split; [|done].
    intros b Hb. rewrite fmap_cons in Hb.
    apply not_elem_of_cons in Hb as [Hbx Hb].
    rewrite Hframe by done. cbn [nodes]. by rewrite lookup_insert_ne.
Qed.

(** X19: [reverseList] relinks the nodes in the opposite order, in place: it
    allocates and prints nothing, the nodes keep their addresses and data,
    nothing outside the list changes, and reversing the result brings
    back the very heap it started from. *)
Theorem reverseList_reverses fuel w p l :
  is_list (nodes w) p l → (length l ≤ fuel)%nat →
  ∃ w', reverseList fuel p w = Val (ptr_of (reverse l) None) w'
    ∧ is_list (nodes w') (ptr_of (reverse l) None) (reverse l)
    ∧ (∀ b, b ∉ l.*1 → nodes w' !! b = nodes w !! b)
    ∧ answers w' = answers w ∧ stdout w' = stdout w
    ∧ reverseList fuel (ptr_of (reverse l) None) w' = Val p w.
Proof.
  intros [-> Hl] Hfuel. pose proof (lseg_NoDup _ _ Hl) as Hnd.
  destruct (reverseList_walk_spec fuel [] l w) as (w' & E & Hl' & Hframe & Hans & Hout);
    [done|done|done|done|].
  rewrite app_nil_r in E, Hl'.
  exists w'. split; [done|]. split; [done|]. split; [done|].
  split; [done|]. split; [done|].
  destruct (reverseList_walk_spec fuel [] (reverse l) w')
    as (w'' & E' & Hl'' & Hframe' & Hans' & Hout');
    [done|done| |by rewrite length_reverse|].
  { cbn [app]. by rewrite fmap_reverse, reverse_Permutation. }
  rewrite app_nil_r, reverse_involutive in E', Hl''.
  assert (w'' = w) as Hw; [|by rewrite Hw in E'].
  destruct w as [n a o], w'' as [n'' a'' o'']. cbn [nodes answers stdout] in *.
  f_equal; [|congruence|congruence].
  apply map_eq. intros b. destruct (decide (b ∈ l.*1)) as [Hin|Hnotin].
  - by apply (lseg_agree _ _ l None).
  - rewrite Hframe'; [by apply Hframe|].
    by rewrite fmap_reverse, elem_of_reverse.
Qed.

(** ** Splitting in the middle *)

Lemma getMidNode_walk_spec fuel w prev s m f :
  s = m ++ f → lseg (nodes w) s None → (length f ≤ 2 * fuel + 1)%nat →
  getMidNode_walk fuel prev (ptr_of s None) (ptr_of f None) w
  = Val (match last (take (Nat.div2 (length f)) s) with
         | Some x => Some x.1
         | None => prev
         end, ptr_of (drop (Nat.div2 (length f)) s) None) w.
Proof.
  revert prev s m f. induction fuel as [|fuel IH]; intros prev s m f -> Hs Hfuel.
  - destruct f as [|x [|y f]]; [done| |simpl in Hfuel; lia].
    apply lseg_app in Hs as [_ [Hx _]]. cbn [getMidNode_walk ptr_of] in *.
    by rewrite (ll_bind_val _ _ _ _ _ (ll_load_live _ _ _ Hx)).
  - destruct f as [|x [|y f]]; [done| |].
    { apply lseg_app in Hs as [_ [Hx _]]. cbn [getMidNode_walk ptr_of] in *.
      by rewrite (ll_bind_val _ _ _ _ _ (ll_load_live _ _ _ Hx)). }
    pose proof Hs as Hs'. apply lseg_app in Hs' as [_ (Hx & Hy & _)].
    cbn [ptr_of] in Hx, Hy. cbn [getMidNode_walk ptr_of].
    rewrite (ll_bind_val _ _ _ _ _ (ll_load_live _ _ _ Hx)). cbn [next].
    assert (∃ z s', m ++ x :: y :: f = z :: s' ∧ s' = tail (m ++ [x; y]) ++ f)
      as (z & s' & Hzs & Hs'').
    { destruct m as [|z m]; [by exists x, (y :: f)|].
      exists z, (m ++ x :: y :: f). split; [done|].
      cbn [app tail]. by rewrite <- app_assoc. }
    rewrite Hzs in Hs |- *. destruct Hs as [Hz Hs]. cbn [ptr_of].
    rewrite (ll_bind_val _ _ _ _ _ (ll_load_live _ _ _ Hz)). cbn [next].
    rewrite (ll_bind_val _ _ _ _ _ (ll_load_live _ _ _ Hy)). cbn [next].
    rewrite (IH (Some z.1) s' _ f Hs'' Hs) by (simpl in Hfuel; lia).
    cbn [length Nat.div2 take drop]. rewrite last_cons.
    by destruct (last (take (Nat.div2 (length f)) s')).
Qed.

Lemma getMidNode_spec fuel w l :
  l ≠ [] → lseg (nodes w) l None → (length l ≤ 2 * fuel + 1)%nat →
  getMidNode fuel (ptr_of l None) w
  = Val (ptr_of (drop (Nat.div2 (length l)) l) None)
      (mkWorld (unlink_last (take (Nat.div2 (length l)) l) (nodes w))
         (answers w) (stdout w)).
Proof.
  intros Hne Hl Hfuel. destruct l as [|x l]; [done|].
  unfold getMidNode. cbn [ptr_of].
  change (Some x.1) with (ptr_of (x :: l) None).
  rewrite (ll_bind_val _ _ _ _ _
             (getMidNode_walk_spec fuel w None (x :: l) [] (x :: l) eq_refl Hl Hfuel)).
  unfold unlink_last.
  destruct (last (take (Nat.div2 (length (x :: l))) (x :: l))) as [y|] eqn:Hlast.
  - assert (y ∈ x :: l) as Hy.
    { apply last_Some in Hlast as [l' Hl'].
      rewrite <- (take_drop (Nat.div2 (length (x :: l))) (x :: l)), Hl'.
      apply elem_of_app. left. apply elem_of_app. right.
      apply elem_of_cons. by left. }
    apply list_elem_of_split in Hy as (l1 & l2 & Heq). rewrite Heq in Hl.
    apply lseg_app in Hl as [_ [Hy _]].
    by rewrite (ll_bind_val _ _ _ _ _ (ll_set_next_live _ _ _ _ Hy)).
  - unfold ret. by rewrite ll_world_eta.
Qed.

Lemma unlink_last_split h l1 l2 :
  lseg h (l1 ++ l2) None →
  lseg (unlink_last l1 h) l1 None ∧ lseg (unlink_last l1 h) l2 None.
Proof.
  intros Hl. pose proof (lseg_NoDup _ _ Hl) as Hnd.
  unfold unlink_last. destruct (decide (l1 = [])) as [->|Hne]; [done|].
  destruct (exists_last Hne) as (l0 & x & ->). rewrite last_snoc.
  rewrite <- app_assoc in Hl, Hnd. change ([x] ++ l2) with (x :: l2) in Hl, Hnd.
  rewrite fmap_app, fmap_cons in Hnd.
  apply NoDup_app in Hnd as (_ & Hdisj & Hnd).
  apply NoDup_cons in Hnd as [Hx2 _].
  apply lseg_app in Hl as [Hl0 [Hx Hl2]]. cbn [app ptr_of] in Hl0.
  split.
  - apply lseg_app. split.
    + cbn [ptr_of]. apply lseg_insert_ne; [|done].
      intros Hin. apply (Hdisj _ Hin). apply elem_of_cons. by left.
    + cbn [lseg ptr_of]. by rewrite lookup_insert_eq.
  - by apply lseg_insert_ne.
Qed.

Lemma unlink_last_frame h l b : b ∉ l.*1 → unlink_last l h !! b = h !! b.
Proof.
  intros Hb. unfold unlink_last. destruct (last l) as [x|] eqn:Hlast; [|done].
  rewrite lookup_insert_ne; [done|]. intros <-. apply Hb.
  apply list_elem_of_fmap. exists x. split; [done|].
  apply last_Some in Hlast as [l' ->]. apply elem_of_app. right.
  apply elem_of_cons. by left.
Qed.

(** ** Merging *)

Lemma NoDup_fst_middle (l1 l2 : cells) x :
  NoDup (l1 ++ x :: l2).*1 ↔ (x.1 ∉ (l1 ++ l2).*1) ∧ NoDup (l1 ++ l2).*1.
Proof.
  rewrite !fmap_app, fmap_cons, <- Permutation_middle. apply NoDup_cons.
Qed.

Lemma merge_walk_spec fuel w c nc l1 l2 :
  lseg (nodes w) l1 None → lseg (nodes w) l2 None →
  NoDup (l1 ++ l2).*1 → nodes w !! c = Some nc → c ∉ (l1 ++ l2).*1 →
  (length l1 + length l2 ≤ S fuel)%nat →
  ∃ w', merge_walk fuel (Some c) (ptr_of l1 None) (ptr_of l2 None) w = Val tt w'
    ∧ nodes w' !! c
      = Some (mkNode (data nc) (ptr_of (list_merge by_data l1 l2) None))
    ∧ lseg (nodes w') (list_merge by_data l1 l2) None
    ∧ (∀ b, b ≠ c → b ∉ (l1 ++ l2).*1 → nodes w' !! b = nodes w !! b)
    ∧ answers w' = answers w ∧ stdout w' = stdout w.
Proof.
  revert w c nc l1 l2.
  induction fuel as [|fuel IH]; intros w c nc l1 l2 H1 H2 Hnd Hc Hc_out Hfuel.
  - destruct l1 as [|x1 l1], l2 as [|x2 l2]; [..|simpl in Hfuel; lia];
      cbn [merge_walk ptr_of];
      rewrite (ll_set_next_live _ _ _ _ Hc);
      (eexists; split; [done|]); cbn [nodes answers stdout];
      (split; [by rewrite lookup_insert_eq|]);
      (split; [apply lseg_insert_ne; [|done]|
               split; [|done]; intros b Hb _; by rewrite lookup_insert_ne]).
    + done.
    + by rewrite app_nil_l in Hc_out.
    + by rewrite app_nil_r in Hc_out.
  - destruct l1 as [|x1 l1]; [|destruct l2 as [|x2 l2]].
    + destruct l2; cbn [merge_walk ptr_of];
      rewrite (ll_set_next_live _ _ _ _ Hc);
      (eexists; split; [done|]); cbn [nodes answers stdout];
      (split; [by rewrite lookup_insert_eq|]);
      (split; [apply lseg_insert_ne; [done|done]|
               split; [|done]; intros b Hb _; by rewrite lookup_insert_ne]).
    + cbn [merge_walk ptr_of]. rewrite (ll_set_next_live _ _ _ _ Hc).
      eexists. split; [done|]. cbn [nodes answers stdout].
      split; [by rewrite lookup_insert_eq|].
      split; [apply lseg_insert_ne; [by rewrite app_nil_r in Hc_out|done]|].
      split; [|done]. intros b Hb _. by rewrite lookup_insert_ne.
    + pose proof H1 as [Hx1 H1']. pose proof H2 as [Hx2 H2'].
      assert (c ≠ x1.1) as Hc1.
      { intros ->. apply Hc_out. rewrite fmap_app, fmap_cons.
        apply elem_of_app. left. apply elem_of_cons. by left. }
      assert (c ≠ x2.1) as Hc2.
      { intros ->. apply Hc_out. rewrite fmap_app, fmap_cons.
        apply elem_of_app. right. apply elem_of_cons. by left. }
      cbn [merge_walk ptr_of].
      rewrite (ll_bind_val _ _ _ _ _ (ll_load_live _ _ _ Hx1)).
      rewrite (ll_bind_val _ _ _ _ _ (ll_load_live _ _ _ Hx2)). cbn [data].
      rewrite list_merge_cons.
      destruct (Z.leb_spec x1.2 x2.2) as [Hle|Hgt].
      * rewrite decide_True by done.
        rewrite (ll_bind_val _ _ _ _ _ (ll_set_next_live _ _ _ _ Hc)).
        erewrite ll_bind_val; cycle 1.
        { apply ll_load_live. cbn [nodes]. by rewrite lookup_insert_ne. }
        erewrite ll_bind_val; cycle 1.
        { apply ll_load_live. cbn [nodes]. by rewrite lookup_insert_eq. }
        cbn [next].
        change (x1 :: l1) with ([] ++ x1 :: l1) in Hnd, Hc_out.
        rewrite <- app_assoc in Hnd, Hc_out. cbn [app] in Hnd, Hc_out.
        change (x1 :: l1 ++ x2 :: l2) with ([] ++ x1 :: (l1 ++ x2 :: l2)) in Hnd.
        apply NoDup_fst_middle in Hnd as [Hx1_out Hnd]. cbn [app] in Hx1_out, Hnd.
        rewrite fmap_cons in Hc_out. apply not_elem_of_cons in Hc_out as [_ Hc_out].
        change (Some x2.1) with (ptr_of (x2 :: l2) None).
        destruct (IH (mkWorld (<[c := mkNode (data nc) (Some x1.1)]> (nodes w))
                        (answers w) (stdout w))
                    x1.1 (mkNode x1.2 (ptr_of l1 None)) l1 (x2 :: l2))
          as (w' & E & Hcur & Hl' & Hframe & Hans & Hout).
        { cbn [nodes]. apply lseg_insert_ne; [|done].
          intros Hin. apply Hc_out. rewrite fmap_app. apply elem_of_app. by left. }
        { cbn [nodes]. apply lseg_insert_ne; [|done].
          intros Hin. apply Hc_out. rewrite fmap_app. apply elem_of_app. by right. }
        { done. }
        { cbn [nodes]. by rewrite lookup_insert_ne. }
        { done. }
        { simpl in Hfuel |- *. lia. }
        exists w'. split; [done|]. cbn [nodes answers stdout data] in *.
        split; [|split; [by split|split; [|done]]].
        -- rewrite Hframe; [by rewrite lookup_insert_eq|done|done].
        -- intros b Hbc Hb.
           change ((x1 :: l1) ++ x2 :: l2) with (x1 :: (l1 ++ x2 :: l2)) in Hb.
           rewrite fmap_cons in Hb.
           apply not_elem_of_cons in Hb as [Hb1 Hb].
           rewrite Hframe by done. by rewrite lookup_insert_ne.
      * rewrite decide_False by (unfold by_data; lia).
        rewrite (ll_bind_val _ _ _ _ _ (ll_set_next_live _ _ _ _ Hc)).
        erewrite ll_bind_val; cycle 1.
        { apply ll_load_live. cbn [nodes]. by rewrite lookup_insert_ne. }
        erewrite ll_bind_val; cycle 1.
        { apply ll_load_live. cbn [nodes]. by rewrite lookup_insert_eq. }
        cbn [next].
        apply NoDup_fst_middle in Hnd as [Hx2_out Hnd].
        assert (c ∉ ((x1 :: l1) ++ l2).*1) as Hc_out'.
        { intros Hin. apply Hc_out. rewrite fmap_app, fmap_cons.
          rewrite fmap_app in Hin. apply elem_of_app in Hin as [Hin|Hin];
            apply elem_of_app; [by left|right]. apply elem_of_cons. by right. }
        change (Some x1.1) with (ptr_of (x1 :: l1) None).
        destruct (IH (mkWorld (<[c := mkNode (data nc) (Some x2.1)]> (nodes w))
                        (answers w) (stdout w))
                    x2.1 (mkNode x2.2 (ptr_of l2 None)) (x1 :: l1) l2)
          as (w' & E & Hcur & Hl' & Hframe & Hans & Hout).
        { cbn [nodes]. apply lseg_insert_ne; [|done].
          intros Hin. apply Hc_out'. rewrite fmap_app. apply elem_of_app. by left. }
        { cbn [nodes]. apply lseg_insert_ne; [|done].
          intros Hin. apply Hc_out'. rewrite fmap_app. apply elem_of_app. by right. }
        { done. }
        { cbn [nodes]. by rewrite lookup_insert_ne. }
        { done. }
        { simpl in Hfuel |- *. lia. }
        exists w'. split; [done|]. cbn [nodes answers stdout data] in *.
        split; [|split; [by split|split; [|done]]].
        -- rewrite Hframe; [by rewrite lookup_insert_eq|done|done].
        -- intros b Hbc Hb.
           assert (b ≠ x2.1 ∧ b ∉ ((x1 :: l1) ++ l2).*1) as [Hb2 Hb'].
           { split.
             - intros ->. apply Hb. rewrite fmap_app, fmap_cons.
               apply elem_of_app. right. apply elem_of_cons. by left.
             - intros Hin. apply Hb. rewrite fmap_app, fmap_cons.
               rewrite fmap_app in Hin. apply elem_of_app in Hin as [Hin|Hin];
                 apply elem_of_app; [by left|right]. apply elem_of_cons. by right. }
           rewrite Hframe by done. by rewrite lookup_insert_ne.
Qed.

Lemma merge_spec fuel w l1 l2 a :
  lseg (nodes w) l1 None → lseg (nodes w) l2 None → NoDup (l1 ++ l2).*1 →
  grant w = Some a → (length l1 + length l2 ≤ S fuel)%nat →
  ∃ w', merge fuel (ptr_of l1 None) (ptr_of l2 None) w
        = Val (ptr_of (list_merge by_data l1 l2) None) w'
    ∧ lseg (nodes w') (list_merge by_data l1 l2) None
    ∧ (∀ b, b ∉ (l1 ++ l2).*1 → nodes w' !! b = nodes w !! b)
    ∧ answers w' = tail (answers w) ∧ stdout w' = stdout w.
Proof.
  intros H1 H2 Hnd Hg Hfuel. unfold merge.
  rewrite (ll_bind_val _ _ _ _ _ (createNode_granted 0 w a Hg)).
  destruct (grant_Some _ _ Hg) as (_ & Hdead & _).
  assert (a ∉ (l1 ++ l2).*1) as Ha.
  { rewrite fmap_app. intros [Hin|Hin]%elem_of_app.
    - by apply (grant_fresh _ _ _ _ Hg H1).
    - by apply (grant_fresh _ _ _ _ Hg H2). }
  assert ((a ∉ l1.*1) ∧ (a ∉ l2.*1)) as [Ha1 Ha2].
  { rewrite fmap_app in Ha. by apply not_elem_of_app in Ha. }
  destruct (merge_walk_spec fuel
              (mkWorld (<[a := mkNode 0 None]> (nodes w)) (tail (answers w)) (stdout w))
              a (mkNode 0 None) l1 l2)
    as (w' & E & Hcur & Hl' & Hframe & Hans & Hout);
    [by apply lseg_insert_ne|by apply lseg_insert_ne|done
    |by cbn [nodes]; rewrite lookup_insert_eq|done|done|].
  rewrite (ll_bind_val _ _ _ _ _ E).
  rewrite (ll_bind_val _ _ _ _ _ (ll_load_live _ _ _ Hcur)).
  rewrite (ll_bind_val _ _ _ _ _ (ll_free_live _ _ _ Hcur)). cbn [next].
  eexists. split; [done|]. cbn [nodes answers stdout] in *.
  split; [|split; [|done]].
  - apply lseg_delete_ne; [|done]. by rewrite merge_Permutation.
  - intros b Hb. destruct (decide (b = a)) as [->|Hne].
    + by rewrite lookup_delete_eq.
    + rewrite lookup_delete_ne by done. rewrite Hframe by done.
      by rewrite lookup_insert_ne.
Qed.

Lemma merge_refused fuel w p1 p2 :
  grant w = None → merge (S fuel) p1 p2 w = Fault.
Proof.
  intros Hg. unfold merge.
  rewrite (ll_bind_val _ _ _ _ _ (createNode_refused 0 w Hg)).
  unfold bind at 1.
  destruct p1 as [a1|], p2 as [a2|]; cbn [merge_walk]; try done.
  unfold bind at 1, load at 1. destruct (nodes _ !! a1); [|done].
  unfold bind at 1, load at 1. destruct (nodes _ !! a2); [|done].
  by destruct (_ <=? _).
Qed.

Lemma Sorted_by_data l : Sorted by_data l ↔ Sorted Z.le l.*2.
Proof.
  induction l as [|x l IH]; [split; constructor|].
  rewrite fmap_cons. split; intros Hs; apply Sorted_inv in Hs as [Hs Hhd];
    (constructor; [by apply IH|]);
    destruct l as [|y l]; constructor; by apply HdRel_inv in Hhd.
Qed.

(** ** The allocator's coming answers *)

Lemma grants_fresh_next n w :
  grants_fresh (S n) w → ∃ a, grant w = Some a.
Proof.
  intros [Hlen Hall]. unfold grant.
  destruct (answers w) as [|r rest]; [simpl in Hlen; lia|].
  apply Forall_cons in Hall as [Hr _]. destruct r as [a|]; [|done].
  destruct Hr as [-> Hdead]. exists a. cbn [andb].
  by rewrite bool_decide_eq_true_2.
Qed.

Lemma grants_fresh_later N k n w w' :
  grants_fresh N w → (k + n ≤ N)%nat → answers w' = drop k (answers w) →
  (∀ b, nodes w !! b = None → nodes w' !! b = None) →
  grants_fresh n w'.
Proof.
  intros [Hlen Hall] HN Hans Hdead. split.
  - rewrite Hans, length_drop. lia.
  - rewrite Hans. apply (Forall_take _ (k + n)%nat) in Hall.
    rewrite take_take, Nat.min_l in Hall by done.
    rewrite <- take_take_drop in Hall.
    apply Forall_app in Hall as [_ Hall].
    eapply Forall_impl; [exact Hall|].
    intros [a|]; [|done]. intros [Hv Hd]. split; [done|by apply Hdead].
Qed.

(** ** Merge sort *)

Lemma div2_bounds n : (2 ≤ n)%nat → (1 ≤ Nat.div2 n ∧ Nat.div2 n < n)%nat.
Proof.
  intros Hn. pose proof (Nat.div2_odd n) as Hodd.
  destruct (Nat.odd n); simpl in Hodd; lia.
Qed.

Lemma tail_drop {A} (l : list A) : tail l = drop 1 l.
Proof. by destruct l. Qed.

Lemma mergeSort_spec fuel w l :
  lseg (nodes w) l None → (length l ≤ fuel)%nat →
  grants_fresh (length l - 1) w →
  ∃ w' l', mergeSort fuel (ptr_of l None) w = Val (ptr_of l' None) w'
    ∧ lseg (nodes w') l' None ∧ l' ≡ₚ l ∧ Sorted by_data l'
    ∧ (∀ b, b ∉ l.*1 → nodes w' !! b = nodes w !! b)
    ∧ answers w' = drop (length l - 1) (answers w) ∧ stdout w' = stdout w.
Proof.
  revert w l. induction fuel as [|fuel IH]; intros w l Hl Hfuel Hgr.
  { destruct l; [|simpl in Hfuel; lia]. exists w, [].
    repeat split; try done; repeat constructor. }
  destruct l as [|x [|y l0]].
  { exists w, []. repeat split; try done; repeat constructor. }
  { exists w, [x]. destruct Hl as [Hx _]. cbn [mergeSort ptr_of] in *.
    rewrite (ll_bind_val _ _ _ _ _ (ll_load_live _ _ _ Hx)). cbn [next].
    repeat split; try done; repeat constructor. }
  remember (x :: y :: l0) as l eqn:El.
  assert (2 ≤ length l)%nat as Hlen by (subst l; simpl; lia).
  assert (ptr_of l None = Some x.1) as Hptr by (by subst l).
  assert (nodes w !! x.1 = Some (mkNode x.2 (Some y.1))) as Hx
    by (subst l; apply Hl).
  pose proof (lseg_NoDup _ _ Hl) as Hnd.
  destruct (div2_bounds _ Hlen) as [Hk1 Hk2].
  remember (Nat.div2 (length l)) as k eqn:Ek.
  remember (take k l) as l1 eqn:El1. remember (drop k l) as l2 eqn:El2.
  assert (l = l1 ++ l2) as Hsplit by (subst l1 l2; symmetry; apply take_drop).
  assert (length l1 = k) as Hlen1 by (subst l1; apply length_take_le; lia).
  assert (length l2 = length l - k)%nat as Hlen2 by (subst l2; apply length_drop).
  assert (ptr_of l1 None = Some x.1) as Hptr1.
  { subst l1 l. destruct k; [lia|done]. }
  assert (l.*1 = l1.*1 ++ l2.*1) as Hfst by (by rewrite Hsplit, fmap_app).
  rewrite Hfst in Hnd. apply NoDup_app in Hnd as (Hnd1 & Hdisj & Hnd2).
  rewrite Hptr. cbn [mergeSort].
  rewrite (ll_bind_val _ _ _ _ _ (ll_load_live _ _ _ Hx)). cbn [next].
  (* the split *)
  assert (getMidNode fuel (Some x.1) w
          = Val (ptr_of l2 None)
              (mkWorld (unlink_last l1 (nodes w)) (answers w) (stdout w))) as E1.
  { rewrite <- Hptr, El1, El2, Ek. apply getMidNode_spec; [by subst l|done|lia]. }
  rewrite (ll_bind_val _ _ _ _ _ E1).
  destruct (unlink_last_split (nodes w) l1 l2) as [Hl1 Hl2]; [by rewrite <- Hsplit|].
  assert (∀ b, nodes w !! b = None → b ∉ l.*1) as Hdead_out.
  { intros b Hb Hin. destruct (lseg_live _ _ _ _ Hl Hin) as [n Hn]. congruence. }
  (* the left half *)
  destruct (IH (mkWorld (unlink_last l1 (nodes w)) (answers w) (stdout w)) l1)
    as (w2 & l1' & E2 & Hl1' & Hp1 & Hs1 & Hf1 & Ha2 & Ho2); [done|lia| |].
  { apply (grants_fresh_later (length l - 1) 0 _ w); [done|lia|done|].
    intros b Hb. cbn [nodes]. rewrite unlink_last_frame; [done|].
    intros Hin. apply (Hdead_out b Hb). rewrite Hfst. apply elem_of_app. by left. }
  rewrite Hptr1 in E2. rewrite (ll_bind_val _ _ _ _ _ E2).
  cbn [nodes answers stdout] in Hf1, Ha2, Ho2.
  (* the right half *)
  assert (lseg (nodes w2) l2 None) as Hl2_2.
  { eapply lseg_frame; [|exact Hl2]. intros b Hb. cbn [nodes]. apply Hf1.
    intros Hin. by apply (Hdisj b). }
  destruct (IH w2 l2)
    as (w3 & l2' & E3 & Hl2' & Hp2 & Hs2 & Hf2 & Ha3 & Ho3); [done|lia| |].
  { apply (grants_fresh_later (length l - 1) (length l1 - 1) _ w); [done|lia|done|].
    intros b Hb. pose proof (Hdead_out b Hb) as Hout.
    rewrite Hfst in Hout. apply not_elem_of_app in Hout as [Hout1 Hout2].
    rewrite Hf1 by done. by rewrite unlink_last_frame. }
  rewrite (ll_bind_val _ _ _ _ _ E3).
  (* the merge *)
  assert (lseg (nodes w3) l1' None) as Hl1_3.
  { eapply lseg_frame; [|exact Hl1']. intros b Hb. apply Hf2.
    rewrite Hp1 in Hb. intros Hin. by apply (Hdisj b). }
  assert (∀ b, b ∉ l.*1 → nodes w3 !! b = nodes w !! b) as Hf3.
  { intros b Hout. rewrite Hfst in Hout.
    apply not_elem_of_app in Hout as [Hout1 Hout2].
    rewrite Hf2, Hf1 by done. by rewrite unlink_last_frame. }
  assert (answers w3 = drop (length l - 2) (answers w)) as Ha3'.
  { rewrite Ha3, Ha2, drop_drop. f_equal. lia. }
  destruct (grants_fresh_next 0 w3) as [a Hg].
  { apply (grants_fresh_later (length l - 1) (length l - 2) _ w); [done|lia|done|].
    intros b Hb. rewrite Hf3; [done|]. by apply Hdead_out. }
  destruct (merge_spec fuel w3 l1' l2' a)
    as (w4 & E4 & Hl4 & Hf4 & Ha4 & Ho4); [done|done| |done| |].
  { rewrite fmap_app, Hp1, Hp2. by apply NoDup_app. }
  { rewrite Hp1, Hp2. lia. }
  rewrite E4.
  exists w4, (list_merge by_data l1' l2'). split; [done|]. split; [done|].
  split; [by rewrite merge_Permutation, Hp1, Hp2, Hsplit|].
  split; [by apply Sorted_list_merge; [apply _|..]|].
  split; [|split; [|congruence]].
  - intros b Hout. rewrite Hf4; [by apply Hf3|].
    rewrite fmap_app, Hp1, Hp2, <- Hfst. done.
  - rewrite Ha4, Ha3', tail_drop, drop_drop. f_equal. lia.
Qed.

(** ** Bubble sort *)

Lemma bubble_cons x ds : ∃ z r, bubble x ds = z :: r.
Proof. destruct ds as [|y ds]; simpl; [eauto|]. destruct (y <? x); eauto. Qed.

Lemma bubble_length x ds : length (bubble x ds) = S (length ds).
Proof.
  revert x. induction ds as [|y ds IH]; intros x; simpl; [done|].
  destruct (y <? x); simpl; by rewrite IH.
Qed.

Lemma bubble_Permutation x ds : bubble x ds ≡ₚ x :: ds.
Proof.
  revert x. induction ds as [|y ds IH]; intros x; simpl; [done|].
  destruct (y <? x); rewrite IH; [apply Permutation_swap|done].
Qed.

Lemma bubble_swapped_true x ds : bubble_swapped x ds true = true.
Proof.
  revert x. induction ds as [|y ds IH]; intros x; simpl; [done|].
  by destruct (y <? x).
Qed.

Lemma bubble_unswapped x ds :
  bubble_swapped x ds false = false →
  bubble x ds = x :: ds ∧ Sorted Z.le (x :: ds).
Proof.
  revert x. induction ds as [|y ds IH]; intros x; simpl.
  - intros _. split; [done|]. repeat constructor.
  - destruct (Z.ltb_spec y x) as [Hlt|Hge].
    + by rewrite bubble_swapped_true.
    + intros Hs. destruct (IH y Hs) as [-> Hsorted]. split; [done|].
      constructor; [done|]. by constructor.
Qed.

Lemma bubble_filter_length (P : Z → Prop) `{∀ y, Decision (P y)} x ds :
  length (filter P (bubble x ds)) = length (filter P (x :: ds)).
Proof. apply Permutation_length. by rewrite bubble_Permutation. Qed.

Lemma bubble_inversions x ds :
  (inversions (bubble x ds) + (if bubble_swapped x ds false then 1 else 0)
   ≤ inversions (x :: ds))%nat.
Proof.
  revert x. induction ds as [|y ds IH]; intros x; [simpl; lia|].
  cbn [bubble bubble_swapped]. destruct (Z.ltb_spec y x) as [Hlt|Hge].
  - rewrite bubble_swapped_true. specialize (IH x).
    cbn [inversions] in IH |- *.
    rewrite bubble_filter_length, !filter_cons.
    rewrite decide_False by lia. rewrite decide_True by done.
    cbn [length]. destruct (bubble_swapped x ds false); lia.
  - specialize (IH y). cbn [inversions] in IH |- *.
    rewrite bubble_filter_length. lia.
Qed.

Lemma inversions_bound (ds : list Z) :
  (2 * inversions ds + length ds ≤ length ds * length ds)%nat.
Proof.
  induction ds as [|x ds IH]; [simpl; lia|]. cbn [inversions length].
  pose proof (length_filter (λ y, y < x) ds). nia.
Qed.

Lemma zip_notin (As : list addr) (ds : list Z) c :
  c ∉ As → c ∉ (zip As ds).*1.
Proof.
  intros Hc Hin. apply Hc. apply list_elem_of_fmap in Hin as ([a d] & -> & Hin).
  by apply elem_of_zip_l in Hin.
Qed.

Lemma bubbleSort_pass_spec fuel w a x As ds sw :
  length As = length ds →
  lseg (nodes w) (zip (a :: As) (x :: ds)) None → NoDup (a :: As) →
  (length ds ≤ fuel)%nat →
  ∃ w', bubbleSort_pass fuel (Some a) sw w = Val (bubble_swapped x ds sw) w'
    ∧ lseg (nodes w') (zip (a :: As) (bubble x ds)) None
    ∧ (∀ b, b ∉ a :: As → nodes w' !! b = nodes w !! b)
    ∧ answers w' = answers w ∧ stdout w' = stdout w.
Proof.
  revert fuel w a x As sw.
  induction ds as [|y ds IH]; intros fuel w a x As sw Hlen Hl Hnd Hfuel.
  - destruct As; [|done]. destruct Hl as [Ha _]. cbn [fst snd ptr_of] in Ha.
    exists w. split; [|done].
    destruct fuel; cbn [bubbleSort_pass];
      by rewrite (ll_bind_val _ _ _ _ _ (ll_load_live _ _ _ Ha)).
  - destruct As as [|b As]; [done|]. injection Hlen as Hlen.
    destruct fuel as [|fuel]; [simpl in Hfuel; lia|].
    apply NoDup_cons in Hnd as [Ha_out Hnd].
    apply not_elem_of_cons in Ha_out as [Hab Ha_out].
    pose proof Hnd as Hnd'. apply NoDup_cons in Hnd' as [Hb_out _].
    destruct Hl as [Ha [Hb Hl]]. cbn [zip zip_with fst snd ptr_of] in Ha, Hb, Hl.
    cbn [bubbleSort_pass bubble bubble_swapped].
    rewrite (ll_bind_val _ _ _ _ _ (ll_load_live _ _ _ Ha)). cbn [next data].
    rewrite (ll_bind_val _ _ _ _ _ (ll_load_live _ _ _ Hb)). cbn [next data].
    destruct (y <? x).
    + rewrite (ll_bind_val _ _ _ _ _ (ll_set_data_live _ _ _ _ Ha)). cbn [next].
      erewrite ll_bind_val; cycle 1.
      { eapply ll_set_data_live. cbn [nodes]. by rewrite lookup_insert_ne. }
      erewrite ll_bind_val; cycle 1.
      { eapply ll_load_live. cbn [nodes].
        rewrite lookup_insert_ne by done. by rewrite lookup_insert_eq. }
      cbn [next nodes answers stdout].
      destruct (IH fuel
                  (mkWorld (<[b := mkNode x (ptr_of (zip As ds) None)]>
                              (<[a := mkNode y (Some b)]> (nodes w)))
                     (answers w) (stdout w)) b x As true)
        as (w' & E & Hl' & Hframe & Hans & Hout); [done| |done|simpl in Hfuel; lia|].
      { cbn [zip zip_with lseg nodes fst snd]. rewrite lookup_insert_eq.
        split; [done|]. apply lseg_insert_ne; [by apply zip_notin|].
        apply lseg_insert_ne; [by apply zip_notin|done]. }
      exists w'. split; [done|]. cbn [nodes answers stdout] in *.
      split; [|split; [|done]].
      * destruct (bubble_cons x ds) as (z & r & Hz). rewrite Hz in Hl' |- *.
        cbn [zip zip_with lseg fst snd ptr_of] in Hl' |- *.
        split; [|done]. rewrite Hframe by (by apply not_elem_of_cons).
        rewrite lookup_insert_ne by done. by rewrite lookup_insert_eq.
      * intros c Hc. apply not_elem_of_cons in Hc as [Hca Hc].
        pose proof Hc as [Hcb _]%not_elem_of_cons.
        rewrite Hframe by done. by rewrite !lookup_insert_ne.
    + destruct (IH fuel w b y As sw)
        as (w' & E & Hl' & Hframe & Hans & Hout); [done| |done|simpl in Hfuel; lia|].
      { by cbn [zip zip_with lseg fst snd]. }
      exists w'. split; [done|]. split; [|split; [|done]].
      * destruct (bubble_cons y ds) as (z & r & Hz). rewrite Hz in Hl' |- *.
        cbn [zip zip_with lseg fst snd ptr_of] in Hl' |- *.
        split; [|done]. by rewrite Hframe by (by apply not_elem_of_cons).
      * intros c Hc. apply not_elem_of_cons in Hc as [Hca Hc]. by apply Hframe.
Qed.

Lemma bubbleSort_passes_spec fuel w a x As ds :
  length As = length ds →
  lseg (nodes w) (zip (a :: As) (x :: ds)) None → NoDup (a :: As) →
  (inversions (x :: ds) + length ds < fuel)%nat →
  ∃ w' ds', bubbleSort_passes fuel (Some a) w = Val tt w'
    ∧ lseg (nodes w') (zip (a :: As) ds') None
    ∧ ds' ≡ₚ x :: ds ∧ Sorted Z.le ds'
    ∧ (∀ b, b ∉ a :: As → nodes w' !! b = nodes w !! b)
    ∧ answers w' = answers w ∧ stdout w' = stdout w.
Proof.
  revert w x ds. induction fuel as [|fuel IH]; intros w x ds Hlen Hl Hnd Hfuel; [lia|].
  destruct (bubbleSort_pass_spec fuel w a x As ds false)
    as (w1 & E1 & Hl1 & Hf1 & Ha1 & Ho1); [done|done|done|lia|].
  cbn [bubbleSort_passes]. rewrite (ll_bind_val _ _ _ _ _ E1).
  pose proof (bubble_inversions x ds) as Hinv.
  destruct (bubble_swapped x ds false) eqn:Hsw.
  - destruct (bubble_cons x ds) as (z & r & Hz).
    pose proof (bubble_length x ds) as Hblen.
    pose proof (bubble_Permutation x ds) as Hperm.
    rewrite Hz in Hl1, Hinv, Hblen, Hperm. simpl in Hblen.
    destruct (IH w1 z r) as (w' & ds' & E & Hl' & Hp & Hs & Hf & Ha & Ho);
      [lia|done|done|lia|].
    exists w', ds'. split; [done|]. split; [done|].
    split; [by rewrite Hp|]. split; [done|].
    split; [|split; congruence].
    intros b Hb. rewrite Hf by done. by apply Hf1.
  - destruct (bubble_unswapped x ds Hsw) as [Heq Hsorted].
    rewrite Heq in Hl1. exists w1, (x :: ds). done.
Qed.

(** X27: [bubbleSort] sorts in place by exchanging values: every node keeps its
    address and its place in the chain, the values become an ascending
    rearrangement of the old ones, and nothing is allocated, freed or
    printed. *)
Theorem bubbleSort_sorts fuel w p l :
  is_list (nodes w) p l → (length l * length l < fuel)%nat →
  ∃ w' ds,
    bubbleSort fuel p w = Val p w'
    ∧ is_list (nodes w') p (zip l.*1 ds)
    ∧ ds ≡ₚ l.*2 ∧ Sorted Z.le ds
    ∧ (∀ b, b ∉ l.*1 → nodes w' !! b = nodes w !! b)
    ∧ answers w' = answers w ∧ stdout w' = stdout w.
Proof.
  intros [-> Hl] Hfuel. pose proof (lseg_NoDup _ _ Hl) as Hnd.
  destruct l as [|[a x] [|[b y] l0]].
  - exists w, []. repeat split; try done; constructor.
  - exists w, [x]. destruct Hl as [Ha _]. cbn [bubbleSort ptr_of fst snd] in *.
    rewrite (ll_bind_val _ _ _ _ _ (ll_load_live _ _ _ Ha)). cbn [next].
    repeat split; try done; repeat constructor.
  - remember ((b, y) :: l0) as rest eqn:Erest.
    assert (nodes w !! a = Some (mkNode x (Some b))) as Ha by (subst rest; apply Hl).
    rewrite !fmap_cons in *. cbn [fst snd] in *.
    pose proof (inversions_bound (x :: rest.*2)) as Hinv.
    cbn [length] in Hinv, Hfuel. rewrite length_fmap in Hinv.
    destruct (bubbleSort_passes_spec fuel w a x rest.*1 rest.*2)
      as (w' & ds' & E & Hl' & Hp & Hs & Hf & Ha' & Ho).
    { by rewrite !length_fmap. }
    { change (zip (a :: rest.*1) (x :: rest.*2))
        with ((a, x) :: zip rest.*1 rest.*2). by rewrite zip_fst_snd. }
    { done. }
    { rewrite length_fmap. lia. }
    cbn [bubbleSort ptr_of fst].
    rewrite (ll_bind_val _ _ _ _ _ (ll_load_live _ _ _ Ha)). cbn [next].
    rewrite (ll_bind_val _ _ _ _ _ E).
    exists w', ds'. split; [done|]. split; [|done].
    split; [|done]. destruct ds' as [|z ds']; [|done].
    by apply Permutation_nil_cons in Hp.
Qed.

(** ** The public functions on well-formed lists *)

(** X20: [search] returns the position of the first node that holds the target,
    counted from 0, or -1 when no node holds it; it changes nothing. *)
Theorem search_finds_first fuel w p l t :
  is_list (nodes w) p l → (length l ≤ fuel)%nat →
  Z.of_nat (length l) ≤ INT_MAX →
  ∃ r, search fuel p t w = Val r w
    ∧ if decide (t ∈ l.*2)
      then 0 ≤ r ∧ l.*2 !! Z.to_nat r = Some t
           ∧ ∀ j, (j < Z.to_nat r)%nat → l.*2 !! j ≠ Some t
      else r = -1.
Proof.
  intros [-> Hl] Hfuel Hmax. unfold search.
  rewrite search_walk_spec by (done || lia). eexists. split; [done|].
  destruct (list_find (λ d, d = t) l.*2) as [[i x]|] eqn:Hfind.
  - apply list_find_Some in Hfind as (Hi & -> & Hfirst).
    rewrite decide_True by (by eapply list_elem_of_lookup_2).
    rewrite Z.add_0_l, Nat2Z.id. split; [lia|]. split; [done|].
    intros j Hj Hjt. by apply (Hfirst j t).
  - apply list_find_None in Hfind. rewrite decide_False; [done|].
    intros Hin. by apply (proj1 (Forall_forall _ _) Hfind t).
Qed.

(** X21: [getListLength] returns the number of nodes and changes nothing; on a
    list of more than [INT_MAX] nodes its [int] counter overflows. *)
Theorem getListLength_counts fuel w p l :
  is_list (nodes w) p l → (length l ≤ fuel)%nat →
  getListLength fuel p w
  = if decide (Z.of_nat (length l) ≤ INT_MAX)
    then Val (Z.of_nat (length l)) w else Fault.
Proof.
  intros [-> Hl] Hfuel. unfold getListLength.
  rewrite getListLength_walk_spec by (done || unfold INT_MAX; lia).
  done.
Qed.

(** X18: [display] prints the label, the values in list order, each followed by
    an arrow, and NULL; for the empty list it prints the label and
    [Empty]. It changes nothing else. *)
Theorem display_prints fuel w p l label :
  is_list (nodes w) p l → (length l ≤ fuel)%nat →
  display fuel p label w
  = Val tt (mkWorld (nodes w) (answers w)
              (stdout w ++
               match l with
               | [] => [label +:+ ": [Empty]" +:+ nl]
               | _ :: _ =>
                   [label +:+ ": "] ++ ((λ d, pretty d +:+ " -> ") <$> l.*2)
                   ++ ["NULL" +:+ nl]
               end)).
Proof.
  intros [-> Hl] Hfuel. destruct l as [|x l]; [done|].
  unfold display. cbn [ptr_of]. unfold bind at 1, printf at 1.
  change (Some x.1) with (ptr_of (x :: l) None).
  erewrite ll_bind_val; [|by apply display_walk_spec].
  unfold printf. cbn [nodes answers stdout]. by rewrite <- !app_assoc.
Qed.

(** X28: [freeList] frees every node of the list and nothing else; the pointer
    it was given dangles afterwards, so that a second [freeList] on it is a
    double free. *)
Theorem freeList_releases fuel w p l :
  is_list (nodes w) p l → (length l ≤ fuel)%nat →
  ∃ w', freeList fuel p w = Val tt w'
    ∧ (∀ a, nodes w' !! a = if decide (a ∈ l.*1) then None else nodes w !! a)
    ∧ answers w' = answers w ∧ stdout w' = stdout w
    ∧ (l ≠ [] → freeList fuel p w' = Fault).
Proof.
  intros [-> Hl] Hfuel.
  destruct (freeList_walk_spec fuel l w Hl Hfuel) as (w' & E & Hn & Ha & Ho).
  exists w'. split; [done|]. split; [done|]. split; [done|]. split; [done|].
  intros Hne. destruct l as [|x l]; [done|].
  destruct fuel as [|fuel]; [simpl in Hfuel; lia|].
  unfold freeList. cbn [freeList_walk ptr_of]. unfold bind, load.
  rewrite Hn, decide_True; [done|]. rewrite fmap_cons. apply elem_of_cons. by left.
Qed.

(** X15: [insertBegin] puts a new node in front of whatever [head] points to
    and returns it; when [malloc] refuses, it prints the failure and
    returns [head] with the heap untouched. *)
Theorem insertBegin_prepends w p d :
  ∃ w',
    insertBegin p d w = Val (if grant w is Some a then Some a else p) w'
    ∧ answers w' = tail (answers w)
    ∧ match grant w with
      | Some a =>
          nodes w' = <[a := mkNode d p]> (nodes w) ∧ stdout w' = stdout w
          ∧ ∀ l, is_list (nodes w) p l → is_list (nodes w') (Some a) ((a, d) :: l)
      | None =>
          nodes w' = nodes w
          ∧ stdout w' = stdout w ++ ["Memory allocation failed!" +:+ nl]
      end.
Proof.
  unfold insertBegin. destruct (grant w) as [a|] eqn:Hg.
  - rewrite (ll_bind_val _ _ _ _ _ (createNode_granted d w a Hg)).
    erewrite ll_bind_val; cycle 1.
    { eapply ll_set_next_live. cbn [nodes]. apply lookup_insert_eq. }
    eexists. split; [done|]. cbn [nodes answers stdout data].
    rewrite insert_insert_eq. split; [done|]. split; [done|]. split; [done|].
    intros l [-> Hl]. split; [done|]. cbn [lseg fst snd].
    rewrite lookup_insert_eq. split; [done|].
    apply lseg_insert_ne; [|done]. by eapply grant_fresh.
  - rewrite (ll_bind_val _ _ _ _ _ (createNode_refused d w Hg)).
    eexists. split; [done|]. done.
Qed.

(** X16: [insertEnd] links a new node behind the last one and returns the old
    head (the new node, for the empty list); no other node changes. When
    [malloc] refuses, it prints the failure and the list stays as it is. *)
Theorem insertEnd_appends fuel w p l d :
  is_list (nodes w) p l → (length l ≤ fuel)%nat →
  ∃ w' l',
    insertEnd fuel p d w = Val (ptr_of l' None) w'
    ∧ is_list (nodes w') (ptr_of l' None) l'
    ∧ (l ≠ [] → ptr_of l' None = p)
    ∧ (∀ b, b ∉ l'.*1 → nodes w' !! b = nodes w !! b)
    ∧ answers w' = tail (answers w)
    ∧ match grant w with
      | Some a =>
          l' = l ++ [(a, d)] ∧ stdout w' = stdout w
          ∧ ∀ x, x ∈ l → last l ≠ Some x → nodes w' !! x.1 = nodes w !! x.1
      | None =>
          l' = l ∧ nodes w' = nodes w
          ∧ stdout w' = stdout w ++ ["Memory allocation failed!" +:+ nl]
      end.
Proof.
  intros [-> Hl] Hfuel. pose proof (lseg_NoDup _ _ Hl) as Hnd.
  destruct (grant w) as [a|] eqn:Hg.
  - pose proof (grant_fresh _ _ _ _ Hg Hl) as Hfresh.
    rewrite (insertEnd_granted fuel w l d a Hl Hfuel Hg).
    exists (mkWorld (link_last l a (<[a := mkNode d None]> (nodes w)))
              (tail (answers w)) (stdout w)), (l ++ [(a, d)]).
    cbn [nodes answers stdout]. split; [done|].
    split; [split; [done|by apply link_last_lseg]|].
    split; [by destruct l|].
    split; [intros b Hb; apply link_last_frame; by rewrite fmap_app in Hb|].
    split; [done|]. split; [done|]. split; [done|].
    intros x Hx Hlast. unfold link_last.
    destruct (last l) as [y|] eqn:Hy.
    + assert (x.1 ≠ a) as Hxa.
      { intros <-. apply Hfresh. by apply list_elem_of_fmap_2. }
      rewrite !lookup_insert_ne; [done|done|].
      intros Heq. apply Hlast. f_equal.
      apply last_Some in Hy as [l0 ->].
      apply (NoDup_fmap_fst_eq (l0 ++ [y])); [done| |done|done].
      apply elem_of_app. right. apply elem_of_cons. by left.
    + apply last_None in Hy. subst l. by apply elem_of_nil in Hx.
  - rewrite (insertEnd_refused fuel w (ptr_of l None) d Hg).
    eexists _, l. split; [done|]. cbn [nodes answers stdout]. done.
Qed.

(** X22: [getMidNode] cuts the list in two behind its first half (rounded
    down) and returns the second half: the last node of the first half
    gets a NULL link and nothing else changes. On a list of one node there
    is nothing to cut, and the pointer returned is [head] itself. *)
Theorem getMidNode_splits fuel w p l :
  is_list (nodes w) p l → (length l ≤ fuel)%nat →
  ∃ w', getMidNode fuel p w = Val (ptr_of (drop (Nat.div2 (length l)) l) None) w'
    ∧ is_list (nodes w') (ptr_of (drop (Nat.div2 (length l)) l) None)
        (drop (Nat.div2 (length l)) l)
    ∧ is_list (nodes w')
        (if decide (2 ≤ length l)%nat then p else None)
        (take (Nat.div2 (length l)) l)
    ∧ (length l ≤ 1 → nodes w' = nodes w)%nat
    ∧ (∀ b, b ∉ (take (Nat.div2 (length l)) l).*1 → nodes w' !! b = nodes w !! b)
    ∧ answers w' = answers w ∧ stdout w' = stdout w.
Proof.
  intros [-> Hl] Hfuel. destruct (decide (l = [])) as [->|Hne].
  { exists w. repeat split; done. }
  rewrite getMidNode_spec by (done || lia). eexists. split; [done|].
  cbn [nodes answers stdout].
  destruct (unlink_last_split (nodes w) (take (Nat.div2 (length l)) l)
              (drop (Nat.div2 (length l)) l)) as [H1 H2];
    [by rewrite take_drop|].
  split; [by split|]. split; [|split; [|split; [|done]]].
  - split; [|done]. case_decide as Hlen.
    + destruct (div2_bounds _ Hlen) as [Hk _].
      destruct l as [|x l]; [done|]. destruct (Nat.div2 (length (x :: l))); [lia|done].
    + by destruct l as [|x [|y l]]; [..|simpl in Hlen; lia].
  - intros Hlen. by destruct l as [|x [|y l]]; [..|simpl in Hlen; lia].
  - intros b Hb. by apply unlink_last_frame.
Qed.

(** X23: [merge] of two sorted lists that share no node relinks their nodes
    into one sorted list; the dummy node it allocates is freed again and
    nothing outside the two lists changes. *)
Theorem merge_merges fuel w p1 p2 l1 l2 :
  is_list (nodes w) p1 l1 → is_list (nodes w) p2 l2 →
  NoDup (l1.*1 ++ l2.*1) →
  Sorted Z.le l1.*2 → Sorted Z.le l2.*2 →
  (length l1 + length l2 ≤ S fuel)%nat → is_Some (grant w) →
  ∃ w' l',
    merge fuel p1 p2 w = Val (ptr_of l' None) w'
    ∧ is_list (nodes w') (ptr_of l' None) l'
    ∧ l' ≡ₚ l1 ++ l2 ∧ Sorted Z.le l'.*2
    ∧ (∀ b, b ∉ (l1 ++ l2).*1 → nodes w' !! b = nodes w !! b)
    ∧ answers w' = tail (answers w) ∧ stdout w' = stdout w.
Proof.
  intros [-> H1] [-> H2] Hnd Hs1 Hs2 Hfuel [a Hg].
  destruct (merge_spec fuel w l1 l2 a) as (w' & E & Hl' & Hf & Ha & Ho);
    [done|done|by rewrite fmap_app|done|done|].
  exists w', (list_merge by_data l1 l2). split; [done|]. split; [by split|].
  split; [apply merge_Permutation|]. split; [|done].
  apply Sorted_by_data. apply Sorted_list_merge; [apply _|..]; by apply Sorted_by_data.
Qed.

(** X24: [merge] does not check the result of [createNode]: when [malloc]
    refuses the dummy node, it writes through the NULL pointer, whatever
    the two lists are. It never returns. *)
Theorem merge_null_dereference fuel w p1 p2 :
  grant w = None →
  merge (S fuel) p1 p2 w = Fault
  ∧ ∀ fuel' r w', merge fuel' p1 p2 w ≠ Val r w'.
Proof.
  intros Hg. split; [by apply merge_refused|].
  intros [|fuel'] r w'; [|by rewrite merge_refused].
  unfold merge. rewrite (ll_bind_val _ _ _ _ _ (createNode_refused 0 w Hg)).
  unfold bind at 1. by destruct p1, p2.
Qed.

Lemma ll_bind_fault {A B} (c : L A) (k : A → L B) w :
  c w = Fault → bind c k w = Fault.
Proof. unfold bind. by intros ->. Qed.

Lemma mergeSort_single fuel w a d :
  nodes w !! a = Some (mkNode d None) → mergeSort fuel (Some a) w = Val (Some a) w.
Proof.
  intros Ha. destruct fuel; cbn [mergeSort];
    by rewrite (ll_bind_val _ _ _ _ _ (ll_load_live _ _ _ Ha)).
Qed.

Lemma grant_same w w' :
  answers w' = answers w →
  (∀ b, nodes w !! b = None ↔ nodes w' !! b = None) →
  grant w' = grant w.
Proof.
  intros Ha Hn. unfold grant. rewrite Ha.
  destruct (answers w) as [|[a|] rest]; try done.
  destruct (valid_addr a); [|done]. cbn [andb].
  by rewrite (bool_decide_ext _ _ (Hn a)).
Qed.

Lemma mergeSort_refused fuel w l :
  lseg (nodes w) l None → (2 ≤ length l)%nat → (length l ≤ fuel)%nat →
  grant w = None →
  mergeSort fuel (ptr_of l None) w = Fault.
Proof.
  revert w l. induction fuel as [|fuel IH]; intros w l Hl H2 Hfuel Hg; [lia|].
  destruct l as [|x [|y l0]]; [simpl in H2; lia..|].
  remember (x :: y :: l0) as l eqn:El.
  assert (ptr_of l None = Some x.1) as Hptr by (by subst l).
  assert (nodes w !! x.1 = Some (mkNode x.2 (Some y.1))) as Hx
    by (subst l; apply Hl).
  destruct (div2_bounds _ H2) as [Hk1 Hk2].
  remember (Nat.div2 (length l)) as k eqn:Ek.
  remember (take k l) as l1 eqn:El1. remember (drop k l) as l2 eqn:El2.
  assert (l = l1 ++ l2) as Hsplit by (subst l1 l2; symmetry; apply take_drop).
  assert (length l1 = k) as Hlen1 by (subst l1; apply length_take_le; lia).
  assert (length l2 = length l - k)%nat as Hlen2 by (subst l2; apply length_drop).
  assert (ptr_of l1 None = Some x.1) as Hptr1.
  { subst l1 l. destruct k; [lia|done]. }
  rewrite Hptr. cbn [mergeSort].
  rewrite (ll_bind_val _ _ _ _ _ (ll_load_live _ _ _ Hx)). cbn [next].
  assert (getMidNode fuel (Some x.1) w
          = Val (ptr_of l2 None)
              (mkWorld (unlink_last l1 (nodes w)) (answers w) (stdout w))) as E1.
  { rewrite <- Hptr, El1, El2, Ek. apply getMidNode_spec; [by subst l|done|lia]. }
  rewrite (ll_bind_val _ _ _ _ _ E1).
  destruct (unlink_last_split (nodes w) l1 l2) as [Hl1 Hl2]; [by rewrite <- Hsplit|].
  assert (grant (mkWorld (unlink_last l1 (nodes w)) (answers w) (stdout w)) = None)
    as Hg1.
  { rewrite <- Hg. apply grant_same; [done|]. intros b. cbn [nodes].
    destruct (decide (b ∈ l1.*1)) as [Hin|Hout].
    - destruct (lseg_live _ _ _ _ Hl1 Hin) as [n1 Hn1].
      destruct (lseg_live (nodes w) l None b Hl) as [n Hn].
      { rewrite Hsplit, fmap_app. apply elem_of_app. by left. }
      rewrite Hn, Hn1. done.
    - by rewrite unlink_last_frame. }
  destruct (decide (2 ≤ length l1)%nat) as [Hlong1|Hshort1].
  { apply ll_bind_fault. rewrite <- Hptr1. apply IH; [done|done|lia|done]. }
  destruct l1 as [|x1 [|? ?]]; [simpl in Hlen1; lia| |simpl in Hshort1; lia].
  destruct Hl1 as [Hx1 _]. cbn [ptr_of] in Hx1, Hptr1. rewrite <- Hptr1.
  rewrite (ll_bind_val _ _ _ _ _
             (mergeSort_single fuel
                (mkWorld (unlink_last [x1] (nodes w)) (answers w) (stdout w))
                _ _ Hx1)).
  destruct (decide (2 ≤ length l2)%nat) as [Hlong2|Hshort2].
  { apply ll_bind_fault. apply IH; [done|done|lia|done]. }
  destruct l2 as [|x2 [|? ?]]; [simpl in *; lia| |simpl in Hshort2; lia].
  destruct Hl2 as [Hx2 _]. cbn [ptr_of] in Hx2 |- *.
  rewrite (ll_bind_val _ _ _ _ _
             (mergeSort_single fuel
                (mkWorld (unlink_last [x1] (nodes w)) (answers w) (stdout w))
                _ _ Hx2)).
  destruct fuel as [|fuel]; [simpl in *; lia|]. by apply merge_refused.
Qed.

(** X25: [mergeSort] on a list of [n] nodes, with an allocator that grants the
    [n - 1] dummy nodes it asks for: the same nodes, with the same data,
    relinked in ascending order; the dummies are freed again, nothing
    outside the list changes and nothing is printed. *)
Theorem mergeSort_sorts fuel w p l :
  is_list (nodes w) p l → (length l ≤ fuel)%nat →
  grants_fresh (length l - 1) w →
  ∃ w' l',
    mergeSort fuel p w = Val (ptr_of l' None) w'
    ∧ is_list (nodes w') (ptr_of l' None) l'
    ∧ l' ≡ₚ l ∧ Sorted Z.le l'.*2
    ∧ (∀ b, b ∉ l.*1 → nodes w' !! b = nodes w !! b)
    ∧ answers w' = drop (length l - 1) (answers w) ∧ stdout w' = stdout w.
Proof.
  intros [-> Hl] Hfuel Hgr.
  destruct (mergeSort_spec fuel w l Hl Hfuel Hgr)
    as (w' & l' & E & Hl' & Hp & Hs & Hf & Ha & Ho).
  exists w', l'. split; [done|]. split; [by split|]. split; [done|].
  split; [by apply Sorted_by_data|done].
Qed.

(** X26: When [malloc] refuses the first dummy node, [mergeSort] of a list of
    two or more nodes ends in the NULL dereference of [merge]. *)
Theorem mergeSort_faults fuel w p l :
  is_list (nodes w) p l → (2 ≤ length l)%nat → (length l ≤ fuel)%nat →
  grant w = None →
  mergeSort fuel p w = Fault ∧ ¬ grants_fresh (length l - 1) w.
Proof.
  intros [-> Hl] H2 Hfuel Hg. split; [by apply mergeSort_refused|].
  intros Hgr. destruct (length l - 1)%nat as [|n] eqn:Hn; [lia|].
  destruct (grants_fresh_next n w Hgr) as [a Ha]. congruence.
Qed.

(** ** Inserting an array *)

Lemma sublist_full {A} (l1 l2 : list A) :
  l1 `sublist_of` l2 → (length l2 ≤ length l1)%nat → l1 = l2.
Proof.
  induction 1 as [|x l1 l2 Hsub IH|x l1 l2 Hsub IH]; simpl; intros Hlen.
  - done.
  - f_equal. apply IH. lia.
  - apply sublist_length in Hsub. lia.
Qed.

Lemma array_cells_cons w x vals :
  array_cells (dom (nodes w)) (answers w) (x :: vals)
  = match grant w with
    | Some a =>
        (a, x) :: array_cells ({[a]} ∪ dom (nodes w)) (tail (answers w)) vals
    | None => array_cells (dom (nodes w)) (tail (answers w)) vals
    end.
Proof.
  unfold grant. cbn [array_cells].
  destruct (answers w) as [|[a|] rest]; [done| |done].
  destruct (valid_addr a); cbn [andb]; [|done].
  rewrite (bool_decide_ext (a ∉ dom (nodes w)) (nodes w !! a = None))
    by apply not_elem_of_dom.
  by case_bool_decide.
Qed.

Lemma link_last_dom h l a n :
  lseg h l None → dom (link_last l a (<[a := n]> h)) = {[a]} ∪ dom h.
Proof.
  intros Hl. unfold link_last. destruct (last l) as [x|] eqn:Hlast.
  - rewrite !dom_insert_L.
    assert (x.1 ∈ dom h) as Hx; cycle 1.
    { apply subseteq_union_1_L, singleton_subseteq_l, elem_of_union.
      by right. }
    apply elem_of_dom. apply (lseg_live _ _ _ _ Hl).
    apply list_elem_of_fmap. exists x. split; [done|].
    apply last_Some in Hlast as [l' ->]. apply elem_of_app. right. by left.
  - by rewrite dom_insert_L.
Qed.

Lemma insertArray_loop_spec n fuel w l arr size i :
  lseg (nodes w) l None → 0 ≤ i → size ≤ Z.of_nat (length arr) →
  n = Z.to_nat (size - i) → (length l + 2 * n ≤ fuel)%nat →
  ∃ w' ins failed,
    insertArray_loop fuel (ptr_of l None) arr size i w
    = Val (ptr_of (l ++ ins) None) w'
    ∧ ins = array_cells (dom (nodes w)) (answers w)
              (drop (Z.to_nat i) (take (Z.to_nat size) arr))
    ∧ lseg (nodes w') (l ++ ins) None
    ∧ ins.*2 `sublist_of` drop (Z.to_nat i) (take (Z.to_nat size) arr)
    ∧ (length ins + failed = n)%nat
    ∧ (∀ b, b ∉ (l ++ ins).*1 → nodes w' !! b = nodes w !! b)
    ∧ (∀ b, b ∈ ins.*1 → nodes w !! b = None)
    ∧ answers w' = drop n (answers w)
    ∧ stdout w' = stdout w ++ replicate failed ("Memory allocation failed!" +:+ nl).
Proof.
  revert fuel w l i.
  induction n as [|n IH]; intros fuel w l i Hl Hi Hsize Hn Hfuel.
  - exists w, [], 0%nat. rewrite !app_nil_r. split.
    { destruct fuel; cbn [insertArray_loop];
        destruct (Z.ltb_spec i size); (done || lia). }
    split; [by rewrite drop_ge by (rewrite length_take; lia)|].
    split; [done|]. split; [apply sublist_nil_l|]. split; [done|].
    split; [done|]. split; [|done]. intros b Hb. by apply elem_of_nil in Hb.
  - destruct fuel as [|fuel]; [lia|]. cbn [insertArray_loop].
    destruct (Z.ltb_spec i size) as [Hlt|?]; [|lia].
    destruct (lookup_lt_is_Some_2 arr (Z.to_nat i)) as [x Hx]; [lia|].
    rewrite Hx.
    assert (drop (Z.to_nat i) (take (Z.to_nat size) arr)
            = x :: drop (Z.to_nat (i + 1)) (take (Z.to_nat size) arr)) as Hdrop.
    { replace (Z.to_nat (i + 1)) with (S (Z.to_nat i)) by lia.
      apply drop_S. rewrite lookup_take_lt by lia. done. }
    rewrite Hdrop, array_cells_cons.
    destruct (grant w) as [a|] eqn:Hg.
    + rewrite (ll_bind_val _ _ _ _ _ (insertEnd_granted fuel w l x a Hl ltac:(lia) Hg)).
      pose proof (grant_fresh _ _ _ _ Hg Hl) as Hfresh.
      destruct (grant_Some _ _ Hg) as (_ & Hdead & _).
      destruct (IH fuel
                  (mkWorld (link_last l a (<[a := mkNode x None]> (nodes w)))
                     (tail (answers w)) (stdout w))
                  (l ++ [(a, x)]) (i + 1))
        as (w' & ins & failed & E & Hins & Hl' & Hsub & Hcount & Hf & Hd & Ha & Ho);
        [by apply link_last_lseg|lia|done|lia|rewrite length_app; simpl; lia|].
      cbn [nodes answers stdout] in *. rewrite <- app_assoc in E, Hl', Hf.
      rewrite link_last_dom in Hins by done.
      exists w', ((a, x) :: ins), failed. split; [done|].
      split; [by rewrite Hins|]. split; [done|].
      split; [by apply sublist_skip|]. split; [simpl; lia|].
      split; [|split; [|split; [|done]]].
      * intros b Hb. rewrite Hf by done. apply link_last_frame.
        rewrite fmap_app in Hb. apply not_elem_of_app in Hb as [Hb1 Hb2].
        apply not_elem_of_app. split; [done|].
        rewrite fmap_cons in Hb2. apply not_elem_of_cons in Hb2 as [Hb2 _].
        intros [->|[]%elem_of_nil]%elem_of_cons. done.
      * intros b Hb. rewrite fmap_cons in Hb.
        apply elem_of_cons in Hb as [->|Hb]; [done|].
        specialize (Hd b Hb). rewrite <- Hd. symmetry. apply link_last_frame.
        intros Hin. change [a] with ([(a, x)].*1) in Hin.
        rewrite <- fmap_app in Hin.
        assert (lseg (link_last l a (<[a := mkNode x None]> (nodes w)))
                  (l ++ [(a, x)]) None) as Hl1 by (by apply link_last_lseg).
        destruct (lseg_live _ _ _ _ Hl1 Hin) as [nb Hnb]. congruence.
      * rewrite Ha, tail_drop, drop_drop. done.
    + rewrite (ll_bind_val _ _ _ _ _ (insertEnd_refused fuel w (ptr_of l None) x Hg)).
      destruct (IH fuel
                  (mkWorld (nodes w) (tail (answers w))
                     (stdout w ++ ["Memory allocation failed!" +:+ nl]))
                  l (i + 1))
        as (w' & ins & failed & E & Hins & Hl' & Hsub & Hcount & Hf & Hd & Ha & Ho);
        [done|lia|done|lia|lia|].
      cbn [nodes answers stdout] in *.
      exists w', ins, (S failed). split; [done|]. split; [done|].
      split; [done|].
      split; [by apply sublist_cons|]. split; [lia|].
      split; [done|]. split; [done|]. split.
      * rewrite Ha, tail_drop, drop_drop. done.
      * rewrite Ho, <- app_assoc. done.
Qed.

(** X29: [insertArray] appends the first [size] values of the array in order,
    one node each, and which values get a node is decided by the allocator
    alone: the [i]-th value meets the allocator's [i]-th answer, and is
    appended where that answer is a valid address that is not live, in the
    heap before the call or as the node of an earlier value; where the
    answer is anything else the value is skipped. Each skipped value costs
    one failure line, and still the closing line reports that [size]
    elements were inserted. *)
Theorem insertArray_appends fuel w p l arr size :
  is_list (nodes w) p l → 0 < size ≤ Z.of_nat (length arr) →
  (length l + 2 * Z.to_nat size ≤ fuel)%nat →
  ∃ w' ins failed,
    insertArray fuel p (Some arr) size w = Val (ptr_of (l ++ ins) None) w'
    ∧ ins = array_cells (dom (nodes w)) (answers w) (take (Z.to_nat size) arr)
    ∧ is_list (nodes w') (ptr_of (l ++ ins) None) (l ++ ins)
    ∧ ins.*2 `sublist_of` take (Z.to_nat size) arr
    ∧ (length ins + failed = Z.to_nat size)%nat
    ∧ (failed = 0%nat → ins.*2 = take (Z.to_nat size) arr)
    ∧ (∀ b, b ∉ (l ++ ins).*1 → nodes w' !! b = nodes w !! b)
    ∧ answers w' = drop (Z.to_nat size) (answers w)
    ∧ stdout w'
      = stdout w ++ replicate failed ("Memory allocation failed!" +:+ nl)
        ++ ["✓ Inserted " +:+ pretty size +:+ " elements from array." +:+ nl].
Proof.
  intros [-> Hl] [Hpos Hsize] Hfuel. unfold insertArray.
  destruct (Z.leb_spec size 0) as [?|_]; [lia|].
  destruct (insertArray_loop_spec (Z.to_nat size) fuel w l arr size 0)
    as (w' & ins & failed & E & Hins & Hl' & Hsub & Hcount & Hf & Hd & Ha & Ho);
    [done|done|done|by rewrite Z.sub_0_r|done|].
  rewrite (ll_bind_val _ _ _ _ _ E). cbn [drop Z.to_nat] in Hsub, Hins.
  eexists _, ins, failed. split; [done|]. cbn [nodes answers stdout].
  split; [done|].
  split; [by split|]. split; [done|]. split; [done|].
  split; [|split; [done|split; [done|by rewrite Ho, <- app_assoc]]].
  intros ->. apply sublist_full; [done|].
  rewrite length_fmap, length_take. lia.
Qed.

(** X30: A list built by [insertArray] from nothing and handed to [freeList]
    leaves the heap of nodes exactly as it was before: every node that was
    allocated is freed, once, and no other node is touched. *)
Theorem build_then_free_restores fuel w arr size :
  0 < size ≤ Z.of_nat (length arr) → (2 * Z.to_nat size ≤ fuel)%nat →
  ∃ p w' w'',
    insertArray fuel None (Some arr) size w = Val p w'
    ∧ freeList fuel p w' = Val tt w''
    ∧ nodes w'' = nodes w
    ∧ answers w'' = drop (Z.to_nat size) (answers w).
Proof.
  intros [Hpos Hsize] Hfuel. unfold insertArray.
  destruct (Z.leb_spec size 0) as [?|_]; [lia|].
  destruct (insertArray_loop_spec (Z.to_nat size) fuel w [] arr size 0)
    as (w' & ins & failed & E & _ & Hl' & Hsub & Hcount & Hf & Hd & Ha & Ho);
    [done|done|done|by rewrite Z.sub_0_r|simpl; lia|].
  cbn [app ptr_of] in E, Hl', Hf. change (ptr_of [] None) with (@None addr) in E.
  rewrite (ll_bind_val _ _ _ _ _ E).
  destruct (freeList_walk_spec fuel ins
              (mkWorld (nodes w') (answers w')
                 (stdout w' ++ ["✓ Inserted " +:+ pretty size
                                +:+ " elements from array." +:+ nl])))
    as (w'' & E' & Hn & Ha' & Ho'); [done|lia|].
  eexists _, _, w''. split; [done|]. split; [done|].
  cbn [nodes answers stdout] in *. split; [|congruence].
  apply map_eq. intros b. rewrite Hn. case_decide as Hb.
  - symmetry. by apply Hd.
  - by apply Hf.
Qed.

End linked_list.

(** * The concrete store: instances of the theorems *)

#[global] Existing Instance signed_char.

(** C8, counterexample: where [char] is signed, the key made of the single
    byte 233 hashes to 398, while the reference algorithm over the byte
    values gives 654 (the index the code computes where [char] is
    unsigned). *)
Lemma hash_function_high_byte :
  @hash_function true (String (Ascii.ascii_of_nat 233) EmptyString) = 398
  ∧ djb2_bytes 5381 (String (Ascii.ascii_of_nat 233) EmptyString)
    mod HASH_TABLE_SIZE = 654
  ∧ @hash_function false (String (Ascii.ascii_of_nat 233) EmptyString) = 654
  ∧ @hash_function true (String (Ascii.ascii_of_nat 233) EmptyString)
    ≠ djb2_bytes 5381 (String (Ascii.ascii_of_nat 233) EmptyString)
      mod HASH_TABLE_SIZE.
Proof. repeat split; try reflexivity. intros Heq. vm_compute in Heq. discriminate. Qed.

Lemma demo_ok : store_ok demo_db demo_mem.
Proof. apply (bool_decide_unpack _). vm_compute. exact I. Qed.

Lemma blank_ok : store_ok blank_db blank_mem.
Proof. apply (bool_decide_unpack _). vm_compute. exact I. Qed.

(** C1, counterexample: on the store just created, [db_set] with the empty
    key and the value "v" returns true; the entry is stored ([db_count]
    goes from 0 to 1) and [db_get] of the empty key finds "v". *)
Lemma empty_key_is_stored :
  ∃ d' m' p,
    db_set (Some blank_db) (Some "") (Some "v") blank_mem
    = Some ((true, Some d'), m')
    ∧ db_count (Some blank_db) = 0 ∧ db_count (Some d') = 1
    ∧ db_get (Some d') (Some "") m' = Some (Some p, m')
    ∧ blocks m' !! p = Some "v".
Proof.
  exists (fst after_empty_key), (snd after_empty_key), 4144.
  repeat split; vm_compute; reflexivity.
Qed.

(** A key of 257 characters is refused on the concrete store. *)
Lemma db_set_rejects_long_arguments_witness :
  (MAX_KEY_LENGTH < strlen long_key ∨ MAX_VALUE_LENGTH < strlen "v")
  ∧ db_set (Some demo_db) (Some long_key) (Some "v") demo_mem
    = Some ((false, Some demo_db), demo_mem).
Proof.
  assert (MAX_KEY_LENGTH < strlen long_key ∨ MAX_VALUE_LENGTH < strlen "v") as Hlen
    by (left; vm_compute; reflexivity).
  split; [exact Hlen|].
  exact (db_set_rejects_long_arguments demo_db demo_mem long_key "v" Hlen).
Defined.

(** Setting "city" to "Paris" on the concrete store inserts a new entry;
    the value is then found. *)
Lemma set_then_get_witness :
  store_ok demo_db demo_mem
  ∧ db_set (Some demo_db) (Some "city") (Some "Paris") demo_mem
    = Some ((true, Some (fst after_city)), snd after_city)
  ∧ strlen "city" < MAX_KEY_LENGTH ∧ strlen "Paris" < MAX_VALUE_LENGTH
  ∧ ∃ d' p, Some (fst after_city) = Some d'
            ∧ db_get (Some d') (Some "city") (snd after_city)
              = Some (Some p, snd after_city)
            ∧ blocks (snd after_city) !! p = Some "Paris".
Proof.
  assert (store_ok demo_db demo_mem) as Hok
    by (apply (bool_decide_unpack _); vm_compute; exact I).
  assert (db_set (Some demo_db) (Some "city") (Some "Paris") demo_mem
          = Some ((true, Some (fst after_city)), snd after_city)) as Hset
    by (vm_compute; reflexivity).
  split; [exact Hok|]. split; [exact Hset|].
  exact (set_then_get _ _ _ _ _ _ Hok Hset).
Defined.

(** Setting the present key "age" to "31" on the concrete store. *)
Lemma set_existing_updates_in_place_witness :
  store_ok demo_db demo_mem
  ∧ db_exists (Some demo_db) (Some "age") demo_mem = Some (true, demo_mem)
  ∧ db_set (Some demo_db) (Some "age") (Some "31") demo_mem
    = Some ((true, Some (fst after_age)), snd after_age)
  ∧ ∃ d' l1 e l2 nv,
      Some (fst after_age) = Some d'
      ∧ db_get (Some d') (Some "age") (snd after_age)
        = Some (Some nv, snd after_age)
      ∧ blocks (snd after_age) !! nv = Some "31"
      ∧ db_count (Some d') = db_count (Some demo_db)
      ∧ table demo_db !! slot "age" = Some (l1 ++ e :: l2)
      ∧ Forall (differs demo_mem "age") l1 ∧ key_at demo_mem e = Some "age"
      ∧ table d' = <[slot "age" := l1 ++ mkEntry (key e) nv :: l2]> (table demo_db)
      ∧ key_at (snd after_age) (mkEntry (key e) nv) = Some "age"
      ∧ (λ c : list Entry, key <$> c) <$> table d'
        = (λ c : list Entry, key <$> c) <$> table demo_db.
Proof.
  assert (store_ok demo_db demo_mem) as Hok
    by (apply (bool_decide_unpack _); vm_compute; exact I).
  assert (db_exists (Some demo_db) (Some "age") demo_mem = Some (true, demo_mem))
    as Hex by (vm_compute; reflexivity).
  assert (db_set (Some demo_db) (Some "age") (Some "31") demo_mem
          = Some ((true, Some (fst after_age)), snd after_age)) as Hset
    by (vm_compute; reflexivity).
  split; [exact Hok|]. split; [exact Hex|]. split; [exact Hset|].
  exact (set_existing_updates_in_place _ _ _ _ _ _ Hok Hex Hset).
Defined.

(** Deleting "a", the second entry of its chain, on the concrete store. *)
Lemma db_delete_unlinks_witness :
  store_ok demo_db demo_mem
  ∧ ∃ r d' m',
      db_delete (Some demo_db) (Some "a") demo_mem = Some ((r, Some d'), m')
      ∧ db_exists (Some demo_db) (Some "a") demo_mem = Some (r, demo_mem)
      ∧ (r = true →
         db_count (Some d') = db_count (Some demo_db) - 1
         ∧ ∃ l1 e l2,
             table demo_db !! slot "a" = Some (l1 ++ e :: l2)
             ∧ Forall (differs demo_mem "a") l1 ∧ key_at demo_mem e = Some "a"
             ∧ table d' = <[slot "a" := l1 ++ l2]> (table demo_db))
      ∧ (r = false → d' = demo_db ∧ m' = demo_mem).
Proof.
  assert (store_ok demo_db demo_mem) as Hok
    by (apply (bool_decide_unpack _); vm_compute; exact I).
  split; [exact Hok|].
  exact (db_delete_unlinks demo_db demo_mem "a" Hok).
Defined.

(** Calls and sequences of calls on the concrete store. *)
Lemma operations_preserve_invariants_witness :
  store_ok demo_db demo_mem
  ∧ (∀ o, ∃ d' m', step o demo_db demo_mem = Some (Some d', m')
                   ∧ heap_ok d' m' ∧ count_ok d' ∧ keys_unique d' m'
                   ∧ placed_ok d' m')
  ∧ (∀ os, ∃ d' m', run os demo_db demo_mem = Some (Some d', m')
                    ∧ heap_ok d' m' ∧ count_ok d' ∧ keys_unique d' m'
                    ∧ placed_ok d' m').
Proof.
  assert (store_ok demo_db demo_mem) as Hok
    by (apply (bool_decide_unpack _); vm_compute; exact I).
  split; [exact Hok|].
  exact (operations_preserve_invariants demo_db demo_mem Hok).
Defined.

(** On the concrete store with an allocator that refuses the third request,
    [db_set] of a new key obtains the entry and the copy of the key, fails to
    copy the value, releases both and returns false. *)
Lemma db_set_failure_atomic_witness :
  db_set (Some demo_db) (Some "city") (Some "Paris") tight_memory
  = Some ((false, Some demo_db), mkMem (blocks demo_mem) (used demo_mem) [])
  ∧ Some demo_db = Some demo_db
  ∧ blocks (mkMem (blocks demo_mem) (used demo_mem) []) = blocks tight_memory
  ∧ used (mkMem (blocks demo_mem) (used demo_mem) []) = used tight_memory.
Proof.
  assert (db_set (Some demo_db) (Some "city") (Some "Paris") tight_memory
          = Some ((false, Some demo_db), mkMem (blocks demo_mem) (used demo_mem) []))
    as Hset by (vm_compute; reflexivity).
  split; [exact Hset|].
  exact (db_set_failure_atomic _ _ _ _ _ _ Hset).
Defined.

(** [db_keys] on the concrete store: the allocator grants the array, and
    the four key pointers are returned. *)
Lemma db_keys_shares_key_strings_witness :
  store_ok demo_db demo_mem
  ∧ (db_count (Some demo_db) ≠ 0
     ∧ grants_block demo_mem (SIZEOF_ptr * db_count (Some demo_db)))
  ∧ ∃ r m',
      db_keys (Some demo_db) (Some 0) demo_mem
      = Some ((r, Some (db_count (Some demo_db))), m')
      ∧ blocks m' = blocks demo_mem
      ∧ r = (if decide (db_count (Some demo_db) ≠ 0
                        ∧ grants_block demo_mem
                            (SIZEOF_ptr * db_count (Some demo_db)))
             then Some (Some <$> (key <$> entries demo_db)) else None)
      ∧ Z.of_nat (length (key <$> entries demo_db)) = db_count (Some demo_db)
      ∧ Forall (λ p, is_Some (blocks m' !! p)) (key <$> entries demo_db)
      ∧ ∀ k d2 m2,
          db_delete (Some demo_db) (Some k) m' = Some ((true, Some d2), m2) →
          ∃ p, p ∈ key <$> entries demo_db
               ∧ blocks m' !! p = Some k ∧ blocks m2 !! p = None.
Proof.
  assert (store_ok demo_db demo_mem) as Hok
    by (apply (bool_decide_unpack _); vm_compute; exact I).
  assert (db_count (Some demo_db) ≠ 0
          ∧ grants_block demo_mem (SIZEOF_ptr * db_count (Some demo_db))) as Hg
    by (apply (bool_decide_unpack _); vm_compute; exact I).
  split; [exact Hok|]. split; [exact Hg|].
  exact (db_keys_shares_key_strings demo_db demo_mem 0 Hok).
Defined.

(** C7, counterexample: on the store holding "name", "age", "wj" and "a",
    [db_keys] returns four pointers; the first is the [key] field of the
    entry for "name" and reads "name". After [db_delete(db, "name")] the
    same element of the array refers to a freed block: reading it has no
    result. *)
Lemma keys_alias_freed_strings :
  ∃ ks m1 p e d2 m2,
    db_keys (Some demo_db) (Some 0) demo_mem = Some ((Some ks, Some 4), m1)
    ∧ ks !! 0%nat = Some (Some p)
    ∧ e ∈ entries demo_db ∧ key e = p
    ∧ load p m1 = Some ("name", m1)
    ∧ db_delete (Some demo_db) (Some "name") m1 = Some ((true, Some d2), m2)
    ∧ load p m2 = None.
Proof.
  eexists [Some 4128; Some 4176; Some 4272; Some 4224], _, 4128,
    (mkEntry 4128 4144), _, _.
  split; [vm_compute; reflexivity|].
  split; [reflexivity|].
  split; [apply (bool_decide_unpack _); vm_compute; exact I|].
  split; [reflexivity|].
  split; [vm_compute; reflexivity|].
  split; [vm_compute; reflexivity|].
  vm_compute; reflexivity.
Qed.

(** [db_stats] on the concrete store: four entries, three used buckets,
    one collision, longest chain two. *)
Lemma db_stats_consistent_witness :
  store_ok demo_db demo_mem
  ∧ db_stats (Some demo_db) = mkDBStats 4 1 2 3
  ∧ total_entries (db_stats (Some demo_db)) = db_count (Some demo_db)
  ∧ total_entries (db_stats (Some demo_db)) = sum_list_Z (chain_lengths demo_db)
  ∧ used_buckets (db_stats (Some demo_db))
    = Z.of_nat (length (nonempty_buckets demo_db))
  ∧ total_collisions (db_stats (Some demo_db))
    = sum_list_Z (chain_collisions <$> table demo_db)
  ∧ max_chain_length (db_stats (Some demo_db)) = max_list_Z (chain_lengths demo_db)
  ∧ (entries demo_db = [] → max_chain_length (db_stats (Some demo_db)) = 0)
  ∧ step OpStats demo_db demo_mem = Some (Some demo_db, demo_mem).
Proof.
  assert (store_ok demo_db demo_mem) as Hok
    by (apply (bool_decide_unpack _); vm_compute; exact I).
  split; [exact Hok|]. split; [vm_compute; reflexivity|].
  exact (db_stats_consistent demo_db demo_mem Hok).
Defined.

(** * The concrete store: instances of the further properties *)

(** Setting "city" leaves "age" where it was. *)
Lemma set_keeps_other_keys_witness :
  store_ok demo_db demo_mem
  ∧ db_set (Some demo_db) (Some "city") (Some "Paris") demo_mem
    = Some ((true, Some (fst after_city)), snd after_city)
  ∧ "age" ≠ "city"
  ∧ ∃ q, db_get (Some demo_db) (Some "age") demo_mem = Some (q, demo_mem)
         ∧ db_get (Some (fst after_city)) (Some "age") (snd after_city)
           = Some (q, snd after_city)
         ∧ ∀ p, q = Some p →
                blocks (snd after_city) !! p = blocks demo_mem !! p.
Proof.
  assert (store_ok demo_db demo_mem) as Hok
    by (apply (bool_decide_unpack _); vm_compute; exact I).
  assert (db_set (Some demo_db) (Some "city") (Some "Paris") demo_mem
          = Some ((true, Some (fst after_city)), snd after_city)) as Hset
    by (vm_compute; reflexivity).
  assert ("age" ≠ "city") as Hne by (apply (bool_decide_unpack _); vm_compute; exact I).
  split; [exact Hok|]. split; [exact Hset|]. split; [exact Hne|].
  exact (set_keeps_other_keys _ _ _ _ _ _ _ _ Hok Hset Hne).
Defined.

(** Deleting "a" leaves "wj", the other entry of the same chain, where it
    was. *)
Lemma delete_keeps_other_keys_witness :
  store_ok demo_db demo_mem
  ∧ db_delete (Some demo_db) (Some "a") demo_mem
    = Some ((true, Some (fst after_delete_a)), snd after_delete_a)
  ∧ "wj" ≠ "a"
  ∧ ∃ q, db_get (Some demo_db) (Some "wj") demo_mem = Some (q, demo_mem)
         ∧ db_get (Some (fst after_delete_a)) (Some "wj") (snd after_delete_a)
           = Some (q, snd after_delete_a)
         ∧ ∀ p, q = Some p →
                blocks (snd after_delete_a) !! p = blocks demo_mem !! p.
Proof.
  assert (store_ok demo_db demo_mem) as Hok
    by (apply (bool_decide_unpack _); vm_compute; exact I).
  assert (db_delete (Some demo_db) (Some "a") demo_mem
          = Some ((true, Some (fst after_delete_a)), snd after_delete_a)) as Hdel
    by (vm_compute; reflexivity).
  assert ("wj" ≠ "a") as Hne by (apply (bool_decide_unpack _); vm_compute; exact I).
  split; [exact Hok|]. split; [exact Hdel|]. split; [exact Hne|].
  exact (delete_keeps_other_keys _ _ _ _ _ _ _ Hok Hdel Hne).
Defined.

(** After deleting "a" the key is absent. *)
Lemma delete_then_get_witness :
  store_ok demo_db demo_mem
  ∧ db_delete (Some demo_db) (Some "a") demo_mem
    = Some ((true, Some (fst after_delete_a)), snd after_delete_a)
  ∧ db_get (Some (fst after_delete_a)) (Some "a") (snd after_delete_a)
    = Some (None, snd after_delete_a)
  ∧ db_exists (Some (fst after_delete_a)) (Some "a") (snd after_delete_a)
    = Some (false, snd after_delete_a).
Proof.
  assert (store_ok demo_db demo_mem) as Hok
    by (apply (bool_decide_unpack _); vm_compute; exact I).
  assert (db_delete (Some demo_db) (Some "a") demo_mem
          = Some ((true, Some (fst after_delete_a)), snd after_delete_a)) as Hdel
    by (vm_compute; reflexivity).
  split; [exact Hok|]. split; [exact Hdel|].
  exact (delete_then_get _ _ _ _ _ _ Hok Hdel).
Defined.

(** The pointer that [db_get] returns for "age" on the concrete store. *)
Lemma mutation_frees_borrowed_value_witness :
  store_ok demo_db demo_mem
  ∧ db_get (Some demo_db) (Some "age") demo_mem = Some (Some 4192, demo_mem)
  ∧ (∀ v db' m',
       db_set (Some demo_db) (Some "age") (Some v) demo_mem
       = Some ((true, db'), m') →
       blocks m' !! 4192 = None
       ∧ ∃ p', db_get db' (Some "age") m' = Some (Some p', m') ∧ p' ≠ 4192)
  ∧ (∀ r db' m',
       db_delete (Some demo_db) (Some "age") demo_mem = Some ((r, db'), m') →
       r = true ∧ blocks m' !! 4192 = None).
Proof.
  assert (store_ok demo_db demo_mem) as Hok
    by (apply (bool_decide_unpack _); vm_compute; exact I).
  assert (db_get (Some demo_db) (Some "age") demo_mem = Some (Some 4192, demo_mem))
    as Hget by (vm_compute; reflexivity).
  split; [exact Hok|]. split; [exact Hget|].
  exact (mutation_frees_borrowed_value _ _ _ _ Hok Hget).
Defined.

(** Setting "city" on the concrete store, read as a map. *)
Lemma set_is_map_insert_witness :
  store_ok demo_db demo_mem
  ∧ db_set (Some demo_db) (Some "city") (Some "Paris") demo_mem
    = Some ((true, Some (fst after_city)), snd after_city)
  ∧ ∀ k', lookup_value (fst after_city) (snd after_city) k'
          = if decide (k' = "city") then Some "Paris"
            else lookup_value demo_db demo_mem k'.
Proof.
  assert (store_ok demo_db demo_mem) as Hok
    by (apply (bool_decide_unpack _); vm_compute; exact I).
  assert (db_set (Some demo_db) (Some "city") (Some "Paris") demo_mem
          = Some ((true, Some (fst after_city)), snd after_city)) as Hset
    by (vm_compute; reflexivity).
  split; [exact Hok|]. split; [exact Hset|].
  exact (set_is_map_insert _ _ _ _ _ _ Hok Hset).
Defined.

(** Deleting "a" on the concrete store, read as a map. *)
Lemma delete_is_map_delete_witness :
  store_ok demo_db demo_mem
  ∧ db_delete (Some demo_db) (Some "a") demo_mem
    = Some ((true, Some (fst after_delete_a)), snd after_delete_a)
  ∧ (true = true ↔ is_Some (lookup_value demo_db demo_mem "a"))
  ∧ ∀ k', lookup_value (fst after_delete_a) (snd after_delete_a) k'
          = if decide (k' = "a") then None else lookup_value demo_db demo_mem k'.
Proof.
  assert (store_ok demo_db demo_mem) as Hok
    by (apply (bool_decide_unpack _); vm_compute; exact I).
  assert (db_delete (Some demo_db) (Some "a") demo_mem
          = Some ((true, Some (fst after_delete_a)), snd after_delete_a)) as Hdel
    by (vm_compute; reflexivity).
  split; [exact Hok|]. split; [exact Hdel|].
  exact (delete_is_map_delete _ _ _ _ _ _ Hok Hdel).
Defined.

(** "city" is new to the concrete store. *)
Lemma set_new_key_prepends_witness :
  store_ok demo_db demo_mem
  ∧ db_exists (Some demo_db) (Some "city") demo_mem = Some (false, demo_mem)
  ∧ db_set (Some demo_db) (Some "city") (Some "Paris") demo_mem
    = Some ((true, Some (fst after_city)), snd after_city)
  ∧ db_count (Some (fst after_city)) = db_count (Some demo_db) + 1
  ∧ ∃ e c, table demo_db !! slot "city" = Some c
           ∧ table (fst after_city) = <[slot "city" := e :: c]> (table demo_db)
           ∧ key_at (snd after_city) e = Some "city"
           ∧ blocks (snd after_city) !! value e = Some "Paris"
           ∧ blocks demo_mem !! key e = None
           ∧ blocks demo_mem !! value e = None.
Proof.
  assert (store_ok demo_db demo_mem) as Hok
    by (apply (bool_decide_unpack _); vm_compute; exact I).
  assert (db_exists (Some demo_db) (Some "city") demo_mem = Some (false, demo_mem))
    as Hex by (vm_compute; reflexivity).
  assert (db_set (Some demo_db) (Some "city") (Some "Paris") demo_mem
          = Some ((true, Some (fst after_city)), snd after_city)) as Hset
    by (vm_compute; reflexivity).
  split; [exact Hok|]. split; [exact Hex|]. split; [exact Hset|].
  exact (set_new_key_prepends _ _ _ _ _ _ Hok Hex Hset).
Defined.

(** On the concrete store the key "age" is present, and an allocator that
    grants one request and refuses the following ones is enough to update
    it. *)
Lemma set_succeeds_with_memory_witness :
  store_ok demo_db tight_update
  ∧ (strlen "age" < MAX_KEY_LENGTH ∧ strlen "31" < MAX_VALUE_LENGTH
     ∧ grants_set demo_db tight_update "age")
  ∧ ¬ grants_entry tight_update
  ∧ ((∃ d' m', db_set (Some demo_db) (Some "age") (Some "31") tight_update
               = Some ((true, Some d'), m'))
     ↔ strlen "age" < MAX_KEY_LENGTH ∧ strlen "31" < MAX_VALUE_LENGTH
       ∧ grants_set demo_db tight_update "age").
Proof.
  assert (store_ok demo_db tight_update) as Hok
    by (apply (bool_decide_unpack _); vm_compute; exact I).
  assert (strlen "age" < MAX_KEY_LENGTH ∧ strlen "31" < MAX_VALUE_LENGTH
          ∧ grants_set demo_db tight_update "age") as Hg
    by (apply (bool_decide_unpack _); vm_compute; exact I).
  assert (¬ grants_entry tight_update) as Hno
    by (apply (bool_decide_unpack _); vm_compute; exact I).
  split; [exact Hok|]. split; [exact Hg|]. split; [exact Hno|].
  exact (set_succeeds_with_memory demo_db tight_update "age" "31" Hok).
Defined.

(** The keys of the concrete store. *)
Lemma keys_enumerates_store_witness :
  store_ok demo_db demo_mem
  ∧ db_keys (Some demo_db) (Some 0) demo_mem
    = Some ((Some (fst (fst demo_keys)), snd (fst demo_keys)), snd demo_keys)
  ∧ ∃ ps, fst (fst demo_keys) = Some <$> ps
          ∧ Z.of_nat (length ps) = db_count (Some demo_db)
          ∧ NoDup ((λ p, blocks (snd demo_keys) !! p) <$> ps)
          ∧ ∀ k, Some k ∈ (λ p, blocks (snd demo_keys) !! p) <$> ps
                 ↔ db_exists (Some demo_db) (Some k) (snd demo_keys)
                   = Some (true, snd demo_keys).
Proof.
  assert (store_ok demo_db demo_mem) as Hok
    by (apply (bool_decide_unpack _); vm_compute; exact I).
  assert (db_keys (Some demo_db) (Some 0) demo_mem
          = Some ((Some (fst (fst demo_keys)), snd (fst demo_keys)), snd demo_keys))
    as Hkeys by (vm_compute; reflexivity).
  split; [exact Hok|]. split; [exact Hkeys|].
  exact (keys_enumerates_store _ _ _ _ _ _ Hok Hkeys).
Defined.

(** The statistics of the concrete store: 1 + 3 = 4. *)
Lemma db_stats_relations_witness :
  store_ok demo_db demo_mem
  ∧ total_collisions (db_stats (Some demo_db)) + used_buckets (db_stats (Some demo_db))
    = total_entries (db_stats (Some demo_db))
  ∧ 0 ≤ used_buckets (db_stats (Some demo_db)) ≤ HASH_TABLE_SIZE
  ∧ used_buckets (db_stats (Some demo_db)) ≤ total_entries (db_stats (Some demo_db))
  ∧ 0 ≤ total_collisions (db_stats (Some demo_db))
  ∧ max_chain_length (db_stats (Some demo_db)) ≤ total_entries (db_stats (Some demo_db))
  ∧ (0 < total_entries (db_stats (Some demo_db)) →
     1 ≤ max_chain_length (db_stats (Some demo_db)))
  ∧ (total_entries (db_stats (Some demo_db)) = 0 →
     db_stats (Some demo_db) = mkDBStats 0 0 0 0).
Proof.
  assert (store_ok demo_db demo_mem) as Hok
    by (apply (bool_decide_unpack _); vm_compute; exact I).
  split; [exact Hok|].
  exact (db_stats_relations _ _ Hok).
Defined.

(** [db_create] on the fresh memory: the allocator grants the struct and
    the empty store is returned. *)
Lemma db_create_gives_empty_store_witness :
  0 ≤ used fresh_memory
  ∧ grants_block fresh_memory SIZEOF_Database
  ∧ ∃ r m',
      db_create fresh_memory = Some (r, m') ∧ blocks m' = blocks fresh_memory
      ∧ future m' = tail (future fresh_memory)
      ∧ r = (if decide (grants_block fresh_memory SIZEOF_Database)
             then Some (mkDatabase (replicate (Z.to_nat HASH_TABLE_SIZE) []) 0)
             else None)
      ∧ match r with
        | None => used m' = used fresh_memory
        | Some d =>
            store_ok d m' ∧ used m' = used fresh_memory + SIZEOF_Database
            ∧ Z.of_nat (length (table d)) = HASH_TABLE_SIZE
            ∧ entries d = [] ∧ db_count (Some d) = 0
            ∧ (∀ k, db_get (Some d) (Some k) m' = Some (None, m')
                    ∧ db_exists (Some d) (Some k) m' = Some (false, m'))
            ∧ (∀ c0, db_keys (Some d) (Some c0) m' = Some ((None, Some 0), m'))
            ∧ db_stats (Some d) = mkDBStats 0 0 0 0
        end.
Proof.
  assert (0 ≤ used fresh_memory) as Hu
    by (apply (bool_decide_unpack _); vm_compute; exact I).
  assert (grants_block fresh_memory SIZEOF_Database) as Hg
    by (apply (bool_decide_unpack _); vm_compute; exact I).
  split; [exact Hu|]. split; [exact Hg|].
  exact (db_create_gives_empty_store _ Hu).
Defined.

(** Clearing the concrete store. *)
Lemma db_clear_empties_witness :
  store_ok demo_db demo_mem
  ∧ ∃ d' m',
      db_clear (Some demo_db) demo_mem = Some (Some d', m')
      ∧ store_ok d' m'
      ∧ length (table d') = length (table demo_db) ∧ entries d' = []
      ∧ db_count (Some d') = 0
      ∧ (∀ k, db_get (Some d') (Some k) m' = Some (None, m')
              ∧ db_exists (Some d') (Some k) m' = Some (false, m'))
      ∧ (∀ c0, db_keys (Some d') (Some c0) m' = Some ((None, Some 0), m'))
      ∧ (∀ p, blocks m' !! p
              = if decide (p ∈ pointers (entries demo_db)) then None
                else blocks demo_mem !! p)
      ∧ used m' = used demo_mem - SIZEOF_Entry * db_count (Some demo_db).
Proof.
  assert (store_ok demo_db demo_mem) as Hok
    by (apply (bool_decide_unpack _); vm_compute; exact I).
  split; [exact Hok|].
  exact (db_clear_empties _ _ Hok).
Defined.

(** Destroying the concrete store. *)
Lemma db_destroy_releases_witness :
  store_ok demo_db demo_mem
  ∧ ∃ m',
      db_destroy (Some demo_db) demo_mem = Some (tt, m')
      ∧ (∀ p, blocks m' !! p
              = if decide (p ∈ pointers (entries demo_db)) then None
                else blocks demo_mem !! p)
      ∧ used m' = used demo_mem - SIZEOF_Entry * db_count (Some demo_db)
                  - SIZEOF_Database
      ∧ 0 ≤ used m'.
Proof.
  assert (store_ok demo_db demo_mem) as Hok
    by (apply (bool_decide_unpack _); vm_compute; exact I).
  split; [exact Hok|].
  exact (db_destroy_releases _ _ Hok).
Defined.

(** A session from [db_create] to [db_destroy]. *)
Lemma lifecycle_restores_strings_witness :
  0 ≤ used fresh_memory
  ∧ db_create fresh_memory = Some (Some blank_db, blank_mem)
  ∧ run session blank_db blank_mem
    = Some (Some (fst after_session), snd after_session)
  ∧ (∀ p, p ∉ pointers (entries (fst after_session)) →
          blocks (snd after_session) !! p = blocks fresh_memory !! p)
  ∧ (∀ p, p ∈ pointers (entries (fst after_session)) →
          blocks fresh_memory !! p = None
          ∧ is_Some (blocks (snd after_session) !! p))
  ∧ ∃ m3, db_destroy (Some (fst after_session)) (snd after_session) = Some (tt, m3)
          ∧ blocks m3 = blocks fresh_memory.
Proof.
  assert (0 ≤ used fresh_memory) as Hu by (apply (bool_decide_unpack _); vm_compute; exact I).
  assert (db_create fresh_memory = Some (Some blank_db, blank_mem)) as Hcreate
    by (vm_compute; reflexivity).
  assert (run session blank_db blank_mem
          = Some (Some (fst after_session), snd after_session)) as Hrun
    by (vm_compute; reflexivity).
  split; [exact Hu|]. split; [exact Hcreate|]. split; [exact Hrun|].
  exact (lifecycle_restores_strings _ _ _ _ _ _ Hu Hcreate Hrun).
Defined.

(** * The concrete lists: instances of the theorems *)

Section linked_list_instances.
Import LinkedList.

(** Appending 40 to the list 30 -> 10 -> 20 -> 10. *)
Lemma insertEnd_appends_witness :
  is_list (nodes sample_world) (Some 16) sample
  ∧ (length sample ≤ 4)%nat
  ∧ ∃ w' l',
      insertEnd 4 (Some 16) 40 sample_world = Val (ptr_of l' None) w'
      ∧ is_list (nodes w') (ptr_of l' None) l'
      ∧ (sample ≠ [] → ptr_of l' None = Some 16)
      ∧ (∀ b, b ∉ l'.*1 → nodes w' !! b = nodes sample_world !! b)
      ∧ answers w' = tail (answers sample_world)
      ∧ match grant sample_world with
        | Some a =>
            l' = sample ++ [(a, 40)] ∧ stdout w' = stdout sample_world
            ∧ ∀ x, x ∈ sample → last sample ≠ Some x →
                   nodes w' !! x.1 = nodes sample_world !! x.1
        | None =>
            l' = sample ∧ nodes w' = nodes sample_world
            ∧ stdout w'
              = stdout sample_world ++ ["Memory allocation failed!" +:+ nl]
        end.
Proof.
  assert (is_list (nodes sample_world) (Some 16) sample) as Hl
    by (apply (bool_decide_unpack _); vm_compute; exact I).
  assert (length sample ≤ 4)%nat as Hfuel by (simpl; lia).
  split; [exact Hl|]. split; [exact Hfuel|].
  exact (insertEnd_appends 4 sample_world (Some 16) sample 40 Hl Hfuel).
Defined.

(** Deleting 10 from the list 30 -> 10 -> 20 -> 10. *)
Lemma deleteNode_removes_first_witness :
  is_list (nodes sample_world) (Some 16) sample
  ∧ (length sample ≤ 4)%nat
  ∧ ∃ w' l',
      deleteNode 4 (Some 16) 10 sample_world = Val (ptr_of l' None) w'
      ∧ is_list (nodes w') (ptr_of l' None) l'
      ∧ answers w' = answers sample_world
      ∧ (∀ b, b ∉ sample.*1 → nodes w' !! b = nodes sample_world !! b)
      ∧ match list_find (λ x, x.2 = 10) sample with
        | Some (i, x) =>
            l' = delete i sample ∧ nodes w' !! x.1 = None
            ∧ stdout w' = stdout sample_world
                ++ ["Element " +:+ pretty 10 +:+ " deleted successfully." +:+ nl]
        | None =>
            l' = sample ∧ nodes w' = nodes sample_world
            ∧ stdout w' = stdout sample_world
                ++ [if decide (sample = []) then "List is empty!" +:+ nl
                    else "Element " +:+ pretty 10 +:+ " not found in the list!" +:+ nl]
        end.
Proof.
  assert (is_list (nodes sample_world) (Some 16) sample) as Hl
    by (apply (bool_decide_unpack _); vm_compute; exact I).
  assert (length sample ≤ 4)%nat as Hfuel by (simpl; lia).
  split; [exact Hl|]. split; [exact Hfuel|].
  exact (deleteNode_removes_first 4 sample_world (Some 16) sample 10 Hl Hfuel).
Defined.

(** Printing the list 30 -> 10 -> 20 -> 10. *)
Lemma display_prints_witness :
  is_list (nodes sample_world) (Some 16) sample
  ∧ (length sample ≤ 4)%nat
  ∧ display 4 (Some 16) "List" sample_world
    = Val tt (mkWorld (nodes sample_world) (answers sample_world)
                (stdout sample_world ++
                 match sample with
                 | [] => ["List" +:+ ": [Empty]" +:+ nl]
                 | _ :: _ =>
                     ["List" +:+ ": "] ++ ((λ d, pretty d +:+ " -> ") <$> sample.*2)
                     ++ ["NULL" +:+ nl]
                 end)).
Proof.
  assert (is_list (nodes sample_world) (Some 16) sample) as Hl
    by (apply (bool_decide_unpack _); vm_compute; exact I).
  assert (length sample ≤ 4)%nat as Hfuel by (simpl; lia).
  split; [exact Hl|]. split; [exact Hfuel|].
  exact (display_prints 4 sample_world (Some 16) sample "List" Hl Hfuel).
Defined.

(** Reversing the list 30 -> 10 -> 20 -> 10, and back. *)
Lemma reverseList_reverses_witness :
  is_list (nodes sample_world) (Some 16) sample
  ∧ (length sample ≤ 4)%nat
  ∧ ∃ w', reverseList 4 (Some 16) sample_world
          = Val (ptr_of (reverse sample) None) w'
      ∧ is_list (nodes w') (ptr_of (reverse sample) None) (reverse sample)
      ∧ (∀ b, b ∉ sample.*1 → nodes w' !! b = nodes sample_world !! b)
      ∧ answers w' = answers sample_world ∧ stdout w' = stdout sample_world
      ∧ reverseList 4 (ptr_of (reverse sample) None) w'
        = Val (Some 16) sample_world.
Proof.
  assert (is_list (nodes sample_world) (Some 16) sample) as Hl
    by (apply (bool_decide_unpack _); vm_compute; exact I).
  assert (length sample ≤ 4)%nat as Hfuel by (simpl; lia).
  split; [exact Hl|]. split; [exact Hfuel|].
  exact (reverseList_reverses 4 sample_world (Some 16) sample Hl Hfuel).
Defined.

(** Searching 10 in the list 30 -> 10 -> 20 -> 10. *)
Lemma search_finds_first_witness :
  is_list (nodes sample_world) (Some 16) sample
  ∧ (length sample ≤ 4)%nat
  ∧ Z.of_nat (length sample) ≤ INT_MAX
  ∧ ∃ r, search 4 (Some 16) 10 sample_world = Val r sample_world
      ∧ if decide (10 ∈ sample.*2)
        then 0 ≤ r ∧ sample.*2 !! Z.to_nat r = Some 10
             ∧ ∀ j, (j < Z.to_nat r)%nat → sample.*2 !! j ≠ Some 10
        else r = -1.
Proof.
  assert (is_list (nodes sample_world) (Some 16) sample) as Hl
    by (apply (bool_decide_unpack _); vm_compute; exact I).
  assert (length sample ≤ 4)%nat as Hfuel by (simpl; lia).
  assert (Z.of_nat (length sample) ≤ INT_MAX) as Hmax
    by (apply (bool_decide_unpack _); vm_compute; exact I).
  split; [exact Hl|]. split; [exact Hfuel|]. split; [exact Hmax|].
  exact (search_finds_first 4 sample_world (Some 16) sample 10 Hl Hfuel Hmax).
Defined.

(** The length of the list 30 -> 10 -> 20 -> 10. *)
Lemma getListLength_counts_witness :
  is_list (nodes sample_world) (Some 16) sample
  ∧ (length sample ≤ 4)%nat
  ∧ getListLength 4 (Some 16) sample_world
    = if decide (Z.of_nat (length sample) ≤ INT_MAX)
      then Val (Z.of_nat (length sample)) sample_world else Fault.
Proof.
  assert (is_list (nodes sample_world) (Some 16) sample) as Hl
    by (apply (bool_decide_unpack _); vm_compute; exact I).
  assert (length sample ≤ 4)%nat as Hfuel by (simpl; lia).
  split; [exact Hl|]. split; [exact Hfuel|].
  exact (getListLength_counts 4 sample_world (Some 16) sample Hl Hfuel).
Defined.

(** Splitting the list 30 -> 10 -> 20 -> 10 in the middle. *)
Lemma getMidNode_splits_witness :
  is_list (nodes sample_world) (Some 16) sample
  ∧ (length sample ≤ 4)%nat
  ∧ ∃ w', getMidNode 4 (Some 16) sample_world
          = Val (ptr_of (drop (Nat.div2 (length sample)) sample) None) w'
      ∧ is_list (nodes w') (ptr_of (drop (Nat.div2 (length sample)) sample) None)
          (drop (Nat.div2 (length sample)) sample)
      ∧ is_list (nodes w')
          (if decide (2 ≤ length sample)%nat then Some 16 else None)
          (take (Nat.div2 (length sample)) sample)
      ∧ (length sample ≤ 1 → nodes w' = nodes sample_world)%nat
      ∧ (∀ b, b ∉ (take (Nat.div2 (length sample)) sample).*1 →
              nodes w' !! b = nodes sample_world !! b)
      ∧ answers w' = answers sample_world ∧ stdout w' = stdout sample_world.
Proof.
  assert (is_list (nodes sample_world) (Some 16) sample) as Hl
    by (apply (bool_decide_unpack _); vm_compute; exact I).
  assert (length sample ≤ 4)%nat as Hfuel by (simpl; lia).
  split; [exact Hl|]. split; [exact Hfuel|].
  exact (getMidNode_splits 4 sample_world (Some 16) sample Hl Hfuel).
Defined.

(** Merging 1 -> 4 and 2 -> 3. *)
Lemma merge_merges_witness :
  is_list (nodes runs_world) (Some 16) low_run
  ∧ is_list (nodes runs_world) (Some 48) high_run
  ∧ NoDup (low_run.*1 ++ high_run.*1)
  ∧ Sorted Z.le low_run.*2 ∧ Sorted Z.le high_run.*2
  ∧ (length low_run + length high_run ≤ 4)%nat
  ∧ is_Some (grant runs_world)
  ∧ ∃ w' l',
      merge 3 (Some 16) (Some 48) runs_world = Val (ptr_of l' None) w'
      ∧ is_list (nodes w') (ptr_of l' None) l'
      ∧ l' ≡ₚ low_run ++ high_run ∧ Sorted Z.le l'.*2
      ∧ (∀ b, b ∉ (low_run ++ high_run).*1 →
              nodes w' !! b = nodes runs_world !! b)
      ∧ answers w' = tail (answers runs_world) ∧ stdout w' = stdout runs_world.
Proof.
  assert (is_list (nodes runs_world) (Some 16) low_run) as H1
    by (apply (bool_decide_unpack _); vm_compute; exact I).
  assert (is_list (nodes runs_world) (Some 48) high_run) as H2
    by (apply (bool_decide_unpack _); vm_compute; exact I).
  assert (NoDup (low_run.*1 ++ high_run.*1)) as Hnd
    by (apply (bool_decide_unpack _); vm_compute; exact I).
  assert (Sorted Z.le low_run.*2) as Hs1
    by (apply (bool_decide_unpack _); vm_compute; exact I).
  assert (Sorted Z.le high_run.*2) as Hs2
    by (apply (bool_decide_unpack _); vm_compute; exact I).
  assert (length low_run + length high_run ≤ 4)%nat as Hfuel by (simpl; lia).
  assert (is_Some (grant runs_world)) as Hg
    by (apply (bool_decide_unpack _); vm_compute; exact I).
  split; [exact H1|]. split; [exact H2|]. split; [exact Hnd|].
  split; [exact Hs1|]. split; [exact Hs2|]. split; [exact Hfuel|].
  split; [exact Hg|].
  exact (merge_merges 3 runs_world (Some 16) (Some 48) low_run high_run
           H1 H2 Hnd Hs1 Hs2 Hfuel Hg).
Defined.

(** [merge] with an allocator that refuses. *)
Lemma merge_null_dereference_witness :
  grant refusing_world = None
  ∧ merge 4 (Some 16) None refusing_world = Fault
  ∧ ∀ fuel' r w', merge fuel' (Some 16) None refusing_world ≠ Val r w'.
Proof.
  assert (grant refusing_world = None) as Hg by (vm_compute; reflexivity).
  split; [exact Hg|].
  exact (merge_null_dereference 3 refusing_world (Some 16) None Hg).
Defined.

(** Sorting the list 30 -> 10 -> 20 -> 10 with [mergeSort]. *)
Lemma mergeSort_sorts_witness :
  is_list (nodes sample_world) (Some 16) sample
  ∧ (length sample ≤ 4)%nat
  ∧ grants_fresh (length sample - 1) sample_world
  ∧ ∃ w' l',
      mergeSort 4 (Some 16) sample_world = Val (ptr_of l' None) w'
      ∧ is_list (nodes w') (ptr_of l' None) l'
      ∧ l' ≡ₚ sample ∧ Sorted Z.le l'.*2
      ∧ (∀ b, b ∉ sample.*1 → nodes w' !! b = nodes sample_world !! b)
      ∧ answers w' = drop (length sample - 1) (answers sample_world)
      ∧ stdout w' = stdout sample_world.
Proof.
  assert (is_list (nodes sample_world) (Some 16) sample) as Hl
    by (apply (bool_decide_unpack _); vm_compute; exact I).
  assert (length sample ≤ 4)%nat as Hfuel by (simpl; lia).
  assert (grants_fresh (length sample - 1) sample_world) as Hgr
    by (apply (bool_decide_unpack _); vm_compute; exact I).
  split; [exact Hl|]. split; [exact Hfuel|]. split; [exact Hgr|].
  exact (mergeSort_sorts 4 sample_world (Some 16) sample Hl Hfuel Hgr).
Defined.

(** [mergeSort] of the list 30 -> 10 -> 20 -> 10 with an allocator that
    refuses. *)
Lemma mergeSort_faults_witness :
  is_list (nodes refusing_world) (Some 16) sample
  ∧ (2 ≤ length sample)%nat ∧ (length sample ≤ 4)%nat
  ∧ grant refusing_world = None
  ∧ mergeSort 4 (Some 16) refusing_world = Fault
  ∧ ¬ grants_fresh (length sample - 1) refusing_world.
Proof.
  assert (is_list (nodes refusing_world) (Some 16) sample) as Hl
    by (apply (bool_decide_unpack _); vm_compute; exact I).
  assert (2 ≤ length sample)%nat as H2 by (simpl; lia).
  assert (length sample ≤ 4)%nat as Hfuel by (simpl; lia).
  assert (grant refusing_world = None) as Hg by (vm_compute; reflexivity).
  split; [exact Hl|]. split; [exact H2|]. split; [exact Hfuel|].
  split; [exact Hg|].
  exact (mergeSort_faults 4 refusing_world (Some 16) sample Hl H2 Hfuel Hg).
Defined.

(** Sorting the list 30 -> 10 -> 20 -> 10 with [bubbleSort]. *)
Lemma bubbleSort_sorts_witness :
  is_list (nodes sample_world) (Some 16) sample
  ∧ (length sample * length sample < 17)%nat
  ∧ ∃ w' ds,
      bubbleSort 17 (Some 16) sample_world = Val (Some 16) w'
      ∧ is_list (nodes w') (Some 16) (zip sample.*1 ds)
      ∧ ds ≡ₚ sample.*2 ∧ Sorted Z.le ds
      ∧ (∀ b, b ∉ sample.*1 → nodes w' !! b = nodes sample_world !! b)
      ∧ answers w' = answers sample_world ∧ stdout w' = stdout sample_world.
Proof.
  assert (is_list (nodes sample_world) (Some 16) sample) as Hl
    by (apply (bool_decide_unpack _); vm_compute; exact I).
  assert (length sample * length sample < 17)%nat as Hfuel by (simpl; lia).
  split; [exact Hl|]. split; [exact Hfuel|].
  exact (bubbleSort_sorts 17 sample_world (Some 16) sample Hl Hfuel).
Defined.

(** Freeing the list 30 -> 10 -> 20 -> 10. *)
Lemma freeList_releases_witness :
  is_list (nodes sample_world) (Some 16) sample
  ∧ (length sample ≤ 4)%nat
  ∧ ∃ w', freeList 4 (Some 16) sample_world = Val tt w'
      ∧ (∀ a, nodes w' !! a
              = if decide (a ∈ sample.*1) then None else nodes sample_world !! a)
      ∧ answers w' = answers sample_world ∧ stdout w' = stdout sample_world
      ∧ (sample ≠ [] → freeList 4 (Some 16) w' = Fault).
Proof.
  assert (is_list (nodes sample_world) (Some 16) sample) as Hl
    by (apply (bool_decide_unpack _); vm_compute; exact I).
  assert (length sample ≤ 4)%nat as Hfuel by (simpl; lia).
  split; [exact Hl|]. split; [exact Hfuel|].
  exact (freeList_releases 4 sample_world (Some 16) sample Hl Hfuel).
Defined.

(** Appending the array 7, 8, 9, 5 to the list 30 -> 10 -> 20 -> 10; the
    allocator grants the nodes 80, 96 and 112 and refuses the fourth. *)
Lemma insertArray_appends_witness :
  is_list (nodes sample_world) (Some 16) sample
  ∧ 0 < 4 ≤ Z.of_nat (length [7; 8; 9; 5])
  ∧ (length sample + 2 * Z.to_nat 4 ≤ 12)%nat
  ∧ array_cells (dom (nodes sample_world)) (answers sample_world)
      (take (Z.to_nat 4) [7; 8; 9; 5])
    = [(80, 7); (96, 8); (112, 9)]
  ∧ ∃ w' ins failed,
      insertArray 12 (Some 16) (Some [7; 8; 9; 5]) 4 sample_world
      = Val (ptr_of (sample ++ ins) None) w'
      ∧ ins = array_cells (dom (nodes sample_world)) (answers sample_world)
                (take (Z.to_nat 4) [7; 8; 9; 5])
      ∧ is_list (nodes w') (ptr_of (sample ++ ins) None) (sample ++ ins)
      ∧ ins.*2 `sublist_of` take (Z.to_nat 4) [7; 8; 9; 5]
      ∧ (length ins + failed = Z.to_nat 4)%nat
      ∧ (failed = 0%nat → ins.*2 = take (Z.to_nat 4) [7; 8; 9; 5])
      ∧ (∀ b, b ∉ (sample ++ ins).*1 → nodes w' !! b = nodes sample_world !! b)
      ∧ answers w' = drop (Z.to_nat 4) (answers sample_world)
      ∧ stdout w'
        = stdout sample_world
          ++ replicate failed ("Memory allocation failed!" +:+ nl)
          ++ ["✓ Inserted " +:+ pretty 4 +:+ " elements from array." +:+ nl].
Proof.
  assert (is_list (nodes sample_world) (Some 16) sample) as Hl
    by (apply (bool_decide_unpack _); vm_compute; exact I).
  assert (0 < 4 ≤ Z.of_nat (length [7; 8; 9; 5])) as Hsize by (simpl; lia).
  assert (length sample + 2 * Z.to_nat 4 ≤ 12)%nat as Hfuel by (simpl; lia).
  assert (array_cells (dom (nodes sample_world)) (answers sample_world)
            (take (Z.to_nat 4) [7; 8; 9; 5])
          = [(80, 7); (96, 8); (112, 9)]) as Hcells
    by (vm_compute; reflexivity).
  split; [exact Hl|]. split; [exact Hsize|]. split; [exact Hfuel|].
  split; [exact Hcells|].
  exact (insertArray_appends 12 sample_world (Some 16) sample [7; 8; 9; 5] 4
           Hl Hsize Hfuel).
Defined.

(** Building a list from the array 7, 8 and freeing it, beside the list
    30 -> 10 -> 20 -> 10. *)
Lemma build_then_free_restores_witness :
  0 < 2 ≤ Z.of_nat (length [7; 8])
  ∧ (2 * Z.to_nat 2 ≤ 4)%nat
  ∧ ∃ p w' w'',
      insertArray 4 None (Some [7; 8]) 2 sample_world = Val p w'
      ∧ freeList 4 p w' = Val tt w''
      ∧ nodes w'' = nodes sample_world
      ∧ answers w'' = drop (Z.to_nat 2) (answers sample_world).
Proof.
  assert (0 < 2 ≤ Z.of_nat (length [7; 8])) as Hsize by (simpl; lia).
  assert (2 * Z.to_nat 2 ≤ 4)%nat as Hfuel by (simpl; lia).
  split; [exact Hsize|]. split; [exact Hfuel|].
  exact (build_then_free_restores 4 sample_world [7; 8] 2 Hsize Hfuel).
Defined.

(** What the calls return on the concrete list: [search] finds 10 at
    position 1, [mergeSort] and [bubbleSort] leave 10, 10, 20, 30, and
    [insertArray] reports four elements although the fourth was refused. *)
Lemma sample_runs :
  search 4 (Some 16) 10 sample_world = Val 1 sample_world
  ∧ (∃ w', mergeSort 4 (Some 16) sample_world = Val (Some 32) w'
           ∧ is_list (nodes w') (Some 32) [(32, 10); (64, 10); (48, 20); (16, 30)])
  ∧ (∃ w', bubbleSort 17 (Some 16) sample_world = Val (Some 16) w'
           ∧ is_list (nodes w') (Some 16) [(16, 10); (32, 10); (48, 20); (64, 30)])
  ∧ ∃ w', insertArray 12 (Some 16) (Some [7; 8; 9; 5]) 4 sample_world
          = Val (Some 16) w'
          ∧ is_list (nodes w') (Some 16)
              (sample ++ [(80, 7); (96, 8); (112, 9)])
          ∧ stdout w' = ["Memory allocation failed!" +:+ nl;
                         "✓ Inserted 4 elements from array." +:+ nl].
Proof.
  split; [vm_compute; reflexivity|].
  split; [eexists; split; [vm_compute; reflexivity|];
          apply (bool_decide_unpack _); vm_compute; exact I|].
  split; [eexists; split; [vm_compute; reflexivity|];
          apply (bool_decide_unpack _); vm_compute; exact I|].
  eexists. split; [vm_compute; reflexivity|].
  split; [apply (bool_decide_unpack _); vm_compute; exact I|].
  vm_compute; reflexivity.
Qed.

End linked_list_instances.
